(** * httpcore: the synchronous connection pool and its HTTP proxy variant

    A shallow embedding of [httpcore/_sync/connection_pool.py] and
    [httpcore/_sync/http_proxy.py], and the properties of the pool's
    bookkeeping proved over it.

    Python objects live in a store: a connection is a handle (its identity)
    and the store maps each handle to the object's current attributes.  The
    pool's methods become functions on a [World], which holds the store, the
    pool object itself, the reading of the backend's clock and the log of the
    calls made on the collaborators (connections, semaphore). *)

From Stdlib Require Import Floats ZArith Ascii.
From stdpp Require Import gmap strings list fin_maps functions pretty sorting.

Open Scope Z_scope.

(** ** Data model *)

(** Python [bytes]: a string of 8-bit characters. *)
Abbreviation bytes := string (only parsing).

(** [Origin = Tuple[bytes, bytes, int]] and
    [URL = Tuple[bytes, bytes, Optional[int], bytes]]. *)
Abbreviation Origin := (string * string * Z)%type (only parsing).
Abbreviation URL := (string * string * option Z * string)%type (only parsing).
Abbreviation Headers := (list (string * string)) (only parsing).

Definition url_scheme (url : URL) : bytes := url.1.1.1.
Definition url_host (url : URL) : bytes := url.1.1.2.
Definition url_port (url : URL) : option Z := url.1.2.
Definition url_path (url : URL) : bytes := url.2.

(** A connection handle: the identity of a [SyncHTTPConnection] object.  Sets
    of connections hold handles, as Python sets of objects without [__eq__]
    compare by identity. *)
Abbreviation handle := nat (only parsing).

(** Modelled from the spec: the [ConnectionState] enumeration of [base.py],
    with the states the spec lists for a connection handle. *)
Inductive ConnectionState : Set :=
| PENDING | ACTIVE | READY | IDLE | CLOSED.

#[global] Instance ConnectionState_eq_dec : EqDecision ConnectionState.
Proof. solve_decision. Defined.

Module Conn.
(** Modelled from the spec: the attributes of a [SyncHTTPConnection]
    ([connection.py]) that the pool reads or writes.  [socket_readable] is
    what [is_socket_readable()] reports and [socket] the transferable
    stream handle. *)
Record t : Type := mk {
  origin : Origin;
  state : ConnectionState;
  is_http11 : bool;
  is_http2 : bool;
  expires_at : option float;
  socket_readable : bool;
  socket : option nat;
}.

Definition set_state (s : ConnectionState) (c : t) : t :=
  mk (origin c) s (is_http11 c) (is_http2 c) (expires_at c)
     (socket_readable c) (socket c).

Definition set_expires_at (e : option float) (c : t) : t :=
  mk (origin c) (state c) (is_http11 c) (is_http2 c) e
     (socket_readable c) (socket c).
End Conn.

(** The pool's semaphore.  [NullSemaphore] is the class of that name in
    [connection_pool.py].

    Modelled from the spec: [BackendSemaphore] is the counting semaphore the
    backend creates ([create_semaphore(capacity, timeout_exception)]), with
    the number of free slots as its value. *)
Inductive SyncSemaphore : Set :=
| NullSemaphore
| BackendSemaphore (max_value : Z) (value : Z).

(** [self] of a [SyncConnectionPool].  The attributes that are only handed
    to the connection constructor ([_ssl_context], [_uds], [_local_address],
    [_retries], [_backend]) and the two locks are left out: the model is
    sequential.  [_internal_semaphore] is [None] while the attribute does not
    exist ([hasattr] is false). *)
Record SyncConnectionPool : Type := mkPool {
  _max_connections : option Z;
  _max_keepalive_connections : option Z;
  _keepalive_expiry : option float;
  _http2 : bool;
  _connections : gmap (string * string * Z) (gset nat);
  _internal_semaphore : option SyncSemaphore;
  _next_keepalive_check : float;
}.

(** Calls made on the collaborators, in the order they are made. *)
Inductive Event : Type :=
| SemaphoreAcquire (timeout : option float)
| SemaphoreRelease
| MarkAsReady (c : handle)
| ConnClose (c : handle)
| ConnRequest (c : handle) (method : bytes) (url : URL) (headers : Headers)
| ConnStartTLS (c : handle) (host : bytes)
| StreamRead (stream : nat)
| StreamClose (stream : nat).

(** The state a method runs in. *)
Record World : Type := mkWorld {
  objects : handle → Conn.t;
  next_handle : handle;
  pool : SyncConnectionPool;
  backend_time : float;
  trace : list Event;
}.

Definition with_objects (f : (handle → Conn.t) → (handle → Conn.t)) (w : World) : World :=
  mkWorld (f (objects w)) (next_handle w) (pool w) (backend_time w) (trace w).

Definition with_pool (f : SyncConnectionPool → SyncConnectionPool) (w : World) : World :=
  mkWorld (objects w) (next_handle w) (f (pool w)) (backend_time w) (trace w).

Definition log (e : Event) (w : World) : World :=
  mkWorld (objects w) (next_handle w) (pool w) (backend_time w) (trace w ++ [e]).

Definition set_connections (m : gmap (string * string * Z) (gset nat))
    (p : SyncConnectionPool) : SyncConnectionPool :=
  mkPool (_max_connections p) (_max_keepalive_connections p) (_keepalive_expiry p)
         (_http2 p) m (_internal_semaphore p) (_next_keepalive_check p).

Definition set_internal_semaphore (s : option SyncSemaphore)
    (p : SyncConnectionPool) : SyncConnectionPool :=
  mkPool (_max_connections p) (_max_keepalive_connections p) (_keepalive_expiry p)
         (_http2 p) (_connections p) s (_next_keepalive_check p).

Definition set_next_keepalive_check (t : float)
    (p : SyncConnectionPool) : SyncConnectionPool :=
  mkPool (_max_connections p) (_max_keepalive_connections p) (_keepalive_expiry p)
         (_http2 p) (_connections p) (_internal_semaphore p) t.

(** [self._connections.get(origin, set())] *)
Definition bucket (w : World) (origin : Origin) : gset nat :=
  default ∅ (_connections (pool w) !! origin).

(** ** The semaphore *)

(** Modelled from the spec: the backend's [create_semaphore] gives a
    semaphore with [max_value] free slots. *)
Definition create_semaphore (max_value : Z) : SyncSemaphore :=
  BackendSemaphore max_value max_value.

(** [release()]: nothing for [NullSemaphore].

    Modelled from the spec: one more free slot for the backend's semaphore. *)
Definition release (s : SyncSemaphore) : SyncSemaphore :=
  match s with
  | NullSemaphore => NullSemaphore
  | BackendSemaphore m v => BackendSemaphore m (v + 1)
  end.

(** The property [_connection_semaphore]: created on first use. *)
Definition _connection_semaphore (w : World) : SyncSemaphore * World :=
  match _internal_semaphore (pool w) with
  | Some s => (s, w)
  | None =>
      let s := match _max_connections (pool w) with
               | Some n => create_semaphore n
               | None => NullSemaphore
               end in
      (s, with_pool (set_internal_semaphore (Some s)) w)
  end.

(** [self._connection_semaphore.release()] *)
Definition semaphore_release (w : World) : World :=
  let '(s, w) := _connection_semaphore w in
  log SemaphoreRelease (with_pool (set_internal_semaphore (Some (release s))) w).

(** ** [SyncConnectionPool._remove_from_pool] *)

Definition _remove_from_pool (connection : handle) (w : World) : World :=
  let origin := Conn.origin (objects w connection) in
  if bool_decide (connection ∈ bucket w origin) then
    let w := semaphore_release w in
    (* self._connections[connection.origin].remove(connection) *)
    let w := with_pool (set_connections
               (<[origin := bucket w origin ∖ {[connection]}]> (_connections (pool w)))) w in
    if bool_decide (bucket w origin = ∅) then
      with_pool (set_connections (delete origin (_connections (pool w)))) w
    else w
  else w.

(** ** Iterating over a Python set

    A [for] loop over a set visits every member once, in an order the
    language does not fix.  The order is a parameter of the model: any
    enumeration of the set without repetition. *)
Class SetIteration : Type := {
  set_iter : gset nat → list nat;
  set_iter_perm : ∀ s, set_iter s ≡ₚ elements s;
}.

(** [for x in xs: w = body(x, w)] *)
Fixpoint for_in {A S : Type} (xs : list A) (body : A → S → S) (s : S) : S :=
  match xs with
  | [] => s
  | x :: xs => for_in xs body (body x s)
  end.

(** ** Methods of a connection the pool calls *)

(** Modelled from the spec: [close()] is terminal and sets the state to
    [CLOSED]. *)
Definition conn_close (c : handle) (w : World) : World :=
  log (ConnClose c) (with_objects (fun h => <[c := Conn.set_state CLOSED (h c)]> h) w).

(** Modelled from the spec: [mark_as_ready()] is the transition from [IDLE]
    to [READY]. *)
Definition mark_as_ready_obj (o : Conn.t) : Conn.t :=
  if bool_decide (Conn.state o = IDLE) then Conn.set_state READY o else o.

Definition mark_as_ready (c : handle) (w : World) : World :=
  log (MarkAsReady c) (with_objects (fun h => <[c := mark_as_ready_obj (h c)]> h) w).

(** [connection.expires_at = e] *)
Definition set_expires_at (c : handle) (e : option float) (w : World) : World :=
  with_objects (fun h => <[c := Conn.set_expires_at e (h c)]> h) w.

(** ** Python's [min] on two floats: the first argument unless the second is
    smaller. *)
Definition py_min (a b : float) : float :=
  if PrimFloat.ltb b a then b else a.

Section Pool.
Context {iteration : SetIteration}.

(** [set(self._connections.get(origin, set()))] *)
Definition _connections_for_origin (origin : Origin) (w : World) : gset nat :=
  bucket w origin.

Definition _get_all_connections (w : World) : gset nat :=
  map_fold (fun _ connection_set connections => connections ∪ connection_set)
           ∅ (_connections (pool w)).

(** *** [_get_connection_from_pool] *)

(** The local variables of the scan. *)
Record Scan : Type := mkScan {
  seen_http11 : bool;
  pending_connection : option handle;
  reuse_connection : option handle;
  connections_to_close : gset nat;
}.

(** The body of the loop over the connections of the origin. *)
Definition scan_body (connection : handle) (st : Scan * World) : Scan * World :=
  let '(s, w) := st in
  let obj := objects w connection in
  let s := if Conn.is_http11 obj
           then mkScan true (pending_connection s) (reuse_connection s)
                       (connections_to_close s)
           else s in
  if bool_decide (Conn.state obj = IDLE) then
    if Conn.socket_readable obj then
      (mkScan (seen_http11 s) (pending_connection s) (reuse_connection s)
              (connections_to_close s ∪ {[connection]}),
       _remove_from_pool connection w)
    else
      (mkScan (seen_http11 s) (pending_connection s) (Some connection)
              (connections_to_close s), w)
  else if bool_decide (Conn.state obj = ACTIVE) && Conn.is_http2 obj then
    (mkScan (seen_http11 s) (pending_connection s) (Some connection)
            (connections_to_close s), w)
  else if bool_decide (Conn.state obj = PENDING) then
    (mkScan (seen_http11 s) (Some connection) (reuse_connection s)
            (connections_to_close s), w)
  else (s, w).

Definition _get_connection_from_pool (origin : Origin) (w : World)
    : option handle * World :=
  let '(s, w) :=
    for_in (set_iter (_connections_for_origin origin w)) scan_body
           (mkScan false None None ∅, w) in
  let '(reuse, w) :=
    match reuse_connection s with
    | Some c => (Some c, set_expires_at c None (mark_as_ready c w))
    | None =>
        if _http2 (pool w) && bool_decide (is_Some (pending_connection s))
           && negb (seen_http11 s)
        then (pending_connection s, w)
        else (None, w)
    end in
  (* Close any dropped connections. *)
  (reuse, for_in (set_iter (connections_to_close s)) conn_close w).

(** *** [_response_closed] *)

Definition _response_closed (connection : handle) (w : World) : World :=
  let st := Conn.state (objects w connection) in
  let '(remove_from_pool, close_connection, w) :=
    if bool_decide (st = CLOSED) then (true, false, w)
    else if bool_decide (st = IDLE) then
      let num_connections := Z.of_nat (size (_get_all_connections w)) in
      if match _max_keepalive_connections (pool w) with
         | Some max_keepalive => max_keepalive <? num_connections
         | None => false
         end
      then (true, true, w)
      else match _keepalive_expiry (pool w) with
           | Some keepalive_expiry =>
               let now := backend_time w in
               (false, false,
                set_expires_at connection (Some (PrimFloat.add now keepalive_expiry)) w)
           | None => (false, false, w)
           end
    else (false, false, w) in
  let w := if remove_from_pool : bool then _remove_from_pool connection w else w in
  if close_connection : bool then conn_close connection w else w.

(** *** [_keepalive_sweep] *)

(** The test of the sweep's loop. *)
Definition expired (now : float) (obj : Conn.t) : bool :=
  bool_decide (Conn.state obj = IDLE) &&
  match Conn.expires_at obj with
  | Some e => PrimFloat.leb e now      (* now >= connection.expires_at *)
  | None => false
  end.

Definition sweep_body (now : float) (connection : handle)
    (st : gset nat * World) : gset nat * World :=
  let '(to_close, w) := st in
  if expired now (objects w connection)
  then (to_close ∪ {[connection]}, _remove_from_pool connection w)
  else (to_close, w).

Definition _keepalive_sweep (w : World) : World :=
  match _keepalive_expiry (pool w) with
  | None => w
  | Some keepalive_expiry =>
      let now := backend_time w in
      if PrimFloat.ltb now (_next_keepalive_check (pool w)) then w
      else
        let w := with_pool (set_next_keepalive_check
                   (PrimFloat.add now (py_min 1%float keepalive_expiry))) w in
        let '(connections_to_close, w) :=
          for_in (set_iter (_get_all_connections w)) (sweep_body now) (∅, w) in
        for_in (set_iter connections_to_close) conn_close w
  end.

(** *** [close] *)

Definition close (w : World) : World :=
  let connections := _get_all_connections w in
  let w := for_in (set_iter connections) _remove_from_pool w in
  (* Close all connections *)
  for_in (set_iter connections) conn_close w.

End Pool.

(** ** The tests of the scan in [_get_connection_from_pool]

    The branches of the loop's [if]/[elif] chain, as tests on a connection
    object: dropped (idle with a readable socket), reusable (idle with a
    socket that is not readable, or active on HTTP/2) and pending. *)
Definition dropped (obj : Conn.t) : bool :=
  bool_decide (Conn.state obj = IDLE) && Conn.socket_readable obj.

Definition reusable (obj : Conn.t) : bool :=
  if bool_decide (Conn.state obj = IDLE) then negb (Conn.socket_readable obj)
  else bool_decide (Conn.state obj = ACTIVE) && Conn.is_http2 obj.

Definition is_pending (obj : Conn.t) : bool :=
  bool_decide (Conn.state obj = PENDING).

(** The last element of a list, or a default. *)
Definition last_or {A} (d : option A) (l : list A) : option A :=
  match last l with
  | Some x => Some x
  | None => d
  end.

(** ** Invariants of the pool

    [pooled w c]: [c] is in some set of the map. *)
Definition pooled (w : World) (c : handle) : Prop :=
  ∃ o, c ∈ bucket w o.

(** I1: a connection is filed under its own origin. *)
Definition filed_by_origin (w : World) : Prop :=
  ∀ o c, c ∈ bucket w o → Conn.origin (objects w c) = o.

(** I3: the map holds no empty set. *)
Definition no_empty_bucket (w : World) : Prop :=
  ∀ o s, _connections (pool w) !! o = Some s → s ≠ ∅.

(** I2: the semaphore counts the pooled connections.  The semaphore in use
    is the one [_connection_semaphore] gives; it was made for
    [max_connections], and its free slots and the pooled connections add up
    to its capacity. *)
Definition semaphore_matches (w : World) : Prop :=
  match _internal_semaphore (pool w) with
  | Some NullSemaphore => _max_connections (pool w) = None
  | Some (BackendSemaphore m _) => _max_connections (pool w) = Some m
  | None => True
  end.

Definition slots_accounted (w : World) : Prop :=
  match (_connection_semaphore w).1 with
  | NullSemaphore => True
  | BackendSemaphore m v => 0 ≤ v ∧ v + Z.of_nat (size (_get_all_connections w)) = m
  end.

(** Every pooled handle was made by a constructor call. *)
Definition handles_allocated (w : World) : Prop :=
  ∀ c, pooled w c → (c < next_handle w)%nat.

Definition pool_ok (w : World) : Prop :=
  filed_by_origin w ∧ no_empty_bucket w ∧ semaphore_matches w ∧
  slots_accounted w ∧ handles_allocated w.

(** ** [SyncConnectionPool.__init__]

    The attributes the constructor sets, from its arguments; [max_keepalive]
    is the deprecated spelling of [max_keepalive_connections] and wins when
    given (the second component tells whether the deprecation warning was
    issued).  With [http2] the constructor fails when the package [h2]
    cannot be imported. *)
Definition __init__ (h2_installed : bool)
    (max_connections max_keepalive_connections : option Z)
    (keepalive_expiry : option float) (http2 : bool) (max_keepalive : option Z)
    : option (SyncConnectionPool * bool) :=
  let '(max_keepalive_connections, warned) :=
    match max_keepalive with
    | Some m => (Some m, true)
    | None => (max_keepalive_connections, false)
    end in
  if http2 && negb h2_installed then None     (* raise ImportError *)
  else Some (mkPool max_connections max_keepalive_connections keepalive_expiry
                    http2 ∅ None 0%float, warned).

(** ** [get_connection_info] *)

(** A [for] loop over the items of a Python dictionary visits every entry
    once; the order (that of insertion) is a parameter of the model, as for
    sets. *)
Class DictIteration : Type := {
  dict_iter : gmap (string * string * Z) (gset nat) → list ((string * string * Z) * gset nat);
  dict_iter_perm : ∀ m, dict_iter m ≡ₚ map_to_list m;
}.

(** [origin_to_url_string] of [_utils.py] and the method [info()] of a
    connection, which reads the object, as parameters. *)
Class InfoCollaborators : Type := {
  origin_to_url_string : Origin → string;
  connection_info : Conn.t → string;
}.

(** Python's order on strings: by code point, a proper prefix first. *)
Definition str_le (a b : string) : Prop := String.leb a b = true.

#[global] Instance str_le_dec a b : Decision (str_le a b).
Proof. unfold str_le. apply _. Defined.

(** [sorted] on a list of strings. *)
Definition sorted (l : list string) : list string := merge_sort str_le l.

Section Info.
Context {iteration : SetIteration} {dict_iteration : DictIteration}
        {info : InfoCollaborators}.

(** The summary strings of the connections of one set, sorted. *)
Definition summaries (w : World) (connections : gset nat) : list string :=
  sorted ((λ connection, connection_info (objects w connection))
            <$> set_iter connections).

Definition get_connection_info (w : World) : gmap string (list string) * World :=
  let w := _keepalive_sweep w in
  let stats :=
    foldl (λ stats '(origin, connections),
             <[origin_to_url_string origin := summaries w connections]> stats)
          ∅ (dict_iter (_connections (pool w))) in
  (stats, w).

End Info.

(** * Requests

    ** Exceptions and outcomes *)

(** The exception classes the two modules raise or catch.  A [ProxyError] is
    built from one argument, a message or the exception it wraps.  Every
    other exception of a collaborator is an [OtherException]. *)
Inductive Exception : Type :=
| UnsupportedProtocol (msg : string)
| LocalProtocolError (msg : string)
| PoolTimeout
| NewConnectionRequired
| ProxyError (arg : ExcArg)
| OtherException (class_name msg : string)
with ExcArg : Type :=
| Message (msg : string)
| Cause (exc : Exception).

(** Python's [str()] of an exception built from one argument: the [str()]
    of the argument; without argument, the empty string. *)
Fixpoint exc_str (e : Exception) : string :=
  match e with
  | UnsupportedProtocol msg | LocalProtocolError msg | OtherException _ msg => msg
  | PoolTimeout | NewConnectionRequired => ""
  | ProxyError (Message msg) => msg
  | ProxyError (Cause exc) => exc_str exc
  end.

(** How a call ends: it returns, it raises, it waits for ever on the
    semaphore, or the model's loop ran out of fuel. *)
Inductive Outcome (A : Type) : Type :=
| Returns (a : A)
| Raises (e : Exception)
| Blocks
| OutOfFuel.
Arguments Returns {A} a.
Arguments Raises {A} e.
Arguments Blocks {A}.
Arguments OutOfFuel {A}.

(** A method that may raise: the world is kept as the method left it. *)
Definition M (A : Type) : Type := World → Outcome A * World.

#[global] Instance M_ret : MRet M := λ A a w, (Returns a, w).

#[global] Instance M_bind : MBind M := λ A B f m w,
  match m w with
  | (Returns a, w) => f a w
  | (Raises e, w) => (Raises e, w)
  | (Blocks, w) => (Blocks, w)
  | (OutOfFuel, w) => (OutOfFuel, w)
  end.

Definition raise {A} (e : Exception) : M A := λ w, (Raises e, w).

(** A method that cannot raise. *)
Definition lift (f : World → World) : M unit := λ w, (Returns tt, f w).

Definition lift_result {A} (f : World → A * World) : M A :=
  λ w, let '(a, w) := f w in (Returns a, w).

(** Reading an attribute of the pool. *)
Definition attribute {A} (f : SyncConnectionPool → A) : M A :=
  λ w, (Returns (f (pool w)), w).

(** A value computed outside the world. *)
Definition lift_outcome {A} (r : Outcome A) : M A := λ w, (r, w).

(** [try: body except Exception as exc: handler(exc)] *)
Definition try_except {A} (body : M A) (handler : Exception → M A) : M A := λ w,
  match body w with
  | (Raises exc, w) => handler exc w
  | r => r
  end.


(** ** Collaborators *)

(** [TimeoutDict] maps names to seconds or [None]; of [ext] only the entry
    ["timeout"] is read, so [ext] is a dictionary of such entries. *)
Abbreviation TimeoutDict := (gmap string (option float)) (only parsing).
Abbreviation Ext := (gmap string (gmap string (option float))) (only parsing).

(** What [connection.request] returns: status code, headers, body stream
    and [ext]. *)
Abbreviation Response := (Z * list (string * string) * nat * gmap string (gmap string (option float)))%type (only parsing).

(** The code outside the two modules, as parameters.  The methods of a
    connection and of a stream act on the store of connection objects only.
    - [url_to_origin] is the function of [_utils.py];
    - [connection_request c method url headers stream ext] is
      [c.request(method, url, headers=headers, stream=stream, ext=ext)];
    - [start_tls c host timeout] is [c.start_tls(host, timeout)];
    - [read_stream s] is iterating over the stream [s] to its end;
    - [stream_close s] is [s.close()];
    - [HTTPStatus_phrase n] is [HTTPStatus(n).phrase], [None] where
      [HTTPStatus(n)] raises [ValueError];
    - [py_repr] is Python's [repr] on a string. *)
Class Collaborators : Type := {
  url_to_origin : URL → Outcome Origin;
  connection_request :
    handle → bytes → URL → option Headers → option nat → Ext →
    (handle → Conn.t) → Outcome Response * (handle → Conn.t);
  start_tls :
    handle → bytes → TimeoutDict → (handle → Conn.t) → Outcome unit * (handle → Conn.t);
  read_stream : nat → (handle → Conn.t) → Outcome unit * (handle → Conn.t);
  stream_close : nat → (handle → Conn.t) → Outcome unit * (handle → Conn.t);
  HTTPStatus_phrase : Z → option string;
  py_repr : string → string;
}.

(** A call on a collaborator: logged, then run on the store. *)
Definition call {A} (ev : Event)
    (f : (handle → Conn.t) → Outcome A * (handle → Conn.t)) : M A := λ w,
  let '(r, h) := f (objects w) in
  (r, with_objects (λ _, h) (log ev w)).

(** Modelled from the spec: [SyncHTTPConnection(origin=..., socket=...)]
    makes a new object, in state [PENDING], its protocol not yet
    negotiated. *)
Definition new_connection (origin : Origin) (socket : option nat) : M handle := λ w,
  let c := next_handle w in
  (Returns c,
   mkWorld (<[c := Conn.mk origin PENDING false false None false socket]> (objects w))
           (S c) (pool w) (backend_time w) (trace w)).

(** Modelled from the spec: [acquire(timeout)] takes a free slot; when there
    is none it raises the semaphore's exception ([PoolTimeout]) once the
    timeout expires, and waits for ever without timeout.  [NullSemaphore]
    returns at once. *)
Definition acquire (timeout : option float) (s : SyncSemaphore) : Outcome SyncSemaphore :=
  match s with
  | NullSemaphore => Returns NullSemaphore
  | BackendSemaphore m v =>
      if 0 <? v then Returns (BackendSemaphore m (v - 1))
      else match timeout with
           | Some _ => Raises PoolTimeout
           | None => Blocks
           end
  end.

(** [self._connection_semaphore.acquire(timeout=timeout)] *)
Definition semaphore_acquire (timeout : option float) : M unit := λ w,
  let '(s, w) := _connection_semaphore w in
  let w := log (SemaphoreAcquire timeout) w in
  match acquire timeout s with
  | Returns s => (Returns tt, with_pool (set_internal_semaphore (Some s)) w)
  | Raises e => (Raises e, w)
  | Blocks => (Blocks, w)
  | OutOfFuel => (OutOfFuel, w)
  end.

(** ** [ResponseByteStream]

    The wrapped stream and the connection; the callback is always the
    pool's [_response_closed]. *)
Module ResponseByteStream.
Record t : Type := mk {
  stream : nat;
  connection : handle;
}.
End ResponseByteStream.

(** ** [bytes.lower()] and [merge_headers] *)

(** [lower()] on one byte: the ASCII capitals move to their small letters. *)
Definition byte_lower (a : ascii) : ascii :=
  let n := N_of_ascii a in
  if (65 <=? n)%N && (n <=? 90)%N then ascii_of_N (n + 32) else a.

Fixpoint bytes_lower (s : bytes) : bytes :=
  match s with
  | EmptyString => EmptyString
  | String a s => String (byte_lower a) (bytes_lower s)
  end.

Definition merge_headers (default_headers override_headers : option Headers) : Headers :=
  let default_headers := default [] default_headers in
  let override_headers := default [] override_headers in
  let has_override : gset string :=
    list_to_set ((λ kv, bytes_lower kv.1) <$> override_headers) in
  let default_headers :=
    filter (λ kv, bytes_lower kv.1 ∉ has_override) default_headers in
  default_headers ++ override_headers.

(** The claim's reading of [merge_headers], to compare with the code: two
    keys are the same when they differ at most in the case of ASCII
    letters. *)
Definition same_byte_ignoring_case (x y : ascii) : bool :=
  let n := N_of_ascii x in
  let m := N_of_ascii y in
  (n =? m)%N ||
  ((65 <=? n)%N && (n <=? 90)%N && (m =? n + 32)%N) ||
  ((65 <=? m)%N && (m <=? 90)%N && (n =? m + 32)%N).

Fixpoint same_key_ignoring_case (a b : bytes) : bool :=
  match a, b with
  | EmptyString, EmptyString => true
  | String x a, String y b => same_byte_ignoring_case x y && same_key_ignoring_case a b
  | _, _ => false
  end.

Definition merge_headers_by_claim (default_headers override_headers : Headers) : Headers :=
  List.filter
    (λ kv, negb (existsb (λ kv', same_key_ignoring_case kv.1 kv'.1) override_headers))
    default_headers
  ++ override_headers.

(** ** Requests on the pool *)

Section Requests.
Context {iteration : SetIteration} {collaborators : Collaborators}.

(** [connection.request(method, url, headers=headers, stream=stream, ext=ext)] *)
Definition conn_request (c : handle) (method : bytes) (url : URL)
    (headers : option Headers) (stream : option nat) (ext : Ext) : M Response :=
  call (ConnRequest c method url (default [] headers))
       (connection_request c method url headers stream ext).

Definition _create_connection (origin : Origin) : M handle :=
  new_connection origin None.

Definition _add_to_pool (connection : handle) (timeout : TimeoutDict) : M unit :=
  _ ← semaphore_acquire (default None (timeout !! "pool"));
  lift (λ w,
    let origin := Conn.origin (objects w connection) in
    (* setdefault(origin, set()), then add(connection) *)
    with_pool (set_connections
      (<[origin := bucket w origin ∪ {[connection]}]> (_connections (pool w)))) w).

(** The block under the acquiry lock: get a connection of the pool, or
    create one and add it. *)
Definition get_or_create (origin : Origin) (timeout : TimeoutDict) : M handle :=
  connection ← lift_result (_get_connection_from_pool origin);
  match connection with
  | None =>
      connection ← _create_connection origin;
      _ ← _add_to_pool connection timeout;
      mret connection
  | Some connection => mret connection
  end.

(** The loop [while connection is None] of [request]; [fuel] bounds the
    number of rounds. *)
Fixpoint request_loop (fuel : nat) (origin : Origin) (timeout : TimeoutDict)
    (method : bytes) (url : URL) (headers : option Headers) (stream : option nat)
    (ext : Ext) : M (handle * Response) :=
  match fuel with
  | O => lift_outcome OutOfFuel
  | S fuel =>
      connection ← get_or_create origin timeout;
      ((λ w,
        match conn_request connection method url headers stream ext w with
        | (Returns response, w) => (Returns (connection, response), w)
        | (Raises NewConnectionRequired, w) =>
            request_loop fuel origin timeout method url headers stream ext w
        | (Raises e, w) => (Raises e, _remove_from_pool connection w)
        | (Blocks, w) => (Blocks, w)
        | (OutOfFuel, w) => (OutOfFuel, w)
        end) : M (handle * Response))
  end.

Definition request (fuel : nat) (method : bytes) (url : URL)
    (headers : option Headers) (stream : option nat) (ext : option Ext)
    : M (Z * Headers * ResponseByteStream.t * Ext) :=
  if bool_decide (url_scheme url ∉ ["http"; "https"]) then
    let scheme := url_scheme url in       (* url[0].decode("latin-1") *)
    raise (UnsupportedProtocol ("Unsupported URL protocol " +:+ py_repr scheme))
  else if bool_decide (url_host url = "") then
    raise (LocalProtocolError "Missing hostname in URL.")
  else
    origin ← lift_outcome (url_to_origin url);
    let ext := default ∅ ext in
    let timeout := default ∅ (ext !! "timeout") in
    _ ← lift _keepalive_sweep;
    '(connection, response) ← request_loop fuel origin timeout method url headers stream ext;
    let '(status_code, headers, stream, ext) := response in
    mret (status_code, headers, ResponseByteStream.mk stream connection, ext).


End Requests.

(** ** [http_proxy.py] *)

(** The three values [__init__] accepts for [proxy_mode]. *)
Inductive ProxyMode : Set :=
| DEFAULT | FORWARD_ONLY | TUNNEL_ONLY.

#[global] Instance ProxyMode_eq_dec : EqDecision ProxyMode.
Proof. solve_decision. Defined.

Module SyncHTTPProxy.

(** The attributes [SyncHTTPProxy] adds to the pool's; they are set by
    [__init__] and never written again. *)
Record t : Type := mk {
  proxy_origin : Origin;
  proxy_headers : Headers;
  proxy_mode : ProxyMode;
}.

Section Proxy.
Context {iteration : SetIteration} {collaborators : Collaborators}.
Variable self : t.

Definition get_reason_phrase (status_code : Z) : string :=
  default "" (HTTPStatus_phrase status_code).

(** [self.proxy_origin + (target,)] *)
Definition proxy_url (target : bytes) : URL :=
  let '(scheme, host, port) := proxy_origin self in
  (scheme, host, Some port, target).

Definition _forward_request (method : bytes) (url : URL) (headers : option Headers)
    (stream : option nat) (ext : option Ext)
    : M (Z * Headers * ResponseByteStream.t * Ext) :=
  let ext := default ∅ ext in
  let timeout := default ∅ (ext !! "timeout") in
  let origin := proxy_origin self in
  connection ← lift_result (_get_connection_from_pool origin);
  connection ← match connection with
               | None =>
                   connection ← new_connection origin None;
                   _ ← _add_to_pool connection timeout;
                   mret connection
               | Some connection => mret connection
               end;
  let '(scheme, host, port, path) := url in
  let target :=
    match port with
    | None => scheme +:+ "://" +:+ host +:+ path
    | Some port => scheme +:+ "://" +:+ host +:+ ":" +:+ pretty port +:+ path
    end in
  let url := proxy_url target in
  let headers := merge_headers (Some (proxy_headers self)) headers in
  '(status_code, headers, stream, ext) ←
    conn_request connection method url (Some headers) stream ext;
  mret (status_code, headers, ResponseByteStream.mk stream connection, ext).

(** The body of the [try] in [_tunnel_request]. *)
Definition connect_handshake (proxy_connection : handle) (connect_url : URL)
    (connect_headers : Headers) (ext : Ext) (scheme host : bytes)
    (timeout : TimeoutDict) : M unit :=
  '(proxy_status_code, _, proxy_stream, _) ←
    conn_request proxy_connection "CONNECT" connect_url (Some connect_headers) None ext;
  let proxy_reason := get_reason_phrase proxy_status_code in
  (* Read the response data without closing the socket *)
  _ ← call (StreamRead proxy_stream) (read_stream proxy_stream);
  (* See if the tunnel was successfully established. *)
  if (proxy_status_code <? 200) || (299 <? proxy_status_code) then
    let msg := pretty proxy_status_code +:+ " " +:+ proxy_reason in
    raise (ProxyError (Message msg))
  else if bool_decide (scheme = "https") then
    call (ConnStartTLS proxy_connection host) (start_tls proxy_connection host timeout)
  else mret tt.

Definition _tunnel_request (method : bytes) (url : URL) (headers : option Headers)
    (stream : option nat) (ext : option Ext)
    : M (Z * Headers * ResponseByteStream.t * Ext) :=
  let ext := default ∅ ext in
  let timeout := default ∅ (ext !! "timeout") in
  origin ← lift_outcome (url_to_origin url);
  connection ← lift_result (_get_connection_from_pool origin);
  connection ←
    match connection with
    | None =>
        let '(scheme, host, port) := origin in
        (* First, create a connection to the proxy server *)
        proxy_connection ← new_connection (proxy_origin self) None;
        let target := host +:+ ":" +:+ pretty port in
        let connect_url := proxy_url target in
        let connect_headers := [("Host", target); ("Accept", "*/*")] in
        let connect_headers :=
          merge_headers (Some connect_headers) (Some (proxy_headers self)) in
        _ ← try_except
              (connect_handshake proxy_connection connect_url connect_headers ext
                                 scheme host timeout)
              (λ exc, _ ← lift (conn_close proxy_connection);
                      raise (ProxyError (Cause exc)));
        socket ← lift_result (λ w, (Conn.socket (objects w proxy_connection), w));
        connection ← new_connection origin socket;
        _ ← _add_to_pool connection timeout;
        mret connection
    | Some connection => mret connection
    end;
  '(status_code, headers, stream, ext) ←
    conn_request connection method url headers stream ext;
  mret (status_code, headers, ResponseByteStream.mk stream connection, ext).

Definition request (method : bytes) (url : URL) (headers : option Headers)
    (stream : option nat) (ext : option Ext)
    : M (Z * Headers * ResponseByteStream.t * Ext) :=
  keepalive_expiry ← attribute _keepalive_expiry;
  _ ← (if bool_decide (is_Some keepalive_expiry) then lift _keepalive_sweep
       else mret tt);
  if bool_decide (proxy_mode self = DEFAULT) && bool_decide (url_scheme url = "http")
     || bool_decide (proxy_mode self = FORWARD_ONLY)
  then _forward_request method url headers stream ext
  else _tunnel_request method url headers stream ext.

End Proxy.
End SyncHTTPProxy.

(** ** Immutable origins

    The spec has a connection's [origin] immutable after construction: a
    collaborator's method keeps the origin of every object of the store. *)
Definition keeps_origins {A}
    (f : (handle → Conn.t) → Outcome A * (handle → Conn.t)) : Prop :=
  ∀ store c, Conn.origin ((f store).2 c) = Conn.origin (store c).

Definition collaborators_keep_origins {collaborators : Collaborators} : Prop :=
  (∀ c m u h s x, keeps_origins (connection_request c m u h s x)) ∧
  (∀ c host t, keeps_origins (start_tls c host t)) ∧
  (∀ s, keeps_origins (read_stream s)) ∧
  (∀ s, keeps_origins (stream_close s)).

(** A method that keeps the invariants (when the collaborators keep the
    origins), the sets of the map and the allocator. *)
Definition frames {collaborators : Collaborators} {A} (m : M A) : Prop :=
  ∀ w, (collaborators_keep_origins → pool_ok w → pool_ok (m w).2) ∧
       (∀ o, bucket (m w).2 o = bucket w o) ∧
       next_handle (m w).2 = next_handle w.

(** ** The errors of URL validation *)

(** [url_error e]: [e] is an [UnsupportedProtocol] or a
    [LocalProtocolError], the two errors with which the pool's [request]
    rejects a URL. *)
Definition url_error (e : Exception) : Prop :=
  match e with
  | UnsupportedProtocol _ | LocalProtocolError _ => True
  | _ => False
  end.

(** A method that raises neither. *)
Definition raises_no_url_error {A} (m : M A) : Prop :=
  ∀ w e, (m w).1 = Raises e → ¬ url_error e.

(** * Sample worlds and collaborators

    Concrete values on which the properties below are exercised. *)

(** The enumeration of [elements] is one iteration order. *)
Definition elements_iteration : SetIteration :=
  {| set_iter := elements; set_iter_perm := λ s, Permutation_refl (elements s) |}.

(** Collaborators for the samples: [url_to_origin] fills in the port 80 or
    443 and fails on any other scheme without port; a connection answers
    [CONNECT] as [connect] says and any other request with status 200; the
    TLS upgrade ends as [tls] says. *)
Definition sample_collaborators (connect : Outcome Z) (tls : Outcome unit)
    : Collaborators := {|
  url_to_origin := λ url,
    match url_port url with
    | Some port => Returns (url_scheme url, url_host url, port)
    | None =>
        if bool_decide (url_scheme url = "http")
        then Returns (url_scheme url, url_host url, 80)
        else if bool_decide (url_scheme url = "https")
        then Returns (url_scheme url, url_host url, 443)
        else Raises (OtherException "KeyError" (url_scheme url))
    end;
  connection_request := λ c method url headers stream ext store,
    if bool_decide (method = "CONNECT") then
      match connect with
      | Returns status => (Returns (status, [], 7%nat, ∅), store)
      | Raises e => (Raises e, store)
      | Blocks => (Blocks, store)
      | OutOfFuel => (OutOfFuel, store)
      end
    else (Returns (200, [], 8%nat, ∅), <[c := Conn.set_state ACTIVE (store c)]> store);
  start_tls := λ c host timeout store, (tls, store);
  read_stream := λ s store, (Returns tt, store);
  stream_close := λ s store, (Returns tt, store);
  HTTPStatus_phrase := λ n,
    if n =? 200 then Some "OK" else if n =? 403 then Some "Forbidden" else None;
  py_repr := λ s, "'" +:+ s +:+ "'";
|}.

Definition origin_a : Origin := ("http", "a.test", 80).
Definition origin_b : Origin := ("https", "b.test", 443).

(** Connection 1 is idle and has expired, 2 is idle with a readable socket,
    3 is pending, all three on [origin_a]; 4 is active on HTTP/2 on
    [origin_b]. *)
Definition sample_objects (c : handle) : Conn.t :=
  match c with
  | 1%nat => Conn.mk origin_a IDLE true false (Some 50%float) false (Some 11%nat)
  | 2%nat => Conn.mk origin_a IDLE true false None true (Some 12%nat)
  | 3%nat => Conn.mk origin_a PENDING false false None false None
  | 4%nat => Conn.mk origin_b ACTIVE false true None false (Some 14%nat)
  | _ => Conn.mk origin_b CLOSED false false None false None
  end.

Definition sample_pool : SyncConnectionPool := {|
  _max_connections := Some 10;
  _max_keepalive_connections := Some 2;
  _keepalive_expiry := Some 60%float;
  _http2 := true;
  _connections := <[origin_a := {[1%nat; 2%nat; 3%nat]}]> (<[origin_b := {[4%nat]}]> ∅);
  _internal_semaphore := Some (BackendSemaphore 10 6);
  _next_keepalive_check := 0%float;
|}.

Definition sample_world : World := {|
  objects := sample_objects;
  next_handle := 5%nat;
  pool := sample_pool;
  backend_time := 100%float;
  trace := [];
|}.

(** The same world with a keep-alive expiry of half a second. *)
Definition sample_world_short_expiry : World := {|
  objects := sample_objects;
  next_handle := 5%nat;
  pool := {|
    _max_connections := Some 10;
    _max_keepalive_connections := Some 2;
    _keepalive_expiry := Some 0.5%float;
    _http2 := true;
    _connections := _connections sample_pool;
    _internal_semaphore := Some (BackendSemaphore 10 6);
    _next_keepalive_check := 0%float;
  |};
  backend_time := 100%float;
  trace := [];
|}.

(** Collaborators whose connections refuse every request with a read
    error; the rest as in [sample_collaborators]. *)
Definition refusing_collaborators : Collaborators := {|
  url_to_origin := url_to_origin (Collaborators := sample_collaborators (Returns 200) (Returns tt));
  connection_request := λ c method url headers stream ext store,
    (Raises (OtherException "ReadError" "connection reset"), store);
  start_tls := λ c host timeout store, (Returns tt, store);
  read_stream := λ s store, (Returns tt, store);
  stream_close := λ s store, (Returns tt, store);
  HTTPStatus_phrase := λ n, None;
  py_repr := λ s, "'" +:+ s +:+ "'";
|}.

(** The enumeration of [map_to_list] is one order of a dictionary's items;
    a rendering of origins and summaries of connections for the samples. *)
Definition map_to_list_iteration : DictIteration :=
  {| dict_iter := map_to_list; dict_iter_perm := λ m, Permutation_refl (map_to_list m) |}.

Definition sample_info : InfoCollaborators := {|
  origin_to_url_string := λ origin,
    origin.1.1 +:+ "://" +:+ origin.1.2 +:+ ":" +:+ pretty origin.2;
  connection_info := λ obj,
    (if Conn.is_http2 obj then "HTTP/2" else "HTTP/1.1") +:+ ", " +:+
    match Conn.state obj with
    | PENDING => "PENDING" | ACTIVE => "ACTIVE" | READY => "READY"
    | IDLE => "IDLE" | CLOSED => "CLOSED"
    end;
|}.

(** A proxy in front of the sample pool. *)
Definition sample_proxy (mode : ProxyMode) : SyncHTTPProxy.t :=
  SyncHTTPProxy.mk ("http", "proxy.test", 8080) [("Proxy-Authorization", "Basic eA==")] mode.

(** * Properties *)

Section PoolProperties.
Context {iteration : SetIteration}.

(** ** Removing a connection *)

Lemma remove_objects c w : objects (_remove_from_pool c w) = objects w.
Proof.
  unfold _remove_from_pool, semaphore_release, _connection_semaphore.
  repeat case_bool_decide; destruct (_internal_semaphore (pool w)); reflexivity.
Qed.

Lemma remove_absent c w :
  c ∉ bucket w (Conn.origin (objects w c)) → _remove_from_pool c w = w.
Proof.
  intros H. unfold _remove_from_pool. rewrite bool_decide_eq_false_2; done.
Qed.

Lemma release_connections w :
  _connections (pool (semaphore_release w)) = _connections (pool w).
Proof.
  unfold semaphore_release, _connection_semaphore.
  destruct (_internal_semaphore (pool w)); reflexivity.
Qed.

Lemma release_trace w :
  trace (semaphore_release w) = trace w ++ [SemaphoreRelease].
Proof.
  unfold semaphore_release, _connection_semaphore.
  destruct (_internal_semaphore (pool w)); reflexivity.
Qed.

Lemma bucket_release w o : bucket (semaphore_release w) o = bucket w o.
Proof. unfold bucket. by rewrite release_connections. Qed.

Lemma bucket_set_connections m w o :
  bucket (with_pool (set_connections m) w) o = default ∅ (m !! o).
Proof. reflexivity. Qed.

Lemma remove_connections c w :
  let o := Conn.origin (objects w c) in
  c ∈ bucket w o →
  _connections (pool (_remove_from_pool c w)) =
    if decide (bucket w o ∖ {[c]} = ∅) then delete o (_connections (pool w))
    else <[o := bucket w o ∖ {[c]}]> (_connections (pool w)).
Proof.
  intros o H. unfold _remove_from_pool. fold o.
  rewrite bool_decide_eq_true_2 by done.
  rewrite bucket_set_connections, lookup_insert_eq, bucket_release. cbn.
  case_bool_decide; case_decide; try done; cbn.
  - by rewrite delete_insert_eq, release_connections.
  - by rewrite release_connections.
Qed.

Lemma remove_bucket c w o :
  bucket (_remove_from_pool c w) o =
    if decide (o = Conn.origin (objects w c)) then bucket w o ∖ {[c]} else bucket w o.
Proof.
  destruct (decide (c ∈ bucket w (Conn.origin (objects w c)))) as [Hin|Hout].
  - unfold bucket at 1. rewrite remove_connections by done.
    repeat case_decide; subst.
    + rewrite lookup_delete_eq. cbn. congruence.
    + by rewrite lookup_delete_ne.
    + by rewrite lookup_insert_eq.
    + by rewrite lookup_insert_ne.
  - rewrite remove_absent by done. case_decide; subst; set_solver.
Qed.

Lemma remove_trace c w :
  trace (_remove_from_pool c w) =
    if decide (c ∈ bucket w (Conn.origin (objects w c)))
    then trace w ++ [SemaphoreRelease] else trace w.
Proof.
  case_decide as H; [|by rewrite remove_absent].
  unfold _remove_from_pool. rewrite bool_decide_eq_true_2 by done.
  case_bool_decide; cbn; apply release_trace.
Qed.

Lemma remove_semaphore c w :
  _internal_semaphore (pool (_remove_from_pool c w)) =
    if decide (c ∈ bucket w (Conn.origin (objects w c)))
    then Some (release (_connection_semaphore w).1)
    else _internal_semaphore (pool w).
Proof.
  case_decide as H; [|by rewrite remove_absent].
  unfold _remove_from_pool. rewrite bool_decide_eq_true_2 by done.
  unfold semaphore_release, _connection_semaphore.
  case_bool_decide; destruct (_internal_semaphore (pool w)); reflexivity.
Qed.

(** C1. [_remove_from_pool c] releases the semaphore and takes [c] out of
    the set of its origin exactly when [c] is in that set, and deletes the
    origin's entry when the set becomes empty; when [c] is not in the set
    nothing changes.  A second call changes nothing more. *)
Theorem remove_from_pool_iff_present (c : handle) (w : World) :
  let o := Conn.origin (objects w c) in
  let w' := _remove_from_pool c w in
  (c ∈ bucket w o →
     trace w' = trace w ++ [SemaphoreRelease] ∧
     _internal_semaphore (pool w') = Some (release (_connection_semaphore w).1) ∧
     (c ∉ bucket w' o) ∧
     (∀ c', c' ≠ c → (c' ∈ bucket w' o ↔ c' ∈ bucket w o)) ∧
     (∀ o', o' ≠ o → _connections (pool w') !! o' = _connections (pool w) !! o') ∧
     _connections (pool w') !! o =
       (if decide (bucket w o = {[c]}) then None else Some (bucket w o ∖ {[c]}))) ∧
  (c ∉ bucket w o → w' = w) ∧
  _remove_from_pool c w' = w'.
Proof.
  intros o w'. split_and!.
  - intros Hin. subst w'.
    rewrite remove_trace, remove_semaphore, !decide_True by done.
    split_and!; try done.
    + rewrite remove_bucket, decide_True by done. set_solver.
    + intros c' Hc'. rewrite remove_bucket, decide_True by done. set_solver.
    + intros o' Ho'. rewrite remove_connections by done. fold o.
      case_decide; [by rewrite lookup_delete_ne|by rewrite lookup_insert_ne].
    + rewrite remove_connections by done. fold o.
      repeat case_decide.
      * by rewrite lookup_delete_eq.
      * exfalso. apply H0. apply set_eq. intros x. fold o in Hin.
        assert (x ∉ bucket w o ∖ {[c]}) by (rewrite H; set_solver).
        destruct (decide (x = c)); set_solver.
      * exfalso. apply H. set_solver.
      * by rewrite lookup_insert_eq.
  - apply remove_absent.
  - subst w'. apply remove_absent.
    rewrite remove_objects, remove_bucket, decide_True by done. set_solver.
Qed.

(** ** Loops of removals and of closes *)

Lemma set_iter_elem_of (s : gset nat) x : x ∈ set_iter s ↔ x ∈ s.
Proof. by rewrite (set_iter_perm s), elem_of_elements. Qed.

Lemma set_iter_NoDup (s : gset nat) : NoDup (set_iter s).
Proof. rewrite (set_iter_perm s). apply NoDup_elements. Qed.

Lemma set_iter_length (s : gset nat) : length (set_iter s) = size s.
Proof. by rewrite (set_iter_perm s). Qed.

Lemma close_loop_pool xs w : pool (for_in xs conn_close w) = pool w.
Proof. revert w. induction xs as [|x xs IH]; intros w; cbn; [done|by rewrite IH]. Qed.

Lemma close_loop_trace xs w :
  trace (for_in xs conn_close w) = trace w ++ (ConnClose <$> xs).
Proof.
  revert w. induction xs as [|x xs IH]; intros w; cbn.
  - by rewrite app_nil_r.
  - rewrite IH. cbn. by rewrite <- app_assoc.
Qed.

Lemma close_loop_objects xs w c :
  objects (for_in xs conn_close w) c =
    if decide (c ∈ xs) then Conn.set_state CLOSED (objects w c) else objects w c.
Proof.
  revert w. induction xs as [|x xs IH]; intros w; cbn.
  - rewrite decide_False; [done|set_solver].
  - rewrite IH. cbn. destruct (decide (x = c)) as [->|Hne].
    + rewrite fn_lookup_insert. rewrite (decide_True (P := c ∈ c :: xs)) by set_solver.
      by case_decide.
    + rewrite fn_lookup_insert_ne by done.
      repeat case_decide; try done; set_solver.
Qed.

Lemma remove_loop_objects xs w : objects (for_in xs _remove_from_pool w) = objects w.
Proof.
  revert w. induction xs as [|x xs IH]; intros w; cbn; [done|].
  by rewrite IH, remove_objects.
Qed.

Lemma remove_loop_bucket xs w o x :
  x ∈ bucket (for_in xs _remove_from_pool w) o ↔
  x ∈ bucket w o ∧ ¬ (x ∈ xs ∧ Conn.origin (objects w x) = o).
Proof.
  revert w. induction xs as [|y xs IH]; intros w; cbn.
  - set_solver.
  - rewrite IH, remove_objects, remove_bucket.
    case_decide; subst; rewrite ?elem_of_difference, ?elem_of_singleton, elem_of_cons;
      naive_solver.
Qed.

Lemma filter_iff_on {A} (P Q : A → Prop) `{!∀ x, Decision (P x)}
    `{!∀ x, Decision (Q x)} (l : list A) :
  (∀ x, x ∈ l → (P x ↔ Q x)) → filter P l = filter Q l.
Proof.
  induction l as [|a l IH]; intros Hl; [done|].
  rewrite !filter_cons, IH by (intros; apply Hl; set_solver).
  destruct (decide (P a)), (decide (Q a)); try done; exfalso; set_solver.
Qed.

Lemma remove_loop_trace xs w :
  NoDup xs →
  trace (for_in xs _remove_from_pool w) =
    trace w ++ replicate
      (length (filter (λ x, x ∈ bucket w (Conn.origin (objects w x))) xs))
      SemaphoreRelease.
Proof.
  revert w. induction xs as [|y xs IH]; intros w Hnd.
  - cbn. by rewrite app_nil_r.
  - apply NoDup_cons in Hnd as [Hy Hnd]. rewrite filter_cons.
    change (for_in (y :: xs) _remove_from_pool w)
      with (for_in xs _remove_from_pool (_remove_from_pool y w)).
    rewrite IH by done. rewrite remove_trace.
    assert (filter (λ x, x ∈ bucket (_remove_from_pool y w)
                       (Conn.origin (objects (_remove_from_pool y w) x))) xs =
            filter (λ x, x ∈ bucket w (Conn.origin (objects w x))) xs) as ->.
    { apply filter_iff_on. intros x Hx.
      rewrite remove_objects, remove_bucket.
      case_decide; [|done]. rewrite elem_of_difference, elem_of_singleton.
      naive_solver. }
    repeat case_decide; try done; cbn.
    by rewrite <- app_assoc.
Qed.

Lemma remove_no_empty_bucket c w :
  no_empty_bucket w → no_empty_bucket (_remove_from_pool c w).
Proof.
  intros Hne o s. destruct (decide (c ∈ bucket w (Conn.origin (objects w c)))) as [Hin|Hout].
  - rewrite remove_connections by done. case_decide as He.
    + intros [_ H]%lookup_delete_Some. by eapply Hne.
    + intros [[_ <-]|[_ H]]%lookup_insert_Some; [done|by eapply Hne].
  - rewrite remove_absent by done. apply Hne.
Qed.

Lemma remove_loop_no_empty_bucket xs w :
  no_empty_bucket w → no_empty_bucket (for_in xs _remove_from_pool w).
Proof.
  revert w. induction xs as [|y xs IH]; intros w H; cbn; [done|].
  by apply IH, remove_no_empty_bucket.
Qed.

Lemma elem_of_get_all_connections w c :
  c ∈ _get_all_connections w ↔ pooled w c.
Proof.
  unfold _get_all_connections, pooled, bucket.
  generalize (_connections (pool w)). intros m.
  apply (map_fold_weak_ind (λ r m, c ∈ r ↔ ∃ o, c ∈ default ∅ (m !! o))).
  - split; [set_solver|]. intros [o H]. by rewrite lookup_empty in H.
  - intros i s m' r Hi IH. rewrite elem_of_union, IH. split.
    + intros [[o H]|H].
      * exists o. destruct (decide (i = o)) as [->|?].
        -- by rewrite Hi in H.
        -- by rewrite lookup_insert_ne.
      * exists i. by rewrite lookup_insert_eq.
    + intros [o H]. destruct (decide (i = o)) as [->|?].
      * rewrite lookup_insert_eq in H. by right.
      * rewrite lookup_insert_ne in H by done. left; eauto.
Qed.


Lemma semaphore_after_remove c w :
  (_connection_semaphore (_remove_from_pool c w)).1 =
    if decide (c ∈ bucket w (Conn.origin (objects w c)))
    then release (_connection_semaphore w).1
    else (_connection_semaphore w).1.
Proof.
  case_decide as H; [|by rewrite remove_absent].
  unfold _connection_semaphore at 1. by rewrite remove_semaphore, decide_True.
Qed.

Lemma remove_loop_semaphore xs w :
  NoDup xs →
  (_connection_semaphore (for_in xs _remove_from_pool w)).1 =
    Nat.iter (length (filter (λ x, x ∈ bucket w (Conn.origin (objects w x))) xs))
             release (_connection_semaphore w).1.
Proof.
  revert w. induction xs as [|y xs IH]; intros w Hnd; [done|].
  apply NoDup_cons in Hnd as [Hy Hnd]. rewrite filter_cons.
  change (for_in (y :: xs) _remove_from_pool w)
    with (for_in xs _remove_from_pool (_remove_from_pool y w)).
  rewrite IH by done. rewrite semaphore_after_remove.
  assert (filter (λ x, x ∈ bucket (_remove_from_pool y w)
                     (Conn.origin (objects (_remove_from_pool y w) x))) xs =
          filter (λ x, x ∈ bucket w (Conn.origin (objects w x))) xs) as ->.
  { apply filter_iff_on. intros x Hx.
    rewrite remove_objects, remove_bucket.
    case_decide; [|done]. rewrite elem_of_difference, elem_of_singleton.
    naive_solver. }
  repeat case_decide; try done; cbn [length].
  by rewrite Nat.iter_succ_r.
Qed.

Lemma iter_release_backend n m v :
  Nat.iter n release (BackendSemaphore m v) = BackendSemaphore m (v + Z.of_nat n).
Proof.
  induction n as [|n IH].
  - cbn. by rewrite Z.add_0_r.
  - rewrite Nat.iter_succ, IH. cbn [release]. f_equal. lia.
Qed.

Lemma filter_all {A} (P : A → Prop) `{!∀ x, Decision (P x)} (l : list A) :
  (∀ x, x ∈ l → P x) → filter P l = l.
Proof.
  induction l as [|a l IH]; intros Hl; [done|].
  rewrite filter_cons, decide_True, IH; [done| |]; intros; apply Hl; set_solver.
Qed.

(** ** Shutting the pool down *)

(** C6. On a pool that files every connection under its own origin and
    holds no empty set, [close()] first removes every pooled connection,
    releasing the semaphore once for each and leaving the map empty, and only
    then calls [close()] on each of them. *)
Theorem close_removes_all_then_closes (w : World) :
  filed_by_origin w → no_empty_bucket w →
  let connections := _get_all_connections w in
  let n := size connections in
  let removed := for_in (set_iter connections) _remove_from_pool w in
  let w' := close w in
  _connections (pool w') = ∅ ∧
  trace w' = trace w ++ replicate n SemaphoreRelease
                     ++ (ConnClose <$> set_iter connections) ∧
  (_connection_semaphore w').1 = Nat.iter n release (_connection_semaphore w).1 ∧
  (∀ c, pooled w c →
        ConnClose c ∈ (ConnClose <$> set_iter connections) ∧
        Conn.state (objects w' c) = CLOSED) ∧
  _connections (pool removed) = ∅ ∧
  trace removed = trace w ++ replicate n SemaphoreRelease ∧
  w' = for_in (set_iter connections) conn_close removed.
Proof.
  intros HI1 HI3 connections n removed w'.
  assert (filter (λ x, x ∈ bucket w (Conn.origin (objects w x))) (set_iter connections)
          = set_iter connections) as Hall.
  { apply filter_all. intros x Hx%set_iter_elem_of%elem_of_get_all_connections.
    destruct Hx as [o Ho]. by rewrite (HI1 _ _ Ho). }
  assert (_connections (pool removed) = ∅) as Hempty.
  { apply map_empty. intros o.
    destruct (_connections (pool removed) !! o) as [s|] eqn:Hs; [exfalso|done].
    assert (s ≠ ∅) as Hne by (eapply remove_loop_no_empty_bucket; eauto).
    apply set_choose_L in Hne as [x Hx].
    assert (x ∈ bucket removed o) as Hb by (unfold bucket; by rewrite Hs).
    apply remove_loop_bucket in Hb as [Hb Hnot]. apply Hnot. split.
    - apply set_iter_elem_of, elem_of_get_all_connections. by exists o.
    - by apply HI1. }
  assert (trace removed = trace w ++ replicate n SemaphoreRelease) as Htr.
  { subst removed. rewrite remove_loop_trace by apply set_iter_NoDup.
    by rewrite Hall, set_iter_length. }
  assert (w' = for_in (set_iter connections) conn_close removed) as Hw' by done.
  split_and!; try done.
  - by rewrite Hw', close_loop_pool.
  - by rewrite Hw', close_loop_trace, Htr, <- app_assoc.
  - rewrite Hw'. unfold _connection_semaphore at 1. rewrite close_loop_pool.
    fold (_connection_semaphore removed). unfold _connection_semaphore at 1.
    transitivity ((_connection_semaphore removed).1).
    { unfold _connection_semaphore. by destruct (_internal_semaphore (pool removed)). }
    subst removed. rewrite remove_loop_semaphore by apply set_iter_NoDup.
    by rewrite Hall, set_iter_length.
  - intros c Hc. apply elem_of_get_all_connections, set_iter_elem_of in Hc.
    split; [by apply list_elem_of_fmap_2|].
    by rewrite Hw', close_loop_objects, decide_True.
Qed.


(** ** The response-closed callback *)

(** C2. [_response_closed c] removes [c] from the pool when [c] is [CLOSED];
    when [c] is [IDLE] and the number of pooled connections, whatever their
    state, is strictly greater than [max_keepalive_connections], it removes
    [c] and then closes it; otherwise, when [c] is [IDLE] and
    [keepalive_expiry] is set, it sets [c.expires_at] to the clock's reading
    plus [keepalive_expiry] and leaves the map as it was. *)
Theorem response_closed_cases (c : handle) (w : World) :
  let st := Conn.state (objects w c) in
  let num_connections := Z.of_nat (size (_get_all_connections w)) in
  let w' := _response_closed c w in
  (∀ x, x ∈ _get_all_connections w ↔ pooled w x) ∧
  (st = CLOSED →
     w' = _remove_from_pool c w ∧ c ∉ bucket w' (Conn.origin (objects w c))) ∧
  (st = IDLE →
   ∀ m, _max_keepalive_connections (pool w) = Some m → m < num_connections →
     w' = conn_close c (_remove_from_pool c w) ∧
     (c ∉ bucket w' (Conn.origin (objects w c))) ∧
     Conn.state (objects w' c) = CLOSED) ∧
  (st = IDLE →
   (∀ m, _max_keepalive_connections (pool w) = Some m → num_connections ≤ m) →
   ∀ ke, _keepalive_expiry (pool w) = Some ke →
     w' = set_expires_at c (Some (PrimFloat.add (backend_time w) ke)) w ∧
     Conn.expires_at (objects w' c) = Some (PrimFloat.add (backend_time w) ke) ∧
     _connections (pool w') = _connections (pool w)).
Proof.
  intros st num_connections w'. split_and!.
  - apply elem_of_get_all_connections.
  - intros Hst. assert (w' = _remove_from_pool c w) as ->.
    { subst w'. unfold _response_closed. fold st. by rewrite Hst. }
    split; [done|]. rewrite remove_bucket, decide_True by done. set_solver.
  - intros Hst m Hm Hlt. assert (w' = conn_close c (_remove_from_pool c w)) as ->.
    { subst w'. unfold _response_closed. fold st. rewrite Hst, Hm. cbn.
      fold num_connections. by rewrite (proj2 (Z.ltb_lt _ _) Hlt). }
    split_and!; [done| |].
    + change (bucket (conn_close c (_remove_from_pool c w)))
        with (bucket (_remove_from_pool c w)).
      rewrite remove_bucket, decide_True by done. set_solver.
    + cbn. by rewrite fn_lookup_insert.
  - intros Hst Hmax ke Hke.
    assert (w' = set_expires_at c (Some (PrimFloat.add (backend_time w) ke)) w) as ->.
    { subst w'. unfold _response_closed. fold st. rewrite Hst, Hke. cbn.
      fold num_connections.
      destruct (_max_keepalive_connections (pool w)) as [m|]; [|done].
      rewrite (proj2 (Z.ltb_ge _ _)); [done|]. by apply Hmax. }
    split_and!; [done| |done]. cbn. by rewrite fn_lookup_insert.
Qed.

(** ** The keep-alive sweep *)

Lemma expired_spec now obj :
  expired now obj = true ↔
  Conn.state obj = IDLE ∧ ∃ e, Conn.expires_at obj = Some e ∧ PrimFloat.leb e now = true.
Proof.
  unfold expired. rewrite andb_true_iff, bool_decide_eq_true.
  destruct (Conn.expires_at obj); naive_solver.
Qed.

Lemma sweep_loop now xs acc w :
  for_in xs (sweep_body now) (acc, w) =
    (acc ∪ list_to_set (filter (λ x, expired now (objects w x) = true) xs),
     for_in (filter (λ x, expired now (objects w x) = true) xs) _remove_from_pool w).
Proof.
  revert acc w. induction xs as [|x xs IH]; intros acc w.
  - cbn. f_equal. set_solver.
  - rewrite filter_cons.
    change (for_in (x :: xs) (sweep_body now) (acc, w))
      with (for_in xs (sweep_body now) (sweep_body now x (acc, w))).
    unfold sweep_body at 2. case_decide as He.
    + rewrite He, IH, remove_objects. f_equal. set_solver.
    + apply not_true_is_false in He. rewrite He, IH. done.
Qed.

Lemma remove_next_keepalive_check c w :
  _next_keepalive_check (pool (_remove_from_pool c w)) = _next_keepalive_check (pool w).
Proof.
  unfold _remove_from_pool, semaphore_release, _connection_semaphore.
  repeat case_bool_decide; destruct (_internal_semaphore (pool w)); reflexivity.
Qed.

Lemma remove_loop_next_keepalive_check xs w :
  _next_keepalive_check (pool (for_in xs _remove_from_pool w)) =
  _next_keepalive_check (pool w).
Proof.
  revert w. induction xs as [|x xs IH]; intros w; cbn; [done|].
  by rewrite IH, remove_next_keepalive_check.
Qed.


(** C4. [_keepalive_sweep] changes nothing when [keepalive_expiry] is unset
    or when the clock reads less than [next_keepalive_check].  Otherwise it
    sets [next_keepalive_check] to the reading plus
    [min(1.0, keepalive_expiry)]: plus the expiry when that is less than one
    second, plus one second when it is not.  Every pooled connection that is
    [IDLE], has an [expires_at] and has reached it is removed from the pool
    and closed, each once; every other connection keeps its attributes and
    its place in the map. *)
Theorem keepalive_sweep_cases (w : World) :
  let now := backend_time w in
  let w' := _keepalive_sweep w in
  let due := λ c : handle,
    pooled w c ∧ Conn.state (objects w c) = IDLE ∧
    ∃ e, Conn.expires_at (objects w c) = Some e ∧ PrimFloat.leb e now = true in
  (_keepalive_expiry (pool w) = None → w' = w) ∧
  (PrimFloat.ltb now (_next_keepalive_check (pool w)) = true → w' = w) ∧
  (∀ ke, _keepalive_expiry (pool w) = Some ke →
     PrimFloat.ltb now (_next_keepalive_check (pool w)) = false →
     filed_by_origin w →
     (PrimFloat.ltb ke 1%float = true →
        _next_keepalive_check (pool w') = PrimFloat.add now ke) ∧
     (PrimFloat.ltb ke 1%float = false →
        _next_keepalive_check (pool w') = PrimFloat.add now 1%float) ∧
     (∀ c, due c → ¬ pooled w' c ∧ Conn.state (objects w' c) = CLOSED) ∧
     (∀ c, ¬ due c →
        objects w' c = objects w c ∧ ∀ o, c ∈ bucket w' o ↔ c ∈ bucket w o) ∧
     ∃ closed,
       NoDup closed ∧
       (∀ c, c ∈ closed ↔ due c) ∧
       trace w' = trace w ++ replicate (length closed) SemaphoreRelease
                          ++ (ConnClose <$> closed)).
Proof.
  intros now w' due. split_and!.
  - intros H. subst w'. unfold _keepalive_sweep. by rewrite H.
  - intros H. subst w'. unfold _keepalive_sweep. fold now. rewrite H.
    by destruct (_keepalive_expiry (pool w)).
  - intros ke Hke Hlt HI1.
    set (w1 := with_pool (set_next_keepalive_check
                 (PrimFloat.add now (py_min 1%float ke))) w).
    set (E := λ x : nat, expired now (objects w x) = true).
    set (xs := filter E (set_iter (_get_all_connections w))).
    set (w2 := for_in xs _remove_from_pool w1).
    set (tc := (∅ ∪ list_to_set xs : gset nat)).
    assert (w' = for_in (set_iter tc) conn_close w2) as Hw'.
    { subst w'. unfold _keepalive_sweep. fold now. rewrite Hke, Hlt.
      fold w1. change (_get_all_connections w1) with (_get_all_connections w).
      rewrite sweep_loop. done. }
    assert (NoDup xs) as Hnd by apply NoDup_filter, set_iter_NoDup.
    assert (∀ c, c ∈ tc ↔ pooled w c ∧ expired now (objects w c) = true) as Htc.
    { intros c. subst tc xs. rewrite elem_of_union, elem_of_list_to_set,
        list_elem_of_filter, set_iter_elem_of, elem_of_get_all_connections.
      set_solver. }
    assert (∀ c, c ∈ tc ↔ due c) as Hdue.
    { intros c. rewrite Htc. unfold due. by rewrite expired_spec. }
    assert (_next_keepalive_check (pool w')
            = PrimFloat.add now (py_min 1%float ke)) as Hnext.
    { rewrite Hw', close_loop_pool. subst w2.
      by rewrite remove_loop_next_keepalive_check. }
    assert (∀ c o, c ∈ bucket w' o ↔ c ∈ bucket w o ∧ c ∉ tc) as Hbucket.
    { intros c o. rewrite Hw'. unfold bucket at 1. rewrite close_loop_pool.
      fold (bucket w2 o). subst w2. rewrite remove_loop_bucket.
      change (bucket w1 o) with (bucket w o). change (objects w1) with (objects w).
      rewrite Htc. subst xs. rewrite list_elem_of_filter, set_iter_elem_of,
        elem_of_get_all_connections. unfold E. split.
      - intros [Hb Hn]. split; [done|]. intros [Hp He]. apply Hn. split; [done|].
        by apply HI1.
      - intros [Hb Hn]. split; [done|]. intros [[He Hp] _]. by apply Hn. }
    split_and!.
    + intros Hke1. rewrite Hnext. unfold py_min. by rewrite Hke1.
    + intros Hke1. rewrite Hnext. unfold py_min. by rewrite Hke1.
    + intros c Hc%Hdue.
      split.
      * intros [o Ho]. apply Hbucket in Ho. tauto.
      * rewrite Hw', close_loop_objects, decide_True; [done|].
        by apply set_iter_elem_of.
    + intros c Hc. rewrite <- Hdue in Hc. split.
      * rewrite Hw', close_loop_objects, decide_False.
        -- subst w2. by rewrite remove_loop_objects.
        -- by rewrite set_iter_elem_of.
      * intros o. rewrite Hbucket. tauto.
    + exists (set_iter tc).
      assert (set_iter tc ≡ₚ xs) as Hperm.
      { rewrite (set_iter_perm tc). subst tc. rewrite (left_id_L ∅ (∪)).
        by apply elements_list_to_set. }
      split_and!.
      * apply set_iter_NoDup.
      * intros c. by rewrite set_iter_elem_of.
      * rewrite Hw', close_loop_trace. subst w2.
        rewrite remove_loop_trace by done. rewrite filter_all.
        -- by rewrite <- app_assoc, (Permutation_length Hperm).
        -- intros x Hx. subst xs.
           apply list_elem_of_filter in Hx as [_ Hx].
           apply set_iter_elem_of, elem_of_get_all_connections in Hx as [o Ho].
           change (objects w1) with (objects w). change (bucket w1) with (bucket w).
           by rewrite (HI1 _ _ Ho).
Qed.


(** ** Selecting a connection to reuse *)

Lemma last_or_cons {A} (d : option A) x l : last_or d (x :: l) = last_or (Some x) l.
Proof. unfold last_or. rewrite last_cons. by destruct (last l). Qed.

Lemma scan_body_eq x s w :
  scan_body x (s, w) =
    let obj := objects w x in
    (mkScan (seen_http11 s || Conn.is_http11 obj)
            (if is_pending obj then Some x else pending_connection s)
            (if reusable obj then Some x else reuse_connection s)
            (if dropped obj then connections_to_close s ∪ {[x]}
             else connections_to_close s),
     if dropped obj then _remove_from_pool x w else w).
Proof.
  unfold scan_body, dropped, reusable, is_pending. destruct s as [seen pend reuse tc].
  destruct (objects w x) as [o st h11 h2 e rd sk]. cbn.
  destruct h11, st, rd, h2; cbn; rewrite ?orb_true_r, ?orb_false_r; reflexivity.
Qed.

Lemma scan_loop xs s w :
  for_in xs scan_body (s, w) =
    (mkScan (seen_http11 s || existsb (λ x, Conn.is_http11 (objects w x)) xs)
            (last_or (pending_connection s)
                     (filter (λ x, is_pending (objects w x) = true) xs))
            (last_or (reuse_connection s)
                     (filter (λ x, reusable (objects w x) = true) xs))
            (connections_to_close s ∪
               list_to_set (filter (λ x, dropped (objects w x) = true) xs)),
     for_in (filter (λ x, dropped (objects w x) = true) xs) _remove_from_pool w).
Proof.
  revert s w. induction xs as [|x xs IH]; intros [seen pend reuse tc] w.
  - cbn. rewrite orb_false_r. f_equal. f_equal. set_solver.
  - change (for_in (x :: xs) scan_body (mkScan seen pend reuse tc, w))
      with (for_in xs scan_body (scan_body x (mkScan seen pend reuse tc, w))).
    rewrite scan_body_eq, IH, !filter_cons.
    cbn [existsb seen_http11 pending_connection reuse_connection connections_to_close].
    assert (objects (if dropped (objects w x) then _remove_from_pool x w else w)
            = objects w) as ->.
    { destruct (dropped (objects w x)); [apply remove_objects|done]. }
    rewrite orb_assoc.
    destruct (is_pending (objects w x)), (reusable (objects w x)),
             (dropped (objects w x)); cbn;
      repeat case_decide; try done;
      rewrite ?last_or_cons; f_equal; f_equal; try done; set_solver.
Qed.


Lemma remove_http2 c w : _http2 (pool (_remove_from_pool c w)) = _http2 (pool w).
Proof.
  unfold _remove_from_pool, semaphore_release, _connection_semaphore.
  repeat case_bool_decide; destruct (_internal_semaphore (pool w)); reflexivity.
Qed.

Lemma remove_loop_http2 xs w :
  _http2 (pool (for_in xs _remove_from_pool w)) = _http2 (pool w).
Proof.
  revert w. induction xs as [|x xs IH]; intros w; cbn; [done|].
  by rewrite IH, remove_http2.
Qed.

Lemma get_connection_unfold origin w :
  let xs := set_iter (bucket w origin) in
  let ds := filter (λ x, dropped (objects w x) = true) xs in
  let ps := filter (λ x, is_pending (objects w x) = true) xs in
  let w2 := for_in ds _remove_from_pool w in
  let tc : gset nat := ∅ ∪ list_to_set ds in
  _get_connection_from_pool origin w =
    match last (filter (λ x, reusable (objects w x) = true) xs) with
    | Some c =>
        (Some c,
         for_in (set_iter tc) conn_close (set_expires_at c None (mark_as_ready c w2)))
    | None =>
        if _http2 (pool w) && bool_decide (is_Some (last ps))
           && negb (existsb (λ x, Conn.is_http11 (objects w x)) xs)
        then (last ps, for_in (set_iter tc) conn_close w2)
        else (None, for_in (set_iter tc) conn_close w2)
    end.
Proof.
  intros xs ds ps w2 tc. unfold _get_connection_from_pool, _connections_for_origin.
  fold xs. rewrite scan_loop. fold ds ps w2.
  cbn [seen_http11 pending_connection reuse_connection connections_to_close].
  fold tc. unfold last_or.
  destruct (last (filter _ xs)) as [r|]; [done|].
  subst w2. rewrite remove_loop_http2. cbn [orb].
  destruct (last ps); cbn; repeat case_match; simplify_eq; done.
Qed.

Lemma reusable_spec obj :
  reusable obj = true ↔
  (Conn.state obj = IDLE ∧ Conn.socket_readable obj = false) ∨
  (Conn.state obj = ACTIVE ∧ Conn.is_http2 obj = true).
Proof.
  unfold reusable. case_bool_decide as H.
  - rewrite negb_true_iff. split; [by left|]. intros [[_ ?]|[? _]]; [done|congruence].
  - rewrite andb_true_iff, bool_decide_eq_true. naive_solver.
Qed.

Lemma dropped_spec obj :
  dropped obj = true ↔ Conn.state obj = IDLE ∧ Conn.socket_readable obj = true.
Proof. unfold dropped. by rewrite andb_true_iff, bool_decide_eq_true. Qed.

Lemma is_pending_spec obj : is_pending obj = true ↔ Conn.state obj = PENDING.
Proof. unfold is_pending. by rewrite bool_decide_eq_true. Qed.

Lemma reusable_not_dropped obj : reusable obj = true → dropped obj ≠ true.
Proof. rewrite reusable_spec, dropped_spec. intros [[? ?]|[? ?]] [? ?]; congruence. Qed.

Lemma pending_not_dropped obj : is_pending obj = true → dropped obj ≠ true.
Proof. rewrite is_pending_spec, dropped_spec. intros ? [? ?]. congruence. Qed.

Lemma last_filter_elem {A} (P : A → Prop) `{!∀ x, Decision (P x)} (l : list A) x :
  last (filter P l) = Some x → x ∈ l ∧ P x.
Proof. intros Hl%last_Some_elem_of. by apply list_elem_of_filter in Hl as [? ?]. Qed.

Lemma last_filter_None {A} (P : A → Prop) `{!∀ x, Decision (P x)} (l : list A) :
  last (filter P l) = None ↔ ∀ x, x ∈ l → ¬ P x.
Proof.
  rewrite last_None. split.
  - intros Hl x Hx HP. eapply filter_nil_not_elem_of; eauto.
  - intros Hl. induction l as [|a l IH]; [done|].
    rewrite filter_cons, decide_False by (apply Hl; set_solver).
    apply IH. intros; apply Hl; set_solver.
Qed.


Lemma existsb_elem_of {A} (f : A → bool) (l : list A) :
  existsb f l = true ↔ ∃ x, x ∈ l ∧ f x = true.
Proof.
  rewrite existsb_exists. split; intros [x [Hx Hf]]; exists x; split; try done;
    by apply list_elem_of_In.
Qed.

(** C3. When the origin's set holds a connection that can be reused (idle
    with a socket that is not readable, or active on HTTP/2),
    [_get_connection_from_pool] returns such a connection after calling
    [mark_as_ready()] on it and clearing its [expires_at]: afterwards its
    [expires_at] is [None], it is [READY] if it was [IDLE] and [ACTIVE] if
    it was [ACTIVE], and its other attributes are as before.  When the set
    holds none, a [PENDING] connection of the set is returned, as it was, if
    [http2] is enabled and no connection of the set is HTTP/1.1; in every
    other case the result is [None]. *)
Theorem get_connection_reuse_or_pending (origin : Origin) (w : World) :
  let result := (_get_connection_from_pool origin w).1 in
  let w' := (_get_connection_from_pool origin w).2 in
  let candidate := λ c : handle,
    c ∈ bucket w origin ∧
    (Conn.state (objects w c) = IDLE ∧ Conn.socket_readable (objects w c) = false ∨
     Conn.state (objects w c) = ACTIVE ∧ Conn.is_http2 (objects w c) = true) in
  let pending := λ c : handle,
    c ∈ bucket w origin ∧ Conn.state (objects w c) = PENDING in
  let http11_seen :=
    ∃ c, c ∈ bucket w origin ∧ Conn.is_http11 (objects w c) = true in
  ((∃ c, candidate c) →
     ∃ r k closed,
       result = Some r ∧ candidate r ∧
       Conn.expires_at (objects w' r) = None ∧
       (Conn.state (objects w r) = IDLE → Conn.state (objects w' r) = READY) ∧
       (Conn.state (objects w r) = ACTIVE → Conn.state (objects w' r) = ACTIVE) ∧
       (Conn.origin (objects w' r) = Conn.origin (objects w r) ∧
        Conn.is_http11 (objects w' r) = Conn.is_http11 (objects w r) ∧
        Conn.is_http2 (objects w' r) = Conn.is_http2 (objects w r) ∧
        Conn.socket_readable (objects w' r) = Conn.socket_readable (objects w r) ∧
        Conn.socket (objects w' r) = Conn.socket (objects w r)) ∧
       objects w' r = Conn.set_expires_at None (mark_as_ready_obj (objects w r)) ∧
       trace w' = trace w ++ replicate k SemaphoreRelease ++ [MarkAsReady r]
                          ++ (ConnClose <$> closed)) ∧
  (¬ (∃ c, candidate c) →
     (∃ k closed,
        trace w' = trace w ++ replicate k SemaphoreRelease ++ (ConnClose <$> closed)) ∧
     (_http2 (pool w) = true → (∃ c, pending c) → ¬ http11_seen →
        ∃ p, result = Some p ∧ pending p ∧ objects w' p = objects w p) ∧
     (¬ (_http2 (pool w) = true ∧ (∃ c, pending c) ∧ ¬ http11_seen) →
        result = None)).
Proof.
  intros result w' candidate pending http11_seen.
  pose proof (get_connection_unfold origin w) as Hun. cbv zeta in Hun.
  set (xs := set_iter (bucket w origin)) in *.
  set (ds := filter (λ x, dropped (objects w x) = true) xs) in *.
  set (ps := filter (λ x, is_pending (objects w x) = true) xs) in *.
  set (w2 := for_in ds _remove_from_pool w) in *.
  set (tc := (∅ ∪ list_to_set ds : gset nat)) in *.
  assert (NoDup ds) as Hnd by apply NoDup_filter, set_iter_NoDup.
  assert (∀ c, c ∈ tc → dropped (objects w c) = true) as Htc.
  { intros c. subst tc ds. rewrite elem_of_union, elem_of_list_to_set,
      list_elem_of_filter. set_solver. }
  assert (∀ c, candidate c ↔ c ∈ xs ∧ reusable (objects w c) = true) as Hcand.
  { intros c. unfold candidate. subst xs. by rewrite set_iter_elem_of, reusable_spec. }
  assert (∀ c, pending c ↔ c ∈ xs ∧ is_pending (objects w c) = true) as Hpend.
  { intros c. unfold pending. subst xs. by rewrite set_iter_elem_of, is_pending_spec. }
  assert (existsb (λ x, Conn.is_http11 (objects w x)) xs = true ↔ http11_seen) as H11.
  { rewrite existsb_elem_of. unfold http11_seen. subst xs.
    by setoid_rewrite set_iter_elem_of. }
  assert (trace w2 = trace w ++ replicate
            (length (filter (λ x, x ∈ bucket w (Conn.origin (objects w x))) ds))
            SemaphoreRelease) as Htr2
    by (subst w2; by apply remove_loop_trace).
  assert (objects w2 = objects w) as Hobj2 by apply remove_loop_objects.
  destruct (last (filter (λ x, reusable (objects w x) = true) xs)) as [r|] eqn:Hlast.
  - assert (candidate r) as Hr by (apply Hcand; by apply last_filter_elem in Hlast).
    split; [intros _|intros []; eauto].
    exists r, (length (filter (λ x, x ∈ bucket w (Conn.origin (objects w x))) ds)),
      (set_iter tc).
    subst result w'. rewrite Hun. cbn [fst snd].
    assert (objects
              (for_in (set_iter tc) conn_close
                 (set_expires_at r None (mark_as_ready r w2))) r
            = Conn.set_expires_at None (mark_as_ready_obj (objects w r))) as Hobj.
    { rewrite close_loop_objects, decide_False.
      * cbn. rewrite !fn_lookup_insert. by rewrite Hobj2.
      * intros Hin%set_iter_elem_of%Htc.
        apply Hcand in Hr as [_ Hr]. by apply reusable_not_dropped in Hr. }
    split_and!; [done|done|..|exact Hobj|].
    + by rewrite Hobj.
    + intros Hst. rewrite Hobj. unfold mark_as_ready_obj.
      by rewrite bool_decide_eq_true_2.
    + intros Hst. rewrite Hobj. unfold mark_as_ready_obj.
      rewrite bool_decide_eq_false_2; [done|]. by rewrite Hst.
    + rewrite Hobj. unfold mark_as_ready_obj. by case_bool_decide.
    + rewrite Hobj. unfold mark_as_ready_obj. by case_bool_decide.
    + rewrite Hobj. unfold mark_as_ready_obj. by case_bool_decide.
    + rewrite Hobj. unfold mark_as_ready_obj. by case_bool_decide.
    + rewrite Hobj. unfold mark_as_ready_obj. by case_bool_decide.
    + rewrite close_loop_trace. cbn [trace set_expires_at with_objects mark_as_ready log].
      by rewrite Htr2, <- !app_assoc.
  - rewrite last_filter_None in Hlast.
    split; [intros [c Hc%Hcand]; exfalso; naive_solver|intros _].
    assert (trace w' = trace w ++ replicate
              (length (filter (λ x, x ∈ bucket w (Conn.origin (objects w x))) ds))
              SemaphoreRelease ++ (ConnClose <$> set_iter tc)) as Htr.
    { subst w'. rewrite Hun.
      destruct (_ && _ && _); cbn [snd]; by rewrite close_loop_trace, Htr2, <- app_assoc. }
    split_and!; [eauto| |].
    + intros Hh2 [c Hc%Hpend] Hno11.
      destruct (last ps) as [p|] eqn:Hp.
      * assert (existsb (λ x, Conn.is_http11 (objects w x)) xs = false) as Hex
          by (apply not_true_iff_false; by rewrite H11).
        assert (pending p) as Hpp by (apply Hpend; by apply last_filter_elem in Hp).
        exists p. subst result w'. rewrite Hun, Hh2, Hex. cbn.
        split_and!; [done..|].
        rewrite close_loop_objects, decide_False; [by rewrite Hobj2|].
        intros Hin%set_iter_elem_of%Htc.
        apply Hpend in Hpp as [_ Hpp]. by apply pending_not_dropped in Hpp.
      * unfold ps in Hp. rewrite last_filter_None in Hp. naive_solver.
    + intros Hnot. subst result. rewrite Hun.
      destruct (_http2 (pool w)) eqn:Hh2; [|done].
      destruct (last ps) as [p|] eqn:Hp; cbn.
      * destruct (existsb _ xs) eqn:Hex; [done|]. exfalso. apply Hnot.
        split_and!; [done| |].
        -- exists p. apply Hpend. by apply last_filter_elem in Hp.
        -- rewrite <- H11. congruence.
      * done.
Qed.


(** C5. On a pool that files every connection under its own origin, a
    connection of the origin's set that is [IDLE] with a readable socket when
    [_get_connection_from_pool] starts is removed from the pool and closed
    by that call, and is not the connection the call returns. *)
Theorem dropped_idle_connection_evicted (origin : Origin) (w : World) (c : handle) :
  filed_by_origin w →
  c ∈ bucket w origin →
  Conn.state (objects w c) = IDLE →
  Conn.socket_readable (objects w c) = true →
  let result := (_get_connection_from_pool origin w).1 in
  let w' := (_get_connection_from_pool origin w).2 in
  result ≠ Some c ∧
  ¬ pooled w' c ∧
  Conn.state (objects w' c) = CLOSED ∧
  ∃ calls, trace w' = trace w ++ calls ∧ ConnClose c ∈ calls.
Proof.
  intros HI1 Hc Hst Hrd result w'.
  pose proof (get_connection_unfold origin w) as Hun. cbv zeta in Hun.
  set (xs := set_iter (bucket w origin)) in *.
  set (ds := filter (λ x, dropped (objects w x) = true) xs) in *.
  set (ps := filter (λ x, is_pending (objects w x) = true) xs) in *.
  set (w2 := for_in ds _remove_from_pool w) in *.
  set (tc := (∅ ∪ list_to_set ds : gset nat)) in *.
  assert (dropped (objects w c) = true) as Hd by (by apply dropped_spec).
  assert (c ∈ ds) as Hds.
  { subst ds xs. by rewrite list_elem_of_filter, set_iter_elem_of. }
  assert (c ∈ set_iter tc) as Htc.
  { apply set_iter_elem_of. subst tc. set_solver. }
  assert (¬ pooled w2 c) as Hnp.
  { intros [o Ho]. subst w2. apply remove_loop_bucket in Ho as [Ho Hn].
    apply Hn. split; [done|]. by apply HI1. }
  assert (∃ k, trace w2 = trace w ++ replicate k SemaphoreRelease) as [k Htr2].
  { eexists. subst w2. apply remove_loop_trace, NoDup_filter, set_iter_NoDup. }
  assert (∃ wm calls,
            w' = for_in (set_iter tc) conn_close wm ∧ pool wm = pool w2 ∧
            trace wm = trace w ++ calls) as (wm & calls & Hw' & Hpool & Htr).
  { subst w'. rewrite Hun.
    destruct (last (filter _ xs)) as [r|]; [|destruct (_ && _ && _)]; cbn [snd].
    - eexists _, _. split_and!; [done..|]. cbn. by rewrite Htr2, <- app_assoc.
    - by eexists _, _.
    - by eexists _, _. }
  split_and!.
  - subst result. rewrite Hun.
    destruct (last (filter _ xs)) as [r|] eqn:Hr.
    + cbn. intros [= ->]. apply last_filter_elem in Hr as [_ Hr].
      by apply reusable_not_dropped in Hr.
    + destruct (_ && _ && _); cbn; [|done].
      intros Hp. apply last_filter_elem in Hp as [_ Hp].
      by apply pending_not_dropped in Hp.
  - intros [o Ho]. apply Hnp. exists o. revert Ho.
    unfold bucket. by rewrite Hw', close_loop_pool, Hpool.
  - by rewrite Hw', close_loop_objects, decide_True.
  - exists (calls ++ (ConnClose <$> set_iter tc)). split.
    + by rewrite Hw', close_loop_trace, Htr, <- app_assoc.
    + apply elem_of_app. right. by apply list_elem_of_fmap_2.
Qed.

End PoolProperties.

(** * Properties of [http_proxy.py] *)

(** ** [merge_headers] *)

Lemma N_of_byte_lower a :
  N_of_ascii (byte_lower a) =
    let n := N_of_ascii a in
    if (65 <=? n)%N && (n <=? 90)%N then (n + 32)%N else n.
Proof.
  unfold byte_lower. cbv zeta.
  destruct ((65 <=? N_of_ascii a)%N && (N_of_ascii a <=? 90)%N) eqn:Hup; [|done].
  apply andb_true_iff in Hup as [_ H2%N.leb_le].
  apply N_ascii_embedding. lia.
Qed.

Lemma N_of_ascii_inj a b : N_of_ascii a = N_of_ascii b → a = b.
Proof.
  intros H. rewrite <- (ascii_N_embedding a), <- (ascii_N_embedding b). by rewrite H.
Qed.

Lemma same_byte_ignoring_case_spec x y :
  same_byte_ignoring_case x y = true ↔ byte_lower x = byte_lower y.
Proof.
  split.
  - intros H. apply N_of_ascii_inj. rewrite !N_of_byte_lower. cbv zeta.
    unfold same_byte_ignoring_case in H. cbv zeta in H.
    repeat (apply orb_true_iff in H as [H|H]);
      repeat (apply andb_true_iff in H as [H ?]);
      repeat match goal with
             | H : (_ <=? _)%N = true |- _ => apply N.leb_le in H
             | H : (_ =? _)%N = true |- _ => apply N.eqb_eq in H
             end;
      repeat match goal with
             | |- context [(?a <=? ?b)%N] => destruct (N.leb_spec a b)
             end; cbn [andb]; lia.
  - intros H. apply (f_equal N_of_ascii) in H. rewrite !N_of_byte_lower in H.
    cbv zeta in H. unfold same_byte_ignoring_case. cbv zeta.
    repeat match goal with
           | H : context [(?a <=? ?b)%N] |- _ => destruct (N.leb_spec a b)
           end; cbn [andb orb] in *;
      repeat match goal with
             | |- context [(?a =? ?b)%N] => destruct (N.eqb_spec a b)
             end; cbn [andb orb]; try done; lia.
Qed.

Lemma same_key_ignoring_case_spec a b :
  same_key_ignoring_case a b = true ↔ bytes_lower a = bytes_lower b.
Proof.
  revert b. induction a as [|x a IH]; intros [|y b]; cbn; try done.
  rewrite andb_true_iff, same_byte_ignoring_case_spec, IH. split.
  - by intros [-> ->].
  - by intros [= -> ->].
Qed.

Lemma filter_as_list_filter {A} (P : A → Prop) `{!∀ x, Decision (P x)}
    (f : A → bool) (l : list A) :
  (∀ x, P x ↔ f x = true) → filter P l = List.filter f l.
Proof.
  intros Hf. induction l as [|a l IH]; [done|].
  rewrite filter_cons. cbn. rewrite IH.
  destruct (f a) eqn:Ha; [rewrite decide_True|rewrite decide_False]; try done;
    rewrite Hf; congruence.
Qed.

(** C9. [merge_headers] keeps, in their order, the default entries whose key
    equals no override key up to the case of ASCII letters, and appends all
    the override entries in their order.  A missing list counts as empty. *)
Theorem merge_headers_keeps_unshadowed_defaults
    (default_headers override_headers : option Headers) :
  merge_headers default_headers override_headers =
    merge_headers_by_claim (default [] default_headers) (default [] override_headers).
Proof.
  unfold merge_headers, merge_headers_by_claim. f_equal.
  apply filter_as_list_filter. intros [k v]. cbn [fst].
  rewrite negb_true_iff, <- not_true_iff_false, existsb_elem_of.
  rewrite elem_of_list_to_set, list_elem_of_fmap.
  split; intros Hn; contradict Hn.
  - destruct Hn as ([k' v'] & Hin & Hs). apply same_key_ignoring_case_spec in Hs.
    by exists (k', v').
  - destruct Hn as ([k' v'] & Hs & Hin). exists (k', v'). split; [done|].
    by apply same_key_ignoring_case_spec.
Qed.

(** ** Requests *)

Section RequestProperties.
Context {iteration : SetIteration} {collaborators : Collaborators}.

(** C8, amended. [request] raises [UnsupportedProtocol] when the scheme is
    neither [http] nor [https], and [LocalProtocolError] when the scheme is
    one of the two and the host is empty; in both cases the world is left
    exactly as it was. *)
Theorem request_rejects_url_before_any_change
    (fuel : nat) (method : bytes) (url : URL) (headers : option Headers)
    (stream : option nat) (ext : option Ext) (w : World) :
  (url_scheme url ∉ ["http"; "https"] →
     request fuel method url headers stream ext w =
       (Raises (UnsupportedProtocol
                  ("Unsupported URL protocol " +:+ py_repr (url_scheme url))), w)) ∧
  (url_scheme url ∈ ["http"; "https"] → url_host url = "" →
     request fuel method url headers stream ext w =
       (Raises (LocalProtocolError "Missing hostname in URL."), w)).
Proof.
  split.
  - intros Hs. unfold request. by rewrite bool_decide_eq_true_2.
  - intros Hs Hh. unfold request.
    rewrite bool_decide_eq_false_2 by (by intros ?).
    by rewrite bool_decide_eq_true_2.
Qed.


(** ** The proxy's [request] *)

Lemma bind_no_url_error {A B} (m : M A) (f : A → M B) :
  raises_no_url_error m → (∀ a, raises_no_url_error (f a)) →
  raises_no_url_error (m ≫= f).
Proof.
  intros Hm Hf w e. unfold mbind, M_bind. specialize (Hm w).
  destruct (m w) as [[a|e'| |] w1]; cbn in *; try done.
  - apply Hf.
  - intros [= ->]. by apply Hm.
Qed.

Lemma mret_no_url_error {A} (a : A) : raises_no_url_error (mret a : M A).
Proof. by intros w e. Qed.

Lemma lift_no_url_error f : raises_no_url_error (lift f).
Proof. by intros w e. Qed.

Lemma lift_result_no_url_error {A} (f : World → A * World) :
  raises_no_url_error (lift_result f).
Proof. intros w e. unfold lift_result. by destruct (f w). Qed.

Lemma attribute_no_url_error {A} (f : SyncConnectionPool → A) :
  raises_no_url_error (attribute f).
Proof. by intros w e. Qed.

Lemma raise_no_url_error {A} e : ¬ url_error e → raises_no_url_error (raise e : M A).
Proof. intros He w e'. cbn. by intros [= <-]. Qed.

Lemma new_connection_no_url_error origin socket :
  raises_no_url_error (new_connection origin socket).
Proof. by intros w e. Qed.

Lemma semaphore_acquire_no_url_error timeout :
  raises_no_url_error (semaphore_acquire timeout).
Proof.
  intros w e. unfold semaphore_acquire.
  destruct (_connection_semaphore w) as [s w1].
  destruct s as [|m v]; cbn; [done|].
  destruct (0 <? v); [done|]. destruct timeout; cbn; [|done].
  intros [= <-]. cbn. tauto.
Qed.

Lemma add_to_pool_no_url_error c timeout : raises_no_url_error (_add_to_pool c timeout).
Proof.
  apply bind_no_url_error; [apply semaphore_acquire_no_url_error|].
  intros _. apply lift_no_url_error.
Qed.

Lemma try_except_no_url_error {A} (body : M A) handler :
  (∀ exc, raises_no_url_error (handler exc)) →
  raises_no_url_error (try_except body handler).
Proof.
  intros Hh w e. unfold try_except.
  destruct (body w) as [[a|e'| |] w1]; cbn; try done. apply Hh.
Qed.

Lemma conn_request_no_url_error c method url headers stream ext :
  (∀ c m u h s x store e,
     (connection_request c m u h s x store).1 = Raises e → ¬ url_error e) →
  raises_no_url_error (conn_request c method url headers stream ext).
Proof.
  intros Hc w e. unfold conn_request, call.
  specialize (Hc c method url headers stream ext (objects w) e).
  destruct (connection_request _ _ _ _ _ _ _) as [r store]. cbn in *. apply Hc.
Qed.

(** C10. The proxy's [request] sweeps when [keepalive_expiry] is set and
    then hands the request, whatever its URL, to [_forward_request] when the
    mode is [DEFAULT] and the scheme is [http] or the mode is
    [FORWARD_ONLY], and to [_tunnel_request] otherwise.  It raises no
    [UnsupportedProtocol] and no [LocalProtocolError] of its own: when
    [url_to_origin] and the connections' [request] raise neither, neither
    does the proxy's [request]. *)
Theorem proxy_request_validates_no_url
    (self : SyncHTTPProxy.t) (method : bytes) (url : URL) (headers : option Headers)
    (stream : option nat) (ext : option Ext) (w : World) :
  (∀ u e, url_to_origin u = Raises e → ¬ url_error e) →
  (∀ c m u h s x store e,
     (connection_request c m u h s x store).1 = Raises e → ¬ url_error e) →
  let swept :=
    if bool_decide (is_Some (_keepalive_expiry (pool w)))
    then _keepalive_sweep w else w in
  SyncHTTPProxy.request self method url headers stream ext w =
    (if bool_decide (SyncHTTPProxy.proxy_mode self = DEFAULT ∧ url_scheme url = "http"
                     ∨ SyncHTTPProxy.proxy_mode self = FORWARD_ONLY)
     then SyncHTTPProxy._forward_request self method url headers stream ext swept
     else SyncHTTPProxy._tunnel_request self method url headers stream ext swept) ∧
  ∀ e, (SyncHTTPProxy.request self method url headers stream ext w).1 = Raises e →
       ¬ url_error e.
Proof.
  intros Hurl Hreq swept. split.
  - unfold SyncHTTPProxy.request, mbind, M_bind, attribute, lift, mret, M_ret.
    subst swept.
    destruct (bool_decide (is_Some (_keepalive_expiry (pool w))));
      destruct (SyncHTTPProxy.proxy_mode self); cbn;
      repeat case_bool_decide; cbn; try done; exfalso; naive_solver.
  - assert (raises_no_url_error
              (SyncHTTPProxy.request self method url headers stream ext)) as Hsafe;
      [|apply Hsafe].
    unfold SyncHTTPProxy.request.
    apply bind_no_url_error; [apply attribute_no_url_error|]. intros ke.
    apply bind_no_url_error.
    { case_bool_decide; [apply lift_no_url_error|apply mret_no_url_error]. }
    intros _. destruct (_ && _ || _).
    + unfold SyncHTTPProxy._forward_request.
      apply bind_no_url_error; [apply lift_result_no_url_error|]. intros [c|].
      * apply bind_no_url_error; [apply mret_no_url_error|]. intros c'.
        destruct url as [[[scheme host] port] path].
        apply bind_no_url_error; [by apply conn_request_no_url_error|].
        intros [[[? ?] ?] ?]. apply mret_no_url_error.
      * apply bind_no_url_error.
        { apply bind_no_url_error; [apply new_connection_no_url_error|]. intros c.
          apply bind_no_url_error; [apply add_to_pool_no_url_error|]. intros _.
          apply mret_no_url_error. }
        intros c'. destruct url as [[[scheme host] port] path].
        apply bind_no_url_error; [by apply conn_request_no_url_error|].
        intros [[[? ?] ?] ?]. apply mret_no_url_error.
    + unfold SyncHTTPProxy._tunnel_request.
      apply bind_no_url_error.
      { intros w0 e. cbn. apply Hurl. }
      intros origin.
      apply bind_no_url_error; [apply lift_result_no_url_error|]. intros conn.
      apply bind_no_url_error.
      { destruct conn as [c|]; [apply mret_no_url_error|].
        destruct origin as [[scheme host] port].
        apply bind_no_url_error; [apply new_connection_no_url_error|]. intros aux.
        apply bind_no_url_error.
        { apply try_except_no_url_error. intros exc.
          apply bind_no_url_error; [apply lift_no_url_error|]. intros _.
          apply raise_no_url_error. cbn. tauto. }
        intros _.
        apply bind_no_url_error; [apply lift_result_no_url_error|]. intros socket.
        apply bind_no_url_error; [apply new_connection_no_url_error|]. intros c.
        apply bind_no_url_error; [apply add_to_pool_no_url_error|]. intros _.
        apply mret_no_url_error. }
      intros c. apply bind_no_url_error; [by apply conn_request_no_url_error|].
      intros [[[? ?] ?] ?]. apply mret_no_url_error.
Qed.


(** ** The tunnel's handshake *)

Lemma bind_unfold {A B} (m : M A) (f : A → M B) w :
  (m ≫= f) w =
    match m w with
    | (Returns a, w) => f a w
    | (Raises e, w) => (Raises e, w)
    | (Blocks, w) => (Blocks, w)
    | (OutOfFuel, w) => (OutOfFuel, w)
    end.
Proof. reflexivity. Qed.

Lemma tunnel_handshake_raises
    (self : SyncHTTPProxy.t) (method : bytes) (url : URL) (headers : option Headers)
    (stream : option nat) (ext : option Ext) (w w1 : World)
    (scheme host : bytes) (port : Z) exc w3 :
  url_to_origin url = Returns (scheme, host, port) →
  _get_connection_from_pool (scheme, host, port) w = (None, w1) →
  let ext' := default ∅ ext in
  let timeout := default ∅ (ext' !! "timeout") in
  let aux := next_handle w1 in
  let target := host +:+ ":" +:+ pretty port in
  SyncHTTPProxy.connect_handshake aux (SyncHTTPProxy.proxy_url self target)
    (merge_headers (Some [("Host", target); ("Accept", "*/*")])
                   (Some (SyncHTTPProxy.proxy_headers self)))
    ext' scheme host timeout (new_connection (SyncHTTPProxy.proxy_origin self) None w1).2
    = (Raises exc, w3) →
  SyncHTTPProxy._tunnel_request self method url headers stream ext w =
    (Raises (ProxyError (Cause exc)), conn_close aux w3).
Proof.
  intros Hurl Hget ext' timeout aux target Hhs.
  unfold SyncHTTPProxy._tunnel_request. fold ext'. cbv zeta.
  rewrite bind_unfold. unfold lift_outcome at 1. rewrite Hurl.
  rewrite bind_unfold. unfold lift_result at 1. rewrite Hget.
  rewrite bind_unfold. rewrite bind_unfold.
  change (new_connection (SyncHTTPProxy.proxy_origin self) None w1)
    with (Returns aux, (new_connection (SyncHTTPProxy.proxy_origin self) None w1).2).
  cbv iota beta. rewrite bind_unfold. unfold try_except at 1.
  fold target. fold timeout. rewrite Hhs.
  reflexivity.
Qed.


Lemma handshake_bad_status aux connect_url connect_headers ext scheme host timeout
    w status hs body ex store store' u :
  connection_request aux "CONNECT" connect_url (Some connect_headers) None ext (objects w)
    = (Returns (status, hs, body, ex), store) →
  read_stream body store = (Returns u, store') →
  status < 200 ∨ 299 < status →
  ∃ w3,
    SyncHTTPProxy.connect_handshake aux connect_url connect_headers ext scheme host
      timeout w =
    (Raises (ProxyError (Message
       (pretty status +:+ " " +:+ SyncHTTPProxy.get_reason_phrase status))), w3).
Proof.
  intros Hreq Hread Hst. unfold SyncHTTPProxy.connect_handshake.
  rewrite bind_unfold. unfold conn_request, call at 1. rewrite Hreq.
  rewrite bind_unfold. unfold call at 1. cbn [objects with_objects log]. rewrite Hread.
  assert ((status <? 200) || (299 <? status) = true) as ->.
  { apply orb_true_iff. destruct Hst; [left|right]; by apply Z.ltb_lt. }
  by eexists.
Qed.

Lemma handshake_tls_failure aux connect_url connect_headers ext host timeout
    w status hs body ex store store' u exc store'' :
  connection_request aux "CONNECT" connect_url (Some connect_headers) None ext (objects w)
    = (Returns (status, hs, body, ex), store) →
  read_stream body store = (Returns u, store') →
  200 ≤ status ≤ 299 →
  start_tls aux host timeout store' = (Raises exc, store'') →
  ∃ w3,
    SyncHTTPProxy.connect_handshake aux connect_url connect_headers ext "https" host
      timeout w = (Raises exc, w3).
Proof.
  intros Hreq Hread Hst Htls. unfold SyncHTTPProxy.connect_handshake.
  rewrite bind_unfold. unfold conn_request, call at 1. rewrite Hreq.
  rewrite bind_unfold. unfold call at 1. cbn [objects with_objects log]. rewrite Hread.
  assert ((status <? 200) || (299 <? status) = false) as ->.
  { apply orb_false_iff. split; apply Z.ltb_ge; lia. }
  rewrite bool_decide_eq_true_2 by done.
  unfold call. cbn [objects with_objects log]. rewrite Htls. by eexists.
Qed.

(** C7. In [_tunnel_request], when the pool has no connection for the
    target origin: any exception [exc] raised by the handshake (the
    [CONNECT] request, reading its response, the status check, the TLS
    upgrade) ends the call with [ProxyError(exc)], after [close()] was
    called on the auxiliary connection.  A [CONNECT] status outside
    [200, 299] is such a case: the error raised wraps the
    [ProxyError] whose message is the status and its reason phrase, and reads
    as that message.  A failure of the TLS upgrade is another. *)
Theorem tunnel_connect_failure_closes_and_wraps
    (self : SyncHTTPProxy.t) (method : bytes) (url : URL) (headers : option Headers)
    (stream : option nat) (ext : option Ext) (w w1 : World)
    (scheme host : bytes) (port : Z) :
  url_to_origin url = Returns (scheme, host, port) →
  _get_connection_from_pool (scheme, host, port) w = (None, w1) →
  let ext' := default ∅ ext in
  let timeout := default ∅ (ext' !! "timeout") in
  let aux := next_handle w1 in
  let target := host +:+ ":" +:+ pretty port in
  let connect_url := SyncHTTPProxy.proxy_url self target in
  let connect_headers :=
    merge_headers (Some [("Host", target); ("Accept", "*/*")])
                  (Some (SyncHTTPProxy.proxy_headers self)) in
  let created := (new_connection (SyncHTTPProxy.proxy_origin self) None w1).2 in
  let handshake :=
    SyncHTTPProxy.connect_handshake aux connect_url connect_headers ext' scheme host
      timeout in
  let result := SyncHTTPProxy._tunnel_request self method url headers stream ext w in
  let aux_closed :=
    Conn.state (objects result.2 aux) = CLOSED ∧
    last (trace result.2) = Some (ConnClose aux) in
  (∀ exc w3, handshake created = (Raises exc, w3) →
     result = (Raises (ProxyError (Cause exc)), conn_close aux w3) ∧ aux_closed) ∧
  (∀ status hs body ex store store' u,
     connection_request aux "CONNECT" connect_url (Some connect_headers) None ext'
       (objects created) = (Returns (status, hs, body, ex), store) →
     read_stream body store = (Returns u, store') →
     status < 200 ∨ 299 < status →
     let msg := pretty status +:+ " " +:+ SyncHTTPProxy.get_reason_phrase status in
     result.1 = Raises (ProxyError (Cause (ProxyError (Message msg)))) ∧
     exc_str (ProxyError (Cause (ProxyError (Message msg)))) = msg ∧
     aux_closed) ∧
  (∀ status hs body ex store store' u exc store'',
     connection_request aux "CONNECT" connect_url (Some connect_headers) None ext'
       (objects created) = (Returns (status, hs, body, ex), store) →
     read_stream body store = (Returns u, store') →
     200 ≤ status ≤ 299 →
     scheme = "https" →
     start_tls aux host timeout store' = (Raises exc, store'') →
     result.1 = Raises (ProxyError (Cause exc)) ∧ aux_closed).
Proof.
  intros Hurl Hget ext' timeout aux target connect_url connect_headers created
    handshake result aux_closed.
  assert (∀ exc w3, handshake created = (Raises exc, w3) →
            result = (Raises (ProxyError (Cause exc)), conn_close aux w3) ∧ aux_closed)
    as Hany.
  { intros exc w3 Hhs.
    assert (result = (Raises (ProxyError (Cause exc)), conn_close aux w3)) as Hres
      by (by eapply tunnel_handshake_raises).
    split; [done|]. unfold aux_closed. rewrite Hres. cbn. split.
    - by rewrite fn_lookup_insert.
    - apply last_snoc. }
  split_and!; [done| |].
  - intros status hs body ex store store' u Hreq Hread Hst msg.
    destruct (handshake_bad_status aux connect_url connect_headers ext' scheme host
                timeout created status hs body ex store store' u Hreq Hread Hst)
      as [w3 Hhs].
    destruct (Hany _ _ Hhs) as [Hres Hclosed]. by rewrite Hres.
  - intros status hs body ex store store' u exc store'' Hreq Hread Hst -> Htls.
    destruct (handshake_tls_failure aux connect_url connect_headers ext' host
                timeout created status hs body ex store store' u exc store''
                Hreq Hread Hst Htls) as [w3 Hhs].
    destruct (Hany _ _ Hhs) as [Hres Hclosed]. by rewrite Hres.
Qed.

End RequestProperties.

(** * The properties on the sample world *)

Ltac by_compute :=
  cbv zeta;
  match goal with |- ?P => apply (bool_decide_unpack P) end;
  vm_compute; exact I.

Lemma sample_bucket o :
  bucket sample_world o =
    if decide (o = origin_a) then {[1%nat; 2%nat; 3%nat]}
    else if decide (o = origin_b) then {[4%nat]} else ∅.
Proof.
  unfold bucket. cbn [pool sample_world _connections sample_pool].
  repeat case_decide; subst.
  - by rewrite lookup_insert_eq.
  - rewrite lookup_insert_ne by done. by rewrite lookup_insert_eq.
  - by rewrite !lookup_insert_ne, lookup_empty.
Qed.

Lemma sample_world_filed_by_origin : filed_by_origin sample_world.
Proof.
  intros o c. rewrite sample_bucket.
  repeat case_decide; subst; set_unfold; intros; destruct_or?; by simplify_eq.
Qed.

Lemma sample_world_no_empty_bucket : no_empty_bucket sample_world.
Proof.
  intros o s. cbn [pool sample_world _connections sample_pool].
  intros [[_ <-]|[_ [[_ <-]|[_ H]]%lookup_insert_Some]]%lookup_insert_Some;
    [set_solver..|by rewrite lookup_empty in H].
Qed.

Lemma remove_from_pool_iff_present_witness :
  let w' := _remove_from_pool 1%nat sample_world in
  trace w' = [SemaphoreRelease] ∧
  _internal_semaphore (pool w') = Some (BackendSemaphore 10 7) ∧
  (1%nat ∉ bucket w' origin_a) ∧
  _connections (pool w') !! origin_a = Some ({[1%nat; 2%nat; 3%nat]} ∖ {[1%nat]}) ∧
  _remove_from_pool 1%nat w' = w'.
Proof.
  destruct (remove_from_pool_iff_present 1%nat sample_world) as (Hin & _ & Hidem).
  destruct Hin as (Htr & Hsem & Hout & _ & _ & Hmap); [by_compute|].
  split_and!; [exact Htr|exact Hsem|exact Hout| |exact Hidem].
  change (Conn.origin (objects sample_world 1%nat)) with origin_a in Hmap.
  rewrite Hmap, sample_bucket.
  rewrite (decide_True (P := origin_a = origin_a)) by done.
  rewrite decide_False; [done|by_compute].
Defined.

Lemma response_closed_cases_witness :
  let w' := _response_closed 1%nat sample_world in
  w' = conn_close 1%nat (_remove_from_pool 1%nat sample_world) ∧
  (1%nat ∉ bucket w' origin_a) ∧
  Conn.state (objects w' 1%nat) = CLOSED.
Proof.
  destruct (response_closed_cases 1%nat sample_world)
    as (_ & _ & Hidle & _).
  apply (Hidle eq_refl 2 eq_refl). vm_compute. reflexivity.
Defined.

Lemma keepalive_sweep_cases_witness :
  let w' := @_keepalive_sweep elements_iteration sample_world in
  let short := @_keepalive_sweep elements_iteration sample_world_short_expiry in
  _next_keepalive_check (pool w') = 101%float ∧
  _next_keepalive_check (pool short) = 100.5%float ∧
  ¬ pooled w' 1%nat ∧
  Conn.state (objects w' 1%nat) = CLOSED ∧
  objects w' 2%nat = objects sample_world 2%nat.
Proof.
  destruct (@keepalive_sweep_cases elements_iteration sample_world) as (_ & _ & Hrun).
  destruct (Hrun 60%float eq_refl eq_refl sample_world_filed_by_origin)
    as (_ & Hnext & Hexp & Hother & _).
  destruct (@keepalive_sweep_cases elements_iteration sample_world_short_expiry)
    as (_ & _ & Hshort).
  destruct (Hshort 0.5%float eq_refl eq_refl sample_world_filed_by_origin)
    as (Hnext' & _).
  assert (pooled sample_world 1%nat ∧ Conn.state (objects sample_world 1%nat) = IDLE ∧
          ∃ e, Conn.expires_at (objects sample_world 1%nat) = Some e ∧
               PrimFloat.leb e (backend_time sample_world) = true) as Hdue.
  { split; [exists origin_a; by_compute|]. split; [reflexivity|].
    exists 50%float. split; reflexivity. }
  split_and!.
  - exact (Hnext eq_refl).
  - exact (Hnext' eq_refl).
  - apply (Hexp 1%nat Hdue).
  - apply (Hexp 1%nat Hdue).
  - apply Hother. intros (_ & _ & e & He & _). discriminate He.
Defined.

Lemma get_connection_reuse_or_pending_witness :
  let result := (@_get_connection_from_pool elements_iteration origin_a sample_world).1 in
  let w' := (@_get_connection_from_pool elements_iteration origin_a sample_world).2 in
  result = Some 1%nat ∧
  Conn.expires_at (objects sample_world 1%nat) = Some 50%float ∧
  Conn.expires_at (objects w' 1%nat) = None ∧
  Conn.state (objects w' 1%nat) = READY ∧
  ∃ k closed,
    trace w' = trace sample_world ++ replicate k SemaphoreRelease ++ [MarkAsReady 1%nat]
                 ++ (ConnClose <$> closed).
Proof.
  intros result w'.
  assert (∃ c, c ∈ bucket sample_world origin_a ∧
               (Conn.state (objects sample_world c) = IDLE ∧
                Conn.socket_readable (objects sample_world c) = false
                ∨ Conn.state (objects sample_world c) = ACTIVE ∧
                  Conn.is_http2 (objects sample_world c) = true)) as Hcand.
  { exists 1%nat. split; [by_compute|]. left. split; reflexivity. }
  destruct (proj1 (@get_connection_reuse_or_pending elements_iteration origin_a
                     sample_world) Hcand)
    as (r & k & closed & Hres & _ & Hexp & Hidle & _ & _ & _ & Htr).
  assert (r = 1%nat) as ->.
  { apply (inj Some). rewrite <- Hres. vm_compute. reflexivity. }
  split; [exact Hres|]. split; [reflexivity|]. split; [exact Hexp|].
  split; [exact (Hidle eq_refl)|]. exists k, closed. exact Htr.
Defined.

Lemma dropped_idle_connection_evicted_witness :
  let result := (@_get_connection_from_pool elements_iteration origin_a sample_world).1 in
  let w' := (@_get_connection_from_pool elements_iteration origin_a sample_world).2 in
  result ≠ Some 2%nat ∧
  ¬ pooled w' 2%nat ∧
  Conn.state (objects w' 2%nat) = CLOSED ∧
  ∃ calls, trace w' = trace sample_world ++ calls ∧ ConnClose 2%nat ∈ calls.
Proof.
  apply (@dropped_idle_connection_evicted elements_iteration origin_a sample_world 2%nat).
  - exact sample_world_filed_by_origin.
  - by_compute.
  - reflexivity.
  - reflexivity.
Defined.

Lemma close_removes_all_then_closes_witness :
  let connections := _get_all_connections sample_world in
  let w' := @close elements_iteration sample_world in
  _connections (pool w') = ∅ ∧
  trace w' = trace sample_world ++ replicate (size connections) SemaphoreRelease
               ++ (ConnClose <$> elements connections) ∧
  (_connection_semaphore w').1 =
    Nat.iter (size connections) release (_connection_semaphore sample_world).1.
Proof.
  destruct (@close_removes_all_then_closes elements_iteration sample_world
              sample_world_filed_by_origin sample_world_no_empty_bucket)
    as (Hmap & Htr & Hsem & _).
  split_and!; [exact Hmap|exact Htr|exact Hsem].
Defined.

Lemma tunnel_connect_failure_closes_and_wraps_witness :
  let result :=
    SyncHTTPProxy._tunnel_request
      (iteration := elements_iteration)
      (collaborators := sample_collaborators (Returns 403) (Returns tt))
      (sample_proxy DEFAULT) "GET" ("https", "target.test", None, "/")
      None None None sample_world in
  result.1 = Raises (ProxyError (Cause (ProxyError (Message "403 Forbidden")))) ∧
  exc_str (ProxyError (Cause (ProxyError (Message "403 Forbidden")))) = "403 Forbidden" ∧
  Conn.state (objects result.2 5%nat) = CLOSED ∧
  last (trace result.2) = Some (ConnClose 5%nat).
Proof.
  destruct (tunnel_connect_failure_closes_and_wraps
              (iteration := elements_iteration)
              (collaborators := sample_collaborators (Returns 403) (Returns tt))
              (sample_proxy DEFAULT) "GET" ("https", "target.test", None, "/")
              None None None sample_world sample_world "https" "target.test" 443
              eq_refl eq_refl) as (_ & Hstatus & _).
  destruct (Hstatus 403 [] 7%nat ∅ _ _ tt eq_refl eq_refl) as (Hres & Hstr & Hcl & Hlast).
  - right. reflexivity.
  - split_and!; [exact Hres|exact Hstr|exact Hcl|exact Hlast].
Defined.

Lemma request_rejects_url_before_any_change_witness :
  request (iteration := elements_iteration)
          (collaborators := sample_collaborators (Returns 200) (Returns tt))
          3 "GET" ("ftp", "a.test", None, "/") None None None sample_world
    = (Raises (UnsupportedProtocol "Unsupported URL protocol 'ftp'"), sample_world) ∧
  request (iteration := elements_iteration)
          (collaborators := sample_collaborators (Returns 200) (Returns tt))
          3 "GET" ("http", "", None, "/") None None None sample_world
    = (Raises (LocalProtocolError "Missing hostname in URL."), sample_world).
Proof.
  split.
  - apply (proj1 (request_rejects_url_before_any_change
                    (iteration := elements_iteration)
                    (collaborators := sample_collaborators (Returns 200) (Returns tt))
                    3 "GET" ("ftp", "a.test", None, "/") None None None sample_world)).
    by_compute.
  - apply (proj2 (request_rejects_url_before_any_change
                    (iteration := elements_iteration)
                    (collaborators := sample_collaborators (Returns 200) (Returns tt))
                    3 "GET" ("http", "", None, "/") None None None sample_world)).
    + by_compute.
    + reflexivity.
Defined.

(** C8 as stated fails: a URL with an empty host and the scheme [ftp] is
    rejected with [UnsupportedProtocol], not with [LocalProtocolError]. *)
Lemma request_empty_host_unknown_scheme :
  url_host ("ftp", "", None, "/") = "" ∧
  (request (iteration := elements_iteration)
           (collaborators := sample_collaborators (Returns 200) (Returns tt))
           3 "GET" ("ftp", "", None, "/") None None None sample_world).1
    = Raises (UnsupportedProtocol "Unsupported URL protocol 'ftp'") ∧
  ¬ ∃ msg,
      (request (iteration := elements_iteration)
               (collaborators := sample_collaborators (Returns 200) (Returns tt))
               3 "GET" ("ftp", "", None, "/") None None None sample_world).1
        = Raises (LocalProtocolError msg).
Proof.
  split_and!; [reflexivity|reflexivity|]. intros [msg H]. discriminate H.
Qed.

Lemma sample_url_to_origin_no_url_error connect tls u e :
  url_to_origin (Collaborators := sample_collaborators connect tls) u = Raises e →
  ¬ url_error e.
Proof.
  cbn. destruct (url_port u); [done|]. repeat case_bool_decide; try done.
  intros [= <-]. cbn. tauto.
Qed.

Lemma sample_connection_request_no_url_error status tls c m u h s x store e :
  (connection_request (Collaborators := sample_collaborators (Returns status) tls)
     c m u h s x store).1 = Raises e →
  ¬ url_error e.
Proof. cbn. by case_bool_decide. Qed.

Lemma proxy_request_validates_no_url_witness :
  let result :=
    SyncHTTPProxy.request
      (iteration := elements_iteration)
      (collaborators := sample_collaborators (Returns 200) (Returns tt))
      (sample_proxy FORWARD_ONLY) "GET" ("ftp", "", None, "/") None None None in
  result sample_world =
    SyncHTTPProxy._forward_request
      (iteration := elements_iteration)
      (collaborators := sample_collaborators (Returns 200) (Returns tt))
      (sample_proxy FORWARD_ONLY) "GET" ("ftp", "", None, "/") None None None
      (_keepalive_sweep (iteration := elements_iteration) sample_world) ∧
  ∀ e, (result sample_world).1 = Raises e → ¬ url_error e.
Proof.
  exact (proxy_request_validates_no_url
           (iteration := elements_iteration)
           (collaborators := sample_collaborators (Returns 200) (Returns tt))
           (sample_proxy FORWARD_ONLY) "GET" ("ftp", "", None, "/") None None None
           sample_world
           (sample_url_to_origin_no_url_error (Returns 200) (Returns tt))
           (sample_connection_request_no_url_error 200 (Returns tt))).
Defined.

(** ** Runs on the sample world *)

Example merge_headers_sample :
  merge_headers (Some [("Host", "a.test:80"); ("Accept", "*/*"); ("X-Id", "1")])
                (Some [("accept", "text/html"); ("HOST", "b.test")])
  = [("X-Id", "1"); ("accept", "text/html"); ("HOST", "b.test")].
Proof. vm_compute. reflexivity. Qed.

Example get_connection_sample :
  (_get_connection_from_pool (iteration := elements_iteration) origin_a sample_world).1
  = Some 1%nat.
Proof. vm_compute. reflexivity. Qed.

Example proxy_forwards_unvalidated_url :
  (SyncHTTPProxy.request
     (iteration := elements_iteration)
     (collaborators := sample_collaborators (Returns 200) (Returns tt))
     (sample_proxy FORWARD_ONLY) "GET" ("ftp", "", None, "/") None None None
     sample_world).1
  = Returns (200, [], ResponseByteStream.mk 8 5, ∅).
Proof. vm_compute. reflexivity. Qed.

Example pool_rejects_the_same_url :
  (request (iteration := elements_iteration)
           (collaborators := sample_collaborators (Returns 200) (Returns tt))
           3 "GET" ("ftp", "", None, "/") None None None sample_world).1
  = Raises (UnsupportedProtocol "Unsupported URL protocol 'ftp'").
Proof. vm_compute. reflexivity. Qed.

(** * The pool's invariants *)

Section PoolInvariants.
Context {iteration : SetIteration}.

Lemma remove_pooled c w x :
  filed_by_origin w →
  pooled (_remove_from_pool c w) x ↔ pooled w x ∧ x ≠ c.
Proof.
  intros HI1. unfold pooled. setoid_rewrite remove_bucket. split.
  - intros [o Ho]. case_decide as Hd.
    + apply elem_of_difference in Ho as [Ho Hne]. split; [eauto|set_solver].
    + split; [eauto|]. intros ->. apply Hd. symmetry. by apply HI1.
  - intros [[o Ho] Hne]. exists o. case_decide; set_solver.
Qed.

Lemma all_connections_remove c w :
  filed_by_origin w →
  _get_all_connections (_remove_from_pool c w) = _get_all_connections w ∖ {[c]}.
Proof.
  intros HI1. apply set_eq. intros x.
  rewrite elem_of_difference, !elem_of_get_all_connections, remove_pooled by done.
  set_solver.
Qed.

Lemma remove_filed_by_origin c w :
  filed_by_origin w → filed_by_origin (_remove_from_pool c w).
Proof.
  intros HI1 o x. rewrite remove_objects, remove_bucket.
  case_decide; [intros [? _]%elem_of_difference|]; by apply HI1.
Qed.

Lemma remove_next_handle c w : next_handle (_remove_from_pool c w) = next_handle w.
Proof.
  unfold _remove_from_pool, semaphore_release, _connection_semaphore.
  repeat case_bool_decide; destruct (_internal_semaphore (pool w)); reflexivity.
Qed.

Lemma remove_max_connections c w :
  _max_connections (pool (_remove_from_pool c w)) = _max_connections (pool w).
Proof.
  unfold _remove_from_pool, semaphore_release, _connection_semaphore.
  repeat case_bool_decide; destruct (_internal_semaphore (pool w)); reflexivity.
Qed.

Lemma remove_semaphore_matches c w :
  semaphore_matches w → semaphore_matches (_remove_from_pool c w).
Proof.
  unfold semaphore_matches. rewrite remove_semaphore, remove_max_connections.
  case_decide; [|done]. unfold _connection_semaphore.
  destruct (_internal_semaphore (pool w)) as [[|m v]|]; cbn; try done.
  by destruct (_max_connections (pool w)).
Qed.

Lemma remove_slots_accounted c w :
  filed_by_origin w → slots_accounted w → slots_accounted (_remove_from_pool c w).
Proof.
  intros HI1. unfold slots_accounted.
  rewrite semaphore_after_remove, all_connections_remove by done.
  case_decide as Hin.
  - destruct (_connection_semaphore w).1 as [|m v]; cbn; [done|].
    assert (c ∈ _get_all_connections w) as Hc
      by (apply elem_of_get_all_connections; eexists; eauto).
    pose proof (size_difference (_get_all_connections w) {[c]}) as Hsz.
    rewrite size_singleton in Hsz.
    assert (size (_get_all_connections w) ≠ 0%nat) as Hpos.
    { intros H0%size_empty_iff. set_solver. }
    rewrite Hsz by set_solver. lia.
  - assert (c ∉ _get_all_connections w) as Hc.
    { rewrite elem_of_get_all_connections. intros [o Ho].
      apply Hin. by rewrite (HI1 _ _ Ho). }
    by rewrite (difference_disjoint_L (_get_all_connections w) {[c]}) by set_solver.
Qed.

Lemma remove_handles_allocated c w :
  handles_allocated w → handles_allocated (_remove_from_pool c w).
Proof.
  intros Ha x [o Ho]. rewrite remove_next_handle. apply Ha. exists o.
  rewrite remove_bucket in Ho. case_decide; set_solver.
Qed.

Lemma remove_pool_ok c w : pool_ok w → pool_ok (_remove_from_pool c w).
Proof.
  intros (HI1 & HI3 & Hm & Hs & Ha). split_and!.
  - by apply remove_filed_by_origin.
  - by apply remove_no_empty_bucket.
  - by apply remove_semaphore_matches.
  - by apply remove_slots_accounted.
  - by apply remove_handles_allocated.
Qed.

Lemma remove_loop_pool_ok xs w : pool_ok w → pool_ok (for_in xs _remove_from_pool w).
Proof.
  revert w. induction xs as [|x xs IH]; intros w H; cbn; [done|].
  by apply IH, remove_pool_ok.
Qed.

(** The invariants read the map, the semaphore, [max_connections], the
    allocator and the origins of the objects, and nothing else. *)
Lemma pool_ok_frame w w' :
  _connections (pool w') = _connections (pool w) →
  _internal_semaphore (pool w') = _internal_semaphore (pool w) →
  _max_connections (pool w') = _max_connections (pool w) →
  next_handle w' = next_handle w →
  (∀ c, Conn.origin (objects w' c) = Conn.origin (objects w c)) →
  pool_ok w → pool_ok w'.
Proof.
  intros Hc Hs Hmax Hn Ho (HI1 & HI3 & Hm & Hacc & Ha).
  assert (∀ o, bucket w' o = bucket w o) as Hb by (intros o; unfold bucket; by rewrite Hc).
  split_and!.
  - intros o c. rewrite Hb, Ho. apply HI1.
  - intros o s. rewrite Hc. apply HI3.
  - unfold semaphore_matches. by rewrite Hs, Hmax.
  - unfold slots_accounted, _connection_semaphore, _get_all_connections in *.
    rewrite Hs, Hmax, Hc. by destruct (_internal_semaphore (pool w)).
  - intros c [o Hx]. rewrite Hn. apply Ha. exists o. by rewrite <- Hb.
Qed.

Lemma pool_ok_same_pool w w' :
  pool w' = pool w → next_handle w' = next_handle w →
  (∀ c, Conn.origin (objects w' c) = Conn.origin (objects w c)) →
  pool_ok w → pool_ok w'.
Proof. intros Hp. apply pool_ok_frame; by rewrite Hp. Qed.

Lemma close_loop_origin xs w c :
  Conn.origin (objects (for_in xs conn_close w) c) = Conn.origin (objects w c).
Proof. rewrite close_loop_objects. by case_decide. Qed.

Lemma close_loop_next_handle xs w : next_handle (for_in xs conn_close w) = next_handle w.
Proof. revert w. induction xs as [|x xs IH]; intros w; cbn; [done|by rewrite IH]. Qed.

Lemma close_loop_pool_ok xs w : pool_ok w → pool_ok (for_in xs conn_close w).
Proof.
  apply pool_ok_same_pool;
    [apply close_loop_pool|apply close_loop_next_handle|intros; apply close_loop_origin].
Qed.


Lemma get_connection_pool_ok origin w :
  pool_ok w → pool_ok (_get_connection_from_pool origin w).2.
Proof.
  intros Hok. rewrite get_connection_unfold. cbv zeta.
  set (w2 := for_in (filter (λ x, dropped (objects w x) = true)
                             (set_iter (bucket w origin))) _remove_from_pool w).
  assert (pool_ok w2) as Hok2 by by apply remove_loop_pool_ok.
  destruct (last _) as [r|]; [|destruct (_ && _ && _)]; cbn [snd];
    apply close_loop_pool_ok; try done.
  revert Hok2. apply pool_ok_same_pool; [done..|].
  intros c. cbn. destruct (decide (r = c)) as [->|?].
  - rewrite !fn_lookup_insert. cbn. unfold mark_as_ready_obj. by case_bool_decide.
  - by rewrite !fn_lookup_insert_ne.
Qed.

Lemma conn_close_pool_ok c w : pool_ok w → pool_ok (conn_close c w).
Proof. apply (close_loop_pool_ok [c]). Qed.

Lemma set_expires_at_pool_ok c e w : pool_ok w → pool_ok (set_expires_at c e w).
Proof.
  apply pool_ok_same_pool; [done..|]. intros x. cbn.
  destruct (decide (c = x)) as [->|?];
    [by rewrite fn_lookup_insert|by rewrite fn_lookup_insert_ne].
Qed.

Lemma response_closed_pool_ok c w : pool_ok w → pool_ok (_response_closed c w).
Proof.
  intros Hok. unfold _response_closed.
  repeat case_bool_decide; repeat case_match; simplify_eq;
    auto using remove_pool_ok, conn_close_pool_ok, set_expires_at_pool_ok.
Qed.

Lemma keepalive_sweep_pool_ok w : pool_ok w → pool_ok (_keepalive_sweep w).
Proof.
  intros Hok. unfold _keepalive_sweep.
  destruct (_keepalive_expiry (pool w)) as [ke|]; [|done].
  destruct (PrimFloat.ltb _ _); [done|].
  rewrite sweep_loop. apply close_loop_pool_ok, remove_loop_pool_ok.
  revert Hok. by apply pool_ok_frame.
Qed.

Lemma close_pool_ok w : pool_ok w → pool_ok (close w).
Proof. intros Hok. by apply close_loop_pool_ok, remove_loop_pool_ok. Qed.

(** X1. The pool's bookkeeping methods keep the invariants: from a pool
    where every connection is filed under its own origin, no set is empty,
    the semaphore was made for [max_connections], its free slots and the
    pooled connections add up to its capacity and every pooled handle was
    allocated, [_remove_from_pool], [_response_closed], [_keepalive_sweep],
    [_get_connection_from_pool] and [close] lead to such a pool. *)
Theorem bookkeeping_keeps_invariants (w : World) (c : handle) (origin : Origin) :
  pool_ok w →
  pool_ok (_remove_from_pool c w) ∧
  pool_ok (_response_closed c w) ∧
  pool_ok (_keepalive_sweep w) ∧
  pool_ok (_get_connection_from_pool origin w).2 ∧
  pool_ok (close w).
Proof.
  intros Hok. split_and!.
  - by apply remove_pool_ok.
  - by apply response_closed_pool_ok.
  - by apply keepalive_sweep_pool_ok.
  - by apply get_connection_pool_ok.
  - by apply close_pool_ok.
Qed.

(** The two invariants of the semaphore bound the pool: its free slots are
    not negative, so the pooled connections are at most its capacity. *)
Lemma slots_within_max (w : World) (n : Z) :
  semaphore_matches w →
  slots_accounted w →
  _max_connections (pool w) = Some n →
  Z.of_nat (size (_get_all_connections w)) ≤ n.
Proof.
  intros Hm Hacc Hmax.
  unfold semaphore_matches, slots_accounted, _connection_semaphore in *.
  rewrite Hmax in *.
  destruct (_internal_semaphore (pool w)) as [[|m v]|]; cbn in *; simplify_eq; lia.
Qed.



(** ** Adding a connection *)

(** What [_add_to_pool] does, by the outcome of the semaphore. *)
Lemma add_to_pool_unfold c (timeout : gmap string (option float)) w :
  let s := (_connection_semaphore w).1 in
  let w1 := log (SemaphoreAcquire (default None (timeout !! "pool")))
                (_connection_semaphore w).2 in
  _add_to_pool c timeout w =
    match acquire (default None (timeout !! "pool")) s with
    | Returns s' =>
        let w2 := with_pool (set_internal_semaphore (Some s')) w1 in
        let origin := Conn.origin (objects w c) in
        (Returns tt,
         with_pool (set_connections
           (<[origin := bucket w origin ∪ {[c]}]> (_connections (pool w)))) w2)
    | Raises e => (Raises e, w1)
    | Blocks => (Blocks, w1)
    | OutOfFuel => (OutOfFuel, w1)
    end.
Proof.
  unfold _add_to_pool. rewrite bind_unfold. unfold semaphore_acquire.
  unfold _connection_semaphore.
  destruct (_internal_semaphore (pool w)) as [s|]; cbn;
    destruct (acquire _ _); reflexivity.
Qed.

(** What a returning [_add_to_pool] changes: the set of the connection's
    origin and the trace. *)
Lemma add_to_pool_effect (c : handle) (timeout : TimeoutDict) (w w' : World) :
  _add_to_pool c timeout w = (Returns tt, w') →
  let origin := Conn.origin (objects w c) in
  bucket w' origin = bucket w origin ∪ {[c]} ∧
  (∀ o, o ≠ origin → _connections (pool w') !! o = _connections (pool w) !! o) ∧
  objects w' = objects w ∧
  trace w' = trace w ++ [SemaphoreAcquire (default None (timeout !! "pool"))].
Proof.
  intros Hadd origin. rewrite add_to_pool_unfold in Hadd. cbv zeta in Hadd.
  destruct (acquire _ _) as [s'| | |] eqn:Hacq; simplify_eq.
  fold origin.
  assert (trace (_connection_semaphore w).2 = trace w) as Htr.
  { unfold _connection_semaphore. by destruct (_internal_semaphore (pool w)). }
  assert (objects (_connection_semaphore w).2 = objects w) as Hobj.
  { unfold _connection_semaphore. by destruct (_internal_semaphore (pool w)). }
  split_and!.
  - unfold bucket at 1. cbn. by rewrite lookup_insert_eq.
  - intros o Ho. cbn. by rewrite lookup_insert_ne.
  - exact Hobj.
  - cbn. by rewrite Htr.
Qed.

(** A returning [_add_to_pool] keeps the invariants when the connection is
    allocated and not pooled yet. *)
Lemma add_to_pool_returns_pool_ok (c : handle) (timeout : TimeoutDict) (w w' : World) :
  _add_to_pool c timeout w = (Returns tt, w') →
  pool_ok w → ¬ pooled w c → (c < next_handle w)%nat → pool_ok w'.
Proof.
  intros Hadd. rewrite add_to_pool_unfold in Hadd. cbv zeta in Hadd.
  destruct (acquire _ _) as [s'| | |] eqn:Hacq; simplify_eq.
  set (origin := Conn.origin (objects w c)).
  assert (objects (_connection_semaphore w).2 = objects w) as Hobj.
  { unfold _connection_semaphore. by destruct (_internal_semaphore (pool w)). }
  assert (next_handle (_connection_semaphore w).2 = next_handle w) as Hnh.
  { unfold _connection_semaphore. by destruct (_internal_semaphore (pool w)). }
  assert (_max_connections (pool (_connection_semaphore w).2)
          = _max_connections (pool w)) as Hmax.
  { unfold _connection_semaphore. by destruct (_internal_semaphore (pool w)). }
  - intros (HI1 & HI3 & Hm & Hacc & Ha) Hnew Hlt.
    set (w2 := with_pool _ (with_pool _ _)).
    assert (∀ o, bucket w2 o =
                 if decide (o = origin) then bucket w origin ∪ {[c]} else bucket w o)
      as Hb.
    { intros o. unfold bucket at 1. cbn. case_decide; subst.
      - by rewrite lookup_insert_eq.
      - by rewrite lookup_insert_ne. }
    assert (_get_all_connections w2 = _get_all_connections w ∪ {[c]}) as Hall.
    { apply set_eq. intros x.
      rewrite elem_of_union, !elem_of_get_all_connections. unfold pooled.
      setoid_rewrite Hb. split.
      - intros [o Ho]. case_decide; [|eauto]. set_solver.
      - intros [[o Ho]| ->%elem_of_singleton].
        + exists o. case_decide; subst; set_solver.
        + exists origin. rewrite decide_True by done. set_solver. }
    split_and!.
    + intros o x. rewrite Hb. change (objects w2) with (objects (_connection_semaphore w).2).
      rewrite Hobj. case_decide; subst; [|apply HI1].
      intros [Hx| ->%elem_of_singleton]%elem_of_union; [by apply HI1|done].
    + intros o s. cbn. intros [[_ <-]|[_ Hs]]%lookup_insert_Some; [set_solver|].
      by eapply HI3.
    + unfold semaphore_matches in *. cbn. rewrite Hmax.
      unfold acquire, _connection_semaphore in Hacq.
      destruct (_internal_semaphore (pool w)) as [[|m v]|]; cbn in Hacq.
      * by simplify_eq.
      * destruct (0 <? v); [by simplify_eq|by destruct (default None _)].
      * destruct (_max_connections (pool w)) as [n|]; cbn in Hacq; [|by simplify_eq].
        destruct (0 <? n); [by simplify_eq|by destruct (default None _)].
    + unfold slots_accounted in *. rewrite Hall.
      change ((_connection_semaphore w2).1) with s'.
      assert (c ∉ _get_all_connections w) as Hc by by rewrite elem_of_get_all_connections.
      rewrite size_union, size_singleton by set_solver.
      unfold acquire in Hacq. destruct (_connection_semaphore w).1 as [|m v].
      * by simplify_eq.
      * destruct (0 <? v) eqn:Hv; [|by destruct (default None _)].
        simplify_eq. apply Z.ltb_lt in Hv. lia.
    + intros x [o Ho]. change (next_handle w2) with (next_handle (_connection_semaphore w).2).
      rewrite Hnh. rewrite Hb in Ho. case_decide; subst.
      * apply elem_of_union in Ho as [Ho| ->%elem_of_singleton]; [|done].
        apply Ha. by eexists.
      * apply Ha. by eexists.
Qed.

(** X3. When [_add_to_pool] returns, the connection is in the set of its
    origin, which holds what it held before besides; the other sets and the
    objects are as before, and the semaphore was acquired once, with the
    timeout [timeout.get("pool")].  On a pool that satisfies the invariants,
    adding an allocated connection that is not pooled yet keeps them. *)
Theorem add_to_pool_inserts (c : handle) (timeout : TimeoutDict) (w w' : World) :
  _add_to_pool c timeout w = (Returns tt, w') →
  let origin := Conn.origin (objects w c) in
  bucket w' origin = bucket w origin ∪ {[c]} ∧
  (∀ o, o ≠ origin → _connections (pool w') !! o = _connections (pool w) !! o) ∧
  objects w' = objects w ∧
  trace w' = trace w ++ [SemaphoreAcquire (default None (timeout !! "pool"))] ∧
  (pool_ok w → ¬ pooled w c → (c < next_handle w)%nat → pool_ok w').
Proof.
  intros Hadd origin.
  destruct (add_to_pool_effect c timeout w w' Hadd) as (Hb & Hoth & Hobj & Htr).
  split_and!; [done..|].
  by apply (add_to_pool_returns_pool_ok c timeout).
Qed.


Lemma connection_semaphore_fst w :
  (_connection_semaphore w).1 =
    match _internal_semaphore (pool w) with
    | Some s => s
    | None => match _max_connections (pool w) with
              | Some n => create_semaphore n
              | None => NullSemaphore
              end
    end.
Proof. unfold _connection_semaphore. by destruct (_internal_semaphore (pool w)). Qed.

(** X4. [_add_to_pool] fails only for want of a free slot, and then before
    the map is touched: with a semaphore without free slot it raises
    [PoolTimeout] when [timeout] has a value for ["pool"] and waits for ever
    when it has none, and the map and the semaphore's count are as before.
    With [NullSemaphore] or a free slot it returns. *)
Theorem add_to_pool_without_free_slot (c : handle) (timeout : TimeoutDict) (w : World) :
  let result := _add_to_pool c timeout w in
  (∀ m v, (_connection_semaphore w).1 = BackendSemaphore m v → v ≤ 0 →
     result.1 = match default None (timeout !! "pool") with
                | Some _ => Raises PoolTimeout
                | None => Blocks
                end ∧
     _connections (pool result.2) = _connections (pool w) ∧
     (_connection_semaphore result.2).1 = BackendSemaphore m v) ∧
  ((_connection_semaphore w).1 = NullSemaphore ∨
   (∃ m v, (_connection_semaphore w).1 = BackendSemaphore m v ∧ 0 < v) →
     result.1 = Returns tt).
Proof.
  intros result. subst result. rewrite add_to_pool_unfold. cbv zeta. split.
  - intros m v Hs Hv. rewrite Hs. cbn [acquire].
    rewrite (proj2 (Z.ltb_ge 0 v)) by done.
    assert (_connections (pool (_connection_semaphore w).2) = _connections (pool w) ∧
            (_connection_semaphore (_connection_semaphore w).2).1 = BackendSemaphore m v)
      as [Hc Hs'].
    { revert Hs. unfold _connection_semaphore.
      destruct (_internal_semaphore (pool w)) eqn:Hi; cbn; [by rewrite Hi|done]. }
    destruct (default None (timeout !! "pool")); cbn; split_and!; try done;
      rewrite connection_semaphore_fst in *; exact Hs'.
  - intros [Hs|(m & v & Hs & Hv)]; rewrite Hs; cbn [acquire]; [done|].
    by rewrite (proj2 (Z.ltb_lt 0 v)).
Qed.

(** X5. Adding a connection that is not in the set of its origin and
    removing it again gives back the map and the semaphore's count, with one
    acquire and one release, provided the map held no empty set for that
    origin. *)
Theorem add_then_remove_restores (c : handle) (timeout : TimeoutDict) (w w' : World) :
  _add_to_pool c timeout w = (Returns tt, w') →
  c ∉ bucket w (Conn.origin (objects w c)) →
  _connections (pool w) !! Conn.origin (objects w c) ≠ Some ∅ →
  let w'' := _remove_from_pool c w' in
  _connections (pool w'') = _connections (pool w) ∧
  (_connection_semaphore w'').1 = (_connection_semaphore w).1 ∧
  trace w'' = trace w ++ [SemaphoreAcquire (default None (timeout !! "pool"));
                          SemaphoreRelease].
Proof.
  intros Hadd Hnew Hne w''.
  destruct (add_to_pool_effect c timeout w w' Hadd) as (Hb & Hoth & Hobj & Htr).
  set (origin := Conn.origin (objects w c)) in *.
  assert (c ∈ bucket w' (Conn.origin (objects w' c))) as Hin.
  { rewrite Hobj. fold origin. rewrite Hb. set_solver. }
  split_and!.
  - subst w''. rewrite remove_connections by done. rewrite Hobj. fold origin.
    rewrite Hb. replace ((bucket w origin ∪ {[c]}) ∖ {[c]}) with (bucket w origin)
      by set_solver.
    apply map_eq. intros o. case_decide as He.
    + destruct (decide (o = origin)) as [->|?].
      * rewrite lookup_delete_eq. unfold bucket in He.
        destruct (_connections (pool w) !! origin) as [s|] eqn:Hs; [|done].
        cbn in He. by subst.
      * rewrite lookup_delete_ne by done. by apply Hoth.
    + destruct (decide (o = origin)) as [->|?].
      * rewrite lookup_insert_eq. unfold bucket in *.
        by destruct (_connections (pool w) !! origin).
      * rewrite lookup_insert_ne by done. by apply Hoth.
  - subst w''. rewrite semaphore_after_remove, decide_True by done.
    rewrite add_to_pool_unfold in Hadd. cbv zeta in Hadd.
    destruct (acquire _ _) as [s'| | |] eqn:Hacq; simplify_eq.
    change ((_connection_semaphore _).1) with s' at 1.
    unfold acquire in Hacq. destruct (_connection_semaphore w).1 as [|m v].
    + by simplify_eq.
    + destruct (0 <? v); [|by destruct (default None _)].
      simplify_eq. cbn. f_equal. lia.
  - subst w''. rewrite remove_trace, decide_True by done.
    by rewrite Htr, <- app_assoc.
Qed.


(** ** A new pool *)

(** X6. A pool made by [__init__] with a [max_connections] that is not
    negative satisfies the invariants and holds no connection;
    [max_keepalive], when given, replaces [max_keepalive_connections] and is
    warned about; with [http2] the constructor succeeds only where [h2] is
    installed. *)
Theorem init_gives_empty_pool
    (h2_installed : bool) (max_connections max_keepalive_connections : option Z)
    (keepalive_expiry : option float) (http2 : bool) (max_keepalive : option Z)
    (p : SyncConnectionPool) (warned : bool)
    (store : handle → Conn.t) (next : handle) (now : float) (calls : list Event) :
  __init__ h2_installed max_connections max_keepalive_connections keepalive_expiry
           http2 max_keepalive = Some (p, warned) →
  (∀ n, max_connections = Some n → 0 ≤ n) →
  pool_ok (mkWorld store next p now calls) ∧
  _get_all_connections (mkWorld store next p now calls) = ∅ ∧
  _max_keepalive_connections p =
    match max_keepalive with
    | Some m => Some m
    | None => max_keepalive_connections
    end ∧
  (warned = true ↔ is_Some max_keepalive) ∧
  (http2 = true → h2_installed = true).
Proof.
  intros Hinit Hmax. unfold __init__ in Hinit.
  destruct max_keepalive as [m|]; destruct (http2 && negb h2_installed) eqn:Hh2;
    simplify_eq; (split_and!;
    [ | done | done | | destruct http2, h2_installed; done ]).
  1,3: split_and!;
    [ intros o c; unfold bucket; cbn; by rewrite lookup_empty
    | intros o s; cbn; by rewrite lookup_empty
    | done
    | unfold slots_accounted; cbn; destruct max_connections as [n|]; cbn; [|done];
      split; [by apply Hmax|unfold _get_all_connections; cbn; rewrite map_fold_empty;
                            rewrite size_empty; lia]
    | intros c [o Ho]; unfold bucket in Ho; cbn in Ho; by rewrite lookup_empty in Ho ].
  - split; [eauto|done].
  - split; [done|by intros [? ?]].
Qed.

End PoolInvariants.

(** * Requests and the invariants *)

Section RequestInvariants.
Context {iteration : SetIteration} {collaborators : Collaborators}.

Lemma materialise_pool_ok w : pool_ok w → pool_ok (_connection_semaphore w).2.
Proof.
  intros (HI1 & HI3 & Hm & Hacc & Ha). unfold _connection_semaphore.
  destruct (_internal_semaphore (pool w)) as [s|] eqn:Hs; [done|]. cbn.
  split_and!; try done.
  - unfold semaphore_matches. cbn. by destruct (_max_connections (pool w)).
  - unfold slots_accounted in *. rewrite connection_semaphore_fst in *.
    rewrite Hs in Hacc. done.
Qed.

Lemma log_pool_ok ev w : pool_ok w → pool_ok (log ev w).
Proof. by apply pool_ok_same_pool. Qed.

Lemma call_pool_ok {A} ev (f : (handle → Conn.t) → Outcome A * (handle → Conn.t)) w :
  keeps_origins f → pool_ok w → pool_ok (call ev f w).2.
Proof.
  intros Hf. unfold call. specialize (Hf (objects w)).
  destruct (f (objects w)) as [r store]. cbn in *.
  by apply pool_ok_same_pool.
Qed.

Lemma call_bucket {A} ev (f : (handle → Conn.t) → Outcome A * (handle → Conn.t)) w o :
  bucket (call ev f w).2 o = bucket w o.
Proof. unfold call. by destruct (f (objects w)). Qed.

Lemma new_connection_pool_ok origin socket w :
  pool_ok w → pool_ok (new_connection origin socket w).2.
Proof.
  intros (HI1 & HI3 & Hm & Hacc & Ha). cbn. split_and!; try done.
  - intros o c Hc. cbn. rewrite fn_lookup_insert_ne; [by apply HI1|].
    intros <-. assert (next_handle w < next_handle w)%nat by (apply Ha; by eexists). lia.
  - unfold slots_accounted in *. by rewrite connection_semaphore_fst in *.
  - intros c Hc. cbn. apply Ha in Hc. lia.
Qed.

Lemma add_to_pool_pool_ok c (timeout : gmap string (option float)) w :
  pool_ok w → ¬ pooled w c → (c < next_handle w)%nat →
  pool_ok (_add_to_pool c timeout w).2.
Proof.
  intros Hok Hnew Hlt.
  destruct (_add_to_pool c timeout w) as [r w'] eqn:Hadd.
  destruct r as [[]| | |].
  - by eapply add_to_pool_returns_pool_ok.
  - rewrite add_to_pool_unfold in Hadd. cbv zeta in Hadd.
    destruct (acquire _ _); simplify_eq. by apply log_pool_ok, materialise_pool_ok.
  - rewrite add_to_pool_unfold in Hadd. cbv zeta in Hadd.
    destruct (acquire _ _); simplify_eq. by apply log_pool_ok, materialise_pool_ok.
  - rewrite add_to_pool_unfold in Hadd. cbv zeta in Hadd.
    destruct (acquire _ _); simplify_eq. by apply log_pool_ok, materialise_pool_ok.
Qed.

(** A connection that [_get_connection_from_pool] returns is in the
    origin's set, before and after the call. *)
Lemma get_connection_result_pooled origin w c :
  (_get_connection_from_pool origin w).1 = Some c →
  c ∈ bucket w origin ∧ c ∈ bucket (_get_connection_from_pool origin w).2 origin ∧
  dropped (objects w c) ≠ true ∧
  (reusable (objects w c) = true ∨ is_pending (objects w c) = true).
Proof.
  rewrite get_connection_unfold. cbv zeta.
  set (xs := set_iter (bucket w origin)).
  set (ds := filter (λ x, dropped (objects w x) = true) xs).
  assert (∀ x wf, pool wf = pool (for_in ds _remove_from_pool w) →
            x ∈ xs → dropped (objects w x) ≠ true → x ∈ bucket wf origin) as Hkeep.
  { intros x wf Hp Hx Hd. unfold bucket. rewrite Hp.
    apply remove_loop_bucket. split; [by apply set_iter_elem_of|].
    intros [Hin _]. subst ds. by apply list_elem_of_filter in Hin as [? _]. }
  destruct (last (filter (λ x, reusable _ = true) xs)) as [r|] eqn:Hr.
  - cbn. intros [= ->]. apply last_filter_elem in Hr as [Hx Hre].
    pose proof (reusable_not_dropped _ Hre) as Hd.
    split_and!; [by apply set_iter_elem_of| |done|by left].
    apply Hkeep; [|done..]. by rewrite close_loop_pool.
  - destruct (_ && _ && _); cbn; [|done]. intros Hp.
    apply last_filter_elem in Hp as [Hx Hpe].
    pose proof (pending_not_dropped _ Hpe) as Hd.
    split_and!; [by apply set_iter_elem_of| |done|by right].
    apply Hkeep; [|done..]. by rewrite close_loop_pool.
Qed.

Lemma get_or_create_spec origin (timeout : gmap string (option float)) w :
  let result := get_or_create origin timeout w in
  (pool_ok w → pool_ok result.2) ∧
  (∀ c, result.1 = Returns c → c ∈ bucket result.2 origin).
Proof.
  cbv zeta. unfold get_or_create. rewrite bind_unfold. unfold lift_result.
  destruct (_get_connection_from_pool origin w) as [[c|] w1] eqn:Hget.
  - cbn. split.
    + intros Hok. by apply (get_connection_pool_ok origin) in Hok; rewrite Hget in Hok.
    + intros c' [= <-].
      pose proof (get_connection_result_pooled origin w c) as H.
      rewrite Hget in H. by apply H.
  - rewrite bind_unfold. unfold _create_connection.
    change (new_connection origin None w1)
      with (Returns (next_handle w1), (new_connection origin None w1).2).
    cbv iota beta. rewrite bind_unfold.
    set (c := next_handle w1). set (w2 := (new_connection origin None w1).2).
    assert (objects w2 c = Conn.mk origin PENDING false false None false None) as Hobj
      by (cbn; by rewrite fn_lookup_insert).
    split.
    + intros Hok. apply (get_connection_pool_ok origin) in Hok. rewrite Hget in Hok.
      cbn [snd] in Hok.
      assert (pool_ok (_add_to_pool c timeout w2).2) as Hok2.
      { apply add_to_pool_pool_ok.
        - by apply new_connection_pool_ok.
        - intros [o Ho]. destruct Hok as (_ & _ & _ & _ & Ha).
          assert (c < next_handle w1)%nat by (apply Ha; by exists o). lia.
        - cbn. lia. }
      by destruct (_add_to_pool c timeout w2) as [[[]| | |] w3].
    + intros c'. destruct (_add_to_pool c timeout w2) as [[[]| | |] w3] eqn:Hadd;
        cbn; try done. intros [= <-].
      destruct (add_to_pool_effect c timeout w2 w3 Hadd) as (Hb & _).
      rewrite Hobj in Hb. cbn in Hb. rewrite Hb. set_solver.
Qed.


Lemma request_loop_spec fuel origin (timeout : gmap string (option float))
    method url headers stream ext w :
  let result := request_loop fuel origin timeout method url headers stream ext w in
  (collaborators_keep_origins → pool_ok w → pool_ok result.2) ∧
  (∀ c response, result.1 = Returns (c, response) → c ∈ bucket result.2 origin).
Proof.
  cbv zeta. revert w. induction fuel as [|fuel IH]; intros w; [done|].
  cbn [request_loop]. rewrite bind_unfold.
  destruct (get_or_create_spec origin timeout w) as [Hok Hin]. cbv zeta in Hok, Hin.
  destruct (get_or_create origin timeout w) as [[c| | |] w1]; cbn [fst snd] in *;
    try (split; [by intros _|done]).
  specialize (Hin c eq_refl).
  pose proof (call_bucket (ConnRequest c method url (default [] headers))
                (connection_request c method url headers stream ext) w1 origin) as Hb.
  pose proof (λ H, call_pool_ok (ConnRequest c method url (default [] headers))
                (connection_request c method url headers stream ext) w1 H) as Hcall.
  unfold conn_request.
  destruct (call _ _ w1) as [[response|e| |] w2]; cbn [fst snd] in *.
  - split; [intros Hk Hw; apply Hcall; [apply Hk|by apply Hok]|].
    intros c' r' [= <- <-]. by rewrite Hb.
  - assert (collaborators_keep_origins → pool_ok w → pool_ok w2) as Hok2.
    { intros Hk Hw. apply Hcall; [apply Hk|by apply Hok]. }
    destruct e; try (split; [intros; by apply remove_pool_ok, Hok2|done]).
    destruct (IH w2) as [IH1 IH2]. split; [|done]. intros Hk Hw. apply IH1; auto.
  - split; [|done]. intros Hk Hw. apply Hcall; [apply Hk|by apply Hok].
  - split; [|done]. intros Hk Hw. apply Hcall; [apply Hk|by apply Hok].
Qed.

(** X7. The pool's [request] keeps the invariants, however it ends, when
    the collaborators keep the origins of the connections; so the number of
    pooled connections stays within [max_connections]. *)
Theorem request_keeps_invariants
    (fuel : nat) (method : bytes) (url : URL) (headers : option Headers)
    (stream : option nat) (ext : option Ext) (w : World) :
  collaborators_keep_origins →
  pool_ok w →
  let w' := (request fuel method url headers stream ext w).2 in
  pool_ok w' ∧
  ∀ n, _max_connections (pool w') = Some n →
       Z.of_nat (size (_get_all_connections w')) ≤ n.
Proof.
  intros Hk Hok w'.
  assert (pool_ok w') as Hok'.
  2: { split; [done|]. intros n. destruct Hok' as (_ & _ & Hm & Hacc & _).
       by apply slots_within_max. }
  subst w'. unfold request.
  case_bool_decide; [done|]. case_bool_decide; [done|].
  rewrite bind_unfold. unfold lift_outcome at 1.
  destruct (url_to_origin url) as [origin| | |]; try done.
  rewrite bind_unfold. unfold lift at 1. rewrite bind_unfold.
  destruct (request_loop_spec fuel origin (default ∅ (default ∅ ext !! "timeout"))
              method url headers stream (default ∅ ext) (_keepalive_sweep w))
    as [Hloop _]. cbv zeta in Hloop.
  specialize (Hloop Hk (keepalive_sweep_pool_ok _ Hok)).
  destruct (request_loop _ _ _ _ _ _ _ _ _) as [[[c [[[st hs] body] ex]]| | |] w1];
    exact Hloop.
Qed.

(** X8. When the pool's [request] returns, the connection of the stream it
    returns is in the set of the URL's origin. *)
Theorem request_connection_is_pooled
    (fuel : nat) (method : bytes) (url : URL) (headers : option Headers)
    (stream : option nat) (ext : option Ext) (w w' : World)
    (status_code : Z) (response_headers : Headers) (body : ResponseByteStream.t)
    (response_ext : Ext) (origin : Origin) :
  request fuel method url headers stream ext w =
    (Returns (status_code, response_headers, body, response_ext), w') →
  url_to_origin url = Returns origin →
  ResponseByteStream.connection body ∈ bucket w' origin.
Proof.
  intros Hreq Hurl. unfold request in Hreq.
  case_bool_decide; [done|]. case_bool_decide; [done|].
  rewrite bind_unfold in Hreq. unfold lift_outcome at 1 in Hreq. rewrite Hurl in Hreq.
  rewrite bind_unfold in Hreq. unfold lift at 1 in Hreq. rewrite bind_unfold in Hreq.
  destruct (request_loop_spec fuel origin (default ∅ (default ∅ ext !! "timeout"))
              method url headers stream (default ∅ ext) (_keepalive_sweep w))
    as [_ Hloop]. cbv zeta in Hloop.
  destruct (request_loop _ _ _ _ _ _ _ _ _) as [[[c [[[st hs] bd] ex]]| | |] w1];
    try done.
  unfold mret, M_ret in Hreq. simplify_eq. exact (Hloop c _ eq_refl).
Qed.

End RequestInvariants.

(** * How the pool's methods combine *)

Section PoolCombinations.
Context {iteration : SetIteration}.

Lemma get_connection_result_object origin w c :
  (_get_connection_from_pool origin w).1 = Some c →
  objects (_get_connection_from_pool origin w).2 c =
    if reusable (objects w c)
    then Conn.set_expires_at None (mark_as_ready_obj (objects w c))
    else objects w c.
Proof.
  intros Hres.
  destruct (get_connection_result_pooled origin w c Hres) as (_ & _ & Hd & Hkind).
  revert Hres. rewrite get_connection_unfold. cbv zeta.
  set (xs := set_iter (bucket w origin)).
  set (ds := filter (λ x, dropped (objects w x) = true) xs).
  assert (c ∉ set_iter (∅ ∪ list_to_set ds : gset nat)) as Hc.
  { rewrite set_iter_elem_of, elem_of_union, elem_of_list_to_set. subst ds.
    rewrite list_elem_of_filter. set_solver. }
  destruct (last (filter (λ x, reusable _ = true) xs)) as [r|] eqn:Hr.
  - cbn. intros [= ->]. apply last_filter_elem in Hr as [_ Hre]. rewrite Hre.
    rewrite close_loop_objects, decide_False by done. cbn.
    by rewrite !fn_lookup_insert, remove_loop_objects.
  - destruct (_ && _ && _); cbn; [|done]. intros Hp.
    apply last_filter_elem in Hp as [Hx Hpe].
    assert (reusable (objects w c) = false) as ->.
    { apply not_true_is_false. intros [[Hs _]|[Hs _]]%reusable_spec;
        apply is_pending_spec in Hpe; congruence. }
    by rewrite close_loop_objects, decide_False, remove_loop_objects.
Qed.

(** X9. The connection [_get_connection_from_pool] returns stays in the
    origin's set and is neither [IDLE] nor [CLOSED] afterwards: it was idle
    and is now [READY], or it is [ACTIVE] on HTTP/2, or [PENDING].  A
    connection handed out while idle is not handed out by the next scan. *)
Theorem get_connection_hands_out_once (origin origin' : Origin) (w : World) (c : handle) :
  (_get_connection_from_pool origin w).1 = Some c →
  let w' := (_get_connection_from_pool origin w).2 in
  c ∈ bucket w' origin ∧
  (Conn.state (objects w c) = IDLE ∧ Conn.state (objects w' c) = READY ∨
   Conn.state (objects w c) = ACTIVE ∧ Conn.state (objects w' c) = ACTIVE ∧
     Conn.is_http2 (objects w' c) = true ∨
   Conn.state (objects w c) = PENDING ∧ Conn.state (objects w' c) = PENDING) ∧
  (Conn.state (objects w c) = IDLE →
     (_get_connection_from_pool origin' w').1 ≠ Some c).
Proof.
  intros Hres w'.
  destruct (get_connection_result_pooled origin w c Hres) as (_ & Hin & Hd & Hkind).
  pose proof (get_connection_result_object origin w c Hres) as Hobj. fold w' in Hobj.
  assert (Conn.state (objects w c) = IDLE → Conn.state (objects w' c) = READY) as Hready.
  { intros Hst. destruct Hkind as [Hre|Hpe%is_pending_spec]; [|congruence].
    rewrite Hobj, Hre. cbn. unfold mark_as_ready_obj.
    by rewrite bool_decide_eq_true_2. }
  split_and!; [done| |].
  - destruct Hkind as [Hre|Hpe].
    + rewrite Hobj, Hre. apply reusable_spec in Hre as [[Hst Hrd]|[Hst Hh2]].
      * left. split; [done|]. cbn. unfold mark_as_ready_obj.
        by rewrite bool_decide_eq_true_2.
      * right; left. split; [done|]. cbn. unfold mark_as_ready_obj.
        rewrite bool_decide_eq_false_2 by congruence. done.
    + assert (reusable (objects w c) = false) as Hnr.
      { apply not_true_is_false. intros [[Hs _]|[Hs _]]%reusable_spec;
          apply is_pending_spec in Hpe; congruence. }
      rewrite Hobj, Hnr. apply is_pending_spec in Hpe. by right; right.
  - intros Hst Hagain. apply Hready in Hst.
    destruct (get_connection_result_pooled origin' w' c Hagain) as (_ & _ & _ & Hk).
    destruct Hk as [[[Hs _]|[Hs _]]%reusable_spec|Hs%is_pending_spec]; congruence.
Qed.

Lemma set_iter_empty : set_iter (∅ : gset nat) = [].
Proof. apply Permutation_nil_r. by rewrite (set_iter_perm ∅), elements_empty. Qed.

Lemma all_connections_empty w :
  _connections (pool w) = ∅ → _get_all_connections w = ∅.
Proof. intros H. unfold _get_all_connections. by rewrite H, map_fold_empty. Qed.

(** X10. [close()] on a pool whose map is empty calls nothing and changes
    nothing; so, on a pool that files every connection under its origin and
    holds no empty set, closing twice is closing once. *)
Theorem close_twice_is_close_once (w : World) :
  (_connections (pool w) = ∅ → close w = w) ∧
  (filed_by_origin w → no_empty_bucket w → close (close w) = close w).
Proof.
  assert (∀ w0, _connections (pool w0) = ∅ → close w0 = w0) as Hempty.
  { intros w0 H. unfold close. by rewrite all_connections_empty, set_iter_empty. }
  split; [apply Hempty|]. intros HI1 HI3. apply Hempty.
  unfold close. rewrite close_loop_pool.
  apply map_empty. intros o.
  destruct (_connections (pool _) !! o) as [s|] eqn:Hs; [exfalso|done].
  assert (s ≠ ∅) as Hne by (eapply remove_loop_no_empty_bucket; eauto).
  apply set_choose_L in Hne as [x Hx].
  assert (x ∈ bucket (for_in (set_iter (_get_all_connections w)) _remove_from_pool w) o)
    as Hb by (unfold bucket; by rewrite Hs).
  apply remove_loop_bucket in Hb as [Hb Hnot]. apply Hnot. split.
  - apply set_iter_elem_of, elem_of_get_all_connections. by exists o.
  - by apply HI1.
Qed.

(** X11. After [close()], the callback [_response_closed] of a connection
    that was pooled changes nothing: the connection is [CLOSED] and out of the
    pool, so nothing is removed and the semaphore is not released again. *)
Theorem response_closed_after_close (w : World) (c : handle) :
  filed_by_origin w →
  pooled w c →
  _response_closed c (close w) = close w.
Proof.
  intros HI1 [o Ho]. unfold _response_closed.
  assert (c ∈ set_iter (_get_all_connections w)) as Hc.
  { apply set_iter_elem_of, elem_of_get_all_connections. by exists o. }
  assert (Conn.state (objects (close w) c) = CLOSED) as ->.
  { unfold close. by rewrite close_loop_objects, decide_True. }
  cbn. apply remove_absent. unfold close.
  rewrite close_loop_origin, remove_loop_objects.
  unfold bucket. rewrite close_loop_pool. fold (bucket (for_in (set_iter
    (_get_all_connections w)) _remove_from_pool w) (Conn.origin (objects w c))).
  rewrite remove_loop_bucket. intros [_ Hn]. by apply Hn.
Qed.


(** X12. [_response_closed c] leaves every other connection as it was, in
    the store and in the map, acquires nothing (its calls are releases of the
    semaphore and [close()] on [c]), and does nothing at all when [c] is
    neither [CLOSED] nor [IDLE]. *)
Theorem response_closed_touches_only_its_connection (c : handle) (w : World) :
  let w' := _response_closed c w in
  (∀ c', c' ≠ c →
     objects w' c' = objects w c' ∧ ∀ o, c' ∈ bucket w' o ↔ c' ∈ bucket w o) ∧
  (∃ calls, trace w' = trace w ++ calls ∧
            ∀ e, e ∈ calls → e = SemaphoreRelease ∨ e = ConnClose c) ∧
  (Conn.state (objects w c) ≠ CLOSED → Conn.state (objects w c) ≠ IDLE → w' = w).
Proof.
  intros w'.
  assert (∀ c' o, c' ≠ c →
            (c' ∈ bucket (_remove_from_pool c w) o ↔ c' ∈ bucket w o)) as Hrem.
  { intros c' o Hne. rewrite remove_bucket. case_decide; set_solver. }
  assert (∃ k, trace (_remove_from_pool c w) = trace w ++ replicate k SemaphoreRelease)
    as [k Hk].
  { rewrite remove_trace. case_decide; [by exists 1%nat|exists 0%nat].
    by rewrite app_nil_r. }
  assert (w' = _remove_from_pool c w ∨ w' = conn_close c (_remove_from_pool c w) ∨
          (∃ e, w' = set_expires_at c e w) ∨ w' = w) as Hcases.
  { subst w'. unfold _response_closed.
    repeat case_bool_decide; repeat case_match; simplify_eq; eauto. }
  split_and!.
  - intros c' Hne. destruct Hcases as [->|[->|[[e ->]| ->]]].
    + rewrite remove_objects. split; [done|]. intros o. by apply Hrem.
    + cbn. rewrite fn_lookup_insert_ne, remove_objects by done. split; [done|].
      intros o. by apply Hrem.
    + cbn. by rewrite fn_lookup_insert_ne.
    + done.
  - destruct Hcases as [->|[->|[[e ->]| ->]]].
    + exists (replicate k SemaphoreRelease). split; [done|].
      intros ev He%elem_of_replicate_inv. by left.
    + exists (replicate k SemaphoreRelease ++ [ConnClose c]). split.
      * cbn. by rewrite Hk, <- app_assoc.
      * intros ev [He%elem_of_replicate_inv|He%list_elem_of_singleton]%elem_of_app; eauto.
    + exists []. split; [by rewrite app_nil_r|]. by intros ev He%elem_of_nil.
    + exists []. split; [by rewrite app_nil_r|]. by intros ev He%elem_of_nil.
  - intros H1 H2. subst w'. unfold _response_closed.
    by rewrite !bool_decide_eq_false_2.
Qed.

Lemma set_next_keepalive_check_same w t :
  _next_keepalive_check (pool w) = t →
  with_pool (set_next_keepalive_check t) w = w.
Proof. destruct w as [? ? [] ? ?]. cbn. by intros ->. Qed.

Lemma keepalive_sweep_unfold w ke :
  _keepalive_expiry (pool w) = Some ke →
  PrimFloat.ltb (backend_time w) (_next_keepalive_check (pool w)) = false →
  let now := backend_time w in
  let w1 := with_pool (set_next_keepalive_check
              (PrimFloat.add now (py_min 1%float ke))) w in
  let xs := filter (λ x, expired now (objects w x) = true)
                   (set_iter (_get_all_connections w)) in
  _keepalive_sweep w =
    for_in (set_iter (∅ ∪ list_to_set xs)) conn_close (for_in xs _remove_from_pool w1).
Proof.
  intros Hke Hlt now w1 xs. subst now w1 xs. unfold _keepalive_sweep.
  rewrite Hke, Hlt.
  change (_get_all_connections (with_pool _ w)) with (_get_all_connections w).
  by rewrite sweep_loop.
Qed.

Lemma remove_loop_keepalive_expiry xs w :
  _keepalive_expiry (pool (for_in xs _remove_from_pool w)) = _keepalive_expiry (pool w).
Proof.
  revert w. induction xs as [|x xs IH]; intros w; [done|]. cbn [for_in]. rewrite IH.
  unfold _remove_from_pool, semaphore_release, _connection_semaphore.
  repeat case_bool_decide; destruct (_internal_semaphore (pool w)); reflexivity.
Qed.

Lemma remove_loop_backend_time xs w :
  backend_time (for_in xs _remove_from_pool w) = backend_time w.
Proof.
  revert w. induction xs as [|x xs IH]; intros w; [done|]. cbn [for_in]. rewrite IH.
  unfold _remove_from_pool, semaphore_release, _connection_semaphore.
  repeat case_bool_decide; destruct (_internal_semaphore (pool w)); reflexivity.
Qed.

Lemma close_loop_backend_time xs w :
  backend_time (for_in xs conn_close w) = backend_time w.
Proof. revert w. induction xs as [|x xs IH]; intros w; cbn; [done|by rewrite IH]. Qed.

(** X13. At one reading of the clock a second [_keepalive_sweep] changes
    nothing: what the first sweep found expired is closed, and nothing else
    has expired. *)
Theorem keepalive_sweep_twice (w : World) :
  _keepalive_sweep (_keepalive_sweep w) = _keepalive_sweep w.
Proof.
  destruct (_keepalive_expiry (pool w)) as [ke|] eqn:Hke;
    [|unfold _keepalive_sweep; by rewrite !Hke].
  destruct (PrimFloat.ltb (backend_time w) (_next_keepalive_check (pool w))) eqn:Hlt.
  { assert (_keepalive_sweep w = w) as Hid; [|by rewrite !Hid].
    unfold _keepalive_sweep. by rewrite Hke, Hlt. }
  rewrite (keepalive_sweep_unfold w ke Hke Hlt). cbv zeta.
  set (now := backend_time w).
  set (t := PrimFloat.add now (py_min 1%float ke)).
  set (xs := filter (λ x, expired now (objects w x) = true)
                    (set_iter (_get_all_connections w))).
  set (w1 := with_pool (set_next_keepalive_check t) w).
  set (w' := for_in _ conn_close (for_in xs _remove_from_pool w1)).
  assert (pool w' = pool (for_in xs _remove_from_pool w1)) as Hpool
    by apply close_loop_pool.
  assert (_keepalive_expiry (pool w') = Some ke) as Hke'
    by (by rewrite Hpool, remove_loop_keepalive_expiry).
  assert (_next_keepalive_check (pool w') = t) as Hnext
    by (by rewrite Hpool, remove_loop_next_keepalive_check).
  assert (backend_time w' = now) as Hnow
    by (subst w'; by rewrite close_loop_backend_time, remove_loop_backend_time).
  assert (∀ x, x ∈ _get_all_connections w' → expired now (objects w' x) ≠ true)
    as Hnone.
  { intros x [o Ho]%elem_of_get_all_connections.
    unfold bucket in Ho. rewrite Hpool in Ho.
    apply (remove_loop_bucket xs w1 o x) in Ho as [Ho _].
    subst w'. rewrite close_loop_objects, remove_loop_objects.
    case_decide as Hin.
    - rewrite expired_spec. cbn. by intros [? _].
    - change (objects w1 x) with (objects w x). intros He. apply Hin.
      rewrite set_iter_elem_of, elem_of_union, elem_of_list_to_set. right.
      subst xs. rewrite list_elem_of_filter, set_iter_elem_of.
      split; [done|]. apply elem_of_get_all_connections. by exists o. }
  destruct (PrimFloat.ltb (backend_time w') (_next_keepalive_check (pool w'))) eqn:Hlt'.
  { unfold _keepalive_sweep at 1. by rewrite Hke', Hlt'. }
  rewrite (keepalive_sweep_unfold w' ke Hke' Hlt'). cbv zeta. rewrite Hnow.
  assert (filter (λ x, expired now (objects w' x) = true)
                 (set_iter (_get_all_connections w')) = []) as ->.
  { apply last_None, last_filter_None. intros x Hx%set_iter_elem_of. by apply Hnone. }
  cbn [for_in list_to_set foldr].
  assert ((∅ ∪ ∅ : gset nat) = ∅) as -> by set_solver.
  rewrite set_iter_empty. cbn [for_in].
  by apply set_next_keepalive_check_same.
Qed.

End PoolCombinations.

(** * More on [merge_headers] *)

Lemma filter_none {A} (P : A → Prop) `{!∀ x, Decision (P x)} (l : list A) :
  (∀ x, x ∈ l → ¬ P x) → filter P l = [].
Proof. intros Hl. by apply last_None, last_filter_None. Qed.

(** X14. Merging the result of [merge_headers] with the same override
    headers again gives the same result. *)
Theorem merge_headers_again (default_headers override_headers : option Headers) :
  merge_headers (Some (merge_headers default_headers override_headers)) override_headers
  = merge_headers default_headers override_headers.
Proof.
  unfold merge_headers. cbn [default]. unfold id.
  set (P := λ kv : string * string,
         bytes_lower kv.1 ∉
           (list_to_set ((λ kv, bytes_lower kv.1) <$> default [] override_headers)
              : gset string)).
  rewrite filter_app. f_equal.
  rewrite (filter_none P (default [] override_headers)).
  - rewrite app_nil_r. apply filter_all. intros x Hx.
    by apply list_elem_of_filter in Hx as [Hx _].
  - intros x Hx HP. apply HP. apply elem_of_list_to_set, list_elem_of_fmap. eauto.
Qed.

(** Without override headers, or with an empty list of them,
    [merge_headers] returns the default headers; without default headers it
    returns the override headers; without both, the empty list. *)
Lemma merge_headers_missing (headers : option Headers) :
  merge_headers headers None = default [] headers ∧
  merge_headers headers (Some []) = default [] headers ∧
  merge_headers None headers = default [] headers ∧
  merge_headers None None = [].
Proof.
  unfold merge_headers. cbn [default fmap list_fmap list_to_set foldr].
  split_and!; try done; rewrite app_nil_r; apply filter_all; set_solver.
Qed.

(** * The proxy and the invariants *)

Section ProxyInvariants.
Context {iteration : SetIteration} {collaborators : Collaborators}.

Lemma bind_frames {A B} (m : M A) (f : A → M B) :
  frames m → (∀ a, frames (f a)) → frames (m ≫= f).
Proof.
  intros Hm Hf w. rewrite bind_unfold. destruct (Hm w) as (H1 & H2 & H3).
  destruct (m w) as [[a| | |] w1]; cbn [snd] in *; try done.
  destruct (Hf a w1) as (G1 & G2 & G3). split_and!.
  - auto.
  - intros o. by rewrite G2, H2.
  - by rewrite G3, H3.
Qed.

Lemma mret_frames {A} (a : A) : frames (mret a : M A).
Proof. by intros w. Qed.

Lemma raise_frames {A} e : frames (raise e : M A).
Proof. by intros w. Qed.

Lemma call_frames {A} ev (f : (handle → Conn.t) → Outcome A * (handle → Conn.t)) :
  (collaborators_keep_origins → keeps_origins f) → frames (call ev f).
Proof.
  intros Hf w. split_and!.
  - intros Hk. by apply call_pool_ok, Hf.
  - intros o. apply call_bucket.
  - unfold call. by destruct (f (objects w)).
Qed.

Lemma conn_request_frames c method url headers stream ext :
  frames (conn_request c method url headers stream ext).
Proof. apply call_frames. intros (Hk & _). apply Hk. Qed.

Lemma conn_close_frames c : frames (lift (conn_close c)).
Proof. intros w. split_and!; [intros _; apply conn_close_pool_ok|done..]. Qed.

Lemma try_except_frames {A} (body : M A) handler :
  frames body → (∀ exc, frames (handler exc)) → frames (try_except body handler).
Proof.
  intros Hb Hh w. unfold try_except. destruct (Hb w) as (H1 & H2 & H3).
  destruct (body w) as [[a|exc| |] w1]; cbn [snd] in *; try done.
  destruct (Hh exc w1) as (G1 & G2 & G3). split_and!.
  - auto.
  - intros o. by rewrite G2, H2.
  - by rewrite G3, H3.
Qed.

Lemma connect_handshake_frames aux connect_url connect_headers ext scheme host
    (timeout : gmap string (option float)) :
  frames (SyncHTTPProxy.connect_handshake aux connect_url connect_headers ext
            scheme host timeout).
Proof.
  unfold SyncHTTPProxy.connect_handshake.
  apply bind_frames; [apply conn_request_frames|]. intros [[[status hs] body] ex].
  apply bind_frames; [apply call_frames; intros (_ & _ & Hk & _); apply Hk|].
  intros _. destruct (_ || _); [apply raise_frames|].
  case_bool_decide; [|apply mret_frames].
  apply call_frames. intros (_ & Hk & _). apply Hk.
Qed.

(** Getting a connection of the pool or adding a new one, as
    [_forward_request] and [_tunnel_request] do after a successful
    handshake. *)
Lemma new_connection_added origin socket (timeout : gmap string (option float)) w :
  let result :=
    (connection ← new_connection origin socket;
     _ ← _add_to_pool connection timeout;
     mret connection) w in
  (pool_ok w → pool_ok result.2) ∧
  (∀ c, result.1 = Returns c → c ∈ bucket result.2 origin).
Proof.
  cbv zeta. rewrite bind_unfold.
  change (new_connection origin socket w)
    with (Returns (next_handle w), (new_connection origin socket w).2).
  cbv iota beta. rewrite bind_unfold.
  set (c := next_handle w). set (w2 := (new_connection origin socket w).2).
  assert (objects w2 c = Conn.mk origin PENDING false false None false socket) as Hobj
    by (cbn; by rewrite fn_lookup_insert).
  split.
  - intros Hok.
    assert (pool_ok (_add_to_pool c timeout w2).2) as Hok2.
    { apply add_to_pool_pool_ok.
      - by apply new_connection_pool_ok.
      - intros [o Ho]. destruct Hok as (_ & _ & _ & _ & Ha).
        assert (c < next_handle w)%nat by (apply Ha; by exists o). lia.
      - cbn. lia. }
    by destruct (_add_to_pool c timeout w2) as [[[]| | |] w3].
  - intros c'. destruct (_add_to_pool c timeout w2) as [[[]| | |] w3] eqn:Hadd;
      cbn; try done. intros [= <-].
    destruct (add_to_pool_effect c timeout w2 w3 Hadd) as (Hb & _).
    rewrite Hobj in Hb. cbn in Hb. rewrite Hb. set_solver.
Qed.


(** The last step of both paths: the request on the connection, and the
    wrapping of the stream. *)
Lemma request_on_connection_spec c origin method url headers stream ext w :
  let result :=
    ('(status_code, headers, stream, ext) ←
       conn_request c method url headers stream ext;
     mret (status_code, headers, ResponseByteStream.mk stream c, ext)) w in
  (collaborators_keep_origins → pool_ok w → pool_ok result.2) ∧
  (c ∈ bucket w origin →
   ∀ st hs body ex, result.1 = Returns (st, hs, body, ex) →
     ResponseByteStream.connection body ∈ bucket result.2 origin).
Proof.
  cbv zeta. rewrite bind_unfold.
  destruct (conn_request_frames c method url headers stream ext w) as (H1 & H2 & _).
  destruct (conn_request c method url headers stream ext w)
    as [[[[[st hs] bd] ex]| | |] w1]; cbn [fst snd] in *; try done.
  split; [done|]. intros Hc st' hs' body ex' [= <- <- <- <-]. cbn. by rewrite H2.
Qed.

Lemma forward_request_spec self method url headers stream ext w r w' :
  SyncHTTPProxy._forward_request self method url headers stream ext w = (r, w') →
  (collaborators_keep_origins → pool_ok w → pool_ok w') ∧
  (∀ st hs body ex, r = Returns (st, hs, body, ex) →
     ResponseByteStream.connection body ∈ bucket w' (SyncHTTPProxy.proxy_origin self)).
Proof.
  intros Hrun. unfold SyncHTTPProxy._forward_request in Hrun.
  set (origin := SyncHTTPProxy.proxy_origin self) in *.
  rewrite bind_unfold in Hrun. unfold lift_result at 1 in Hrun.
  pose proof (get_connection_pool_ok origin w) as Hok1.
  pose proof (get_connection_result_pooled origin w) as Hin1.
  destruct (_get_connection_from_pool origin w) as [[c|] w1]; cbn [fst snd] in *;
    cbv beta iota in Hrun.
  - rewrite bind_unfold in Hrun. unfold mret at 1, M_ret at 1 in Hrun.
    cbv beta iota in Hrun. destruct url as [[[scheme host] port] path].
    match type of Hrun with
    | context [conn_request c method ?u ?h stream ?e] =>
        destruct (request_on_connection_spec c origin method u h stream e w1) as [G1 G2]
    end.
    cbv zeta in G1, G2. rewrite Hrun in G1, G2. cbn [fst snd] in G1, G2.
    split; [auto|]. apply G2. by apply (Hin1 c).
  - rewrite bind_unfold in Hrun.
    destruct (new_connection_added origin None
                (default ∅ (default ∅ ext !! "timeout")) w1) as [N1 N2].
    cbv zeta in N1, N2.
    destruct ((new_connection origin None ≫= _) w1) as [[c| | |] w2];
      cbn [fst snd] in *; simplify_eq; try (split; [auto|done]).
    destruct url as [[[scheme host] port] path].
    match type of Hrun with
    | context [conn_request c method ?u ?h stream ?e] =>
        destruct (request_on_connection_spec c origin method u h stream e w2) as [G1 G2]
    end.
    cbv zeta in G1, G2. rewrite Hrun in G1, G2. cbn [fst snd] in G1, G2.
    split; [auto|]. apply G2. by apply N2.
Qed.


Lemma tunnel_request_spec self method url headers stream ext w r w' :
  SyncHTTPProxy._tunnel_request self method url headers stream ext w = (r, w') →
  (collaborators_keep_origins → pool_ok w → pool_ok w') ∧
  (∀ origin st hs body ex,
     url_to_origin url = Returns origin → r = Returns (st, hs, body, ex) →
     ResponseByteStream.connection body ∈ bucket w' origin).
Proof.
  intros Hrun. unfold SyncHTTPProxy._tunnel_request in Hrun.
  rewrite bind_unfold in Hrun. unfold lift_outcome at 1 in Hrun.
  destruct (url_to_origin url) as [origin| | |]; simplify_eq; try done.
  rewrite bind_unfold in Hrun. unfold lift_result at 1 in Hrun.
  pose proof (get_connection_pool_ok origin w) as Hok1.
  pose proof (get_connection_result_pooled origin w) as Hin1.
  destruct (_get_connection_from_pool origin w) as [[c|] w1]; cbn [fst snd] in *;
    cbv beta iota in Hrun.
  - rewrite bind_unfold in Hrun. unfold mret at 1, M_ret at 1 in Hrun.
    cbv beta iota in Hrun.
    destruct (request_on_connection_spec c origin method url headers stream
                (default ∅ ext) w1) as [G1 G2].
    cbv zeta in G1, G2. rewrite Hrun in G1, G2. cbn [fst snd] in G1, G2.
    split; [auto|]. intros o st hs body ex [= <-]. apply G2. by apply (Hin1 c).
  - destruct origin as [[scheme host] port].
    rewrite bind_unfold in Hrun. rewrite bind_unfold in Hrun.
    set (aux := next_handle w1) in *.
    change (new_connection (SyncHTTPProxy.proxy_origin self) None w1)
      with (Returns aux, (new_connection (SyncHTTPProxy.proxy_origin self) None w1).2)
      in Hrun.
    cbv beta iota in Hrun.
    set (w2 := (new_connection (SyncHTTPProxy.proxy_origin self) None w1).2) in *.
    assert (pool_ok w1 → pool_ok w2) as Hok2 by apply new_connection_pool_ok.
    rewrite bind_unfold in Hrun.
    match type of Hrun with
    | context [try_except ?body ?handler w2] =>
        assert (frames (try_except body handler)) as Hfr
    end.
    { apply try_except_frames; [apply connect_handshake_frames|]. intros exc.
      apply bind_frames; [apply conn_close_frames|]. intros _. apply raise_frames. }
    destruct (Hfr w2) as (F1 & F2 & F3).
    destruct (try_except _ _ w2) as [[[]| | |] w3]; cbn [fst snd] in *;
      simplify_eq; try (split; [auto 10|done]).
    rewrite bind_unfold in Hrun. unfold lift_result at 1 in Hrun.
    cbv beta iota in Hrun.
    set (socket := Conn.socket (objects w3 aux)) in *.
    destruct (new_connection_added (scheme, host, port) socket
                (default ∅ (default ∅ ext !! "timeout")) w3) as [N1 N2].
    cbv zeta in N1, N2.
    destruct ((new_connection (scheme, host, port) socket ≫= _) w3) as [[c| | |] w4];
      cbn [fst snd] in *; simplify_eq; try (split; [auto 10|done]).
    destruct (request_on_connection_spec c (scheme, host, port) method url headers
                stream (default ∅ ext) w4) as [G1 G2].
    cbv zeta in G1, G2. rewrite Hrun in G1, G2. cbn [fst snd] in G1, G2.
    split; [auto 10|]. intros o st hs body ex [= <-]. apply G2. by apply N2.
Qed.


(** X16. When the proxy's [request] returns, the connection of the stream
    it returns is pooled: under the proxy's origin when the request was
    forwarded, under the origin of the URL when it was tunnelled. *)
Theorem proxy_request_connection_is_pooled
    (self : SyncHTTPProxy.t) (method : bytes) (url : URL) (headers : option Headers)
    (stream : option nat) (ext : option Ext) (w w' : World)
    (status_code : Z) (response_headers : Headers) (body : ResponseByteStream.t)
    (response_ext : Ext) :
  SyncHTTPProxy.request self method url headers stream ext w =
    (Returns (status_code, response_headers, body, response_ext), w') →
  let forwarded :=
    SyncHTTPProxy.proxy_mode self = DEFAULT ∧ url_scheme url = "http"
    ∨ SyncHTTPProxy.proxy_mode self = FORWARD_ONLY in
  (forwarded →
     ResponseByteStream.connection body ∈ bucket w' (SyncHTTPProxy.proxy_origin self)) ∧
  (¬ forwarded → ∀ origin, url_to_origin url = Returns origin →
     ResponseByteStream.connection body ∈ bucket w' origin).
Proof.
  intros Hrun forwarded. unfold SyncHTTPProxy.request in Hrun.
  rewrite bind_unfold in Hrun. unfold attribute at 1 in Hrun. cbv beta iota in Hrun.
  rewrite bind_unfold in Hrun.
  set (swept := (if bool_decide (is_Some (_keepalive_expiry (pool w)))
                 then lift _keepalive_sweep else mret tt) w) in *.
  assert (swept.1 = Returns tt) as Hr by (subst swept; by case_bool_decide).
  destruct swept as [r w1]. cbn in Hr. subst r.
  assert (bool_decide (SyncHTTPProxy.proxy_mode self = DEFAULT)
          && bool_decide (url_scheme url = "http")
          || bool_decide (SyncHTTPProxy.proxy_mode self = FORWARD_ONLY)
          = bool_decide forwarded) as Hdec.
  { subst forwarded. repeat case_bool_decide; cbn; try done; exfalso; naive_solver. }
  rewrite Hdec in Hrun. clear Hdec. case_bool_decide as Hf.
  - split; [intros _|subst forwarded; tauto].
    by eapply (forward_request_spec _ _ _ _ _ _ _ _ _ Hrun).
  - split; [subst forwarded; tauto|intros _ origin Ho].
    by eapply (tunnel_request_spec _ _ _ _ _ _ _ _ _ Hrun).
Qed.


(** ** What is sent through the proxy *)


(** X18. A forwarded request that returns was sent on the connection of
    the returned stream, to the proxy's origin, with the whole URL of the
    request as target ([scheme://host:port/path], the port left out when the
    URL has none) and with the proxy's headers merged under the request's. *)
Theorem forward_request_sends_absolute_url
    (self : SyncHTTPProxy.t) (method : bytes) (scheme host : bytes) (port : option Z)
    (path : bytes) (headers : option Headers) (stream : option nat)
    (ext : option Ext) (w w' : World)
    (status_code : Z) (response_headers : Headers) (body : ResponseByteStream.t)
    (response_ext : Ext) :
  SyncHTTPProxy._forward_request self method (scheme, host, port, path) headers
    stream ext w
    = (Returns (status_code, response_headers, body, response_ext), w') →
  let target :=
    match port with
    | Some port => scheme +:+ "://" +:+ host +:+ ":" +:+ pretty port +:+ path
    | None => scheme +:+ "://" +:+ host +:+ path
    end in
  last (trace w') =
    Some (ConnRequest (ResponseByteStream.connection body) method
            ((SyncHTTPProxy.proxy_origin self).1.1, (SyncHTTPProxy.proxy_origin self).1.2,
             Some (SyncHTTPProxy.proxy_origin self).2, target)
            (merge_headers (Some (SyncHTTPProxy.proxy_headers self)) headers)).
Proof.
  intros Hrun target. unfold SyncHTTPProxy._forward_request in Hrun.
  rewrite bind_unfold in Hrun.
  destruct (lift_result _ w) as [[conn| | |] w1]; try done.
  rewrite bind_unfold in Hrun.
  match type of Hrun with
  | context [match ?m w1 with _ => _ end] => destruct (m w1) as [[c| | |] w2]
  end; try done.
  fold target in Hrun. rewrite bind_unfold in Hrun. unfold conn_request, call in Hrun.
  destruct (connection_request _ _ _ _ _ _ _) as [[[[[st hs] bd] ex]| | |] store];
    try done.
  unfold mret, M_ret in Hrun. simplify_eq. cbn.
  rewrite last_snoc. unfold SyncHTTPProxy.proxy_url.
  by destruct (SyncHTTPProxy.proxy_origin self) as [[? ?] ?].
Qed.


(** A handshake that returns got a status from 200 to 299; its calls are
    the [CONNECT] request, the reading of the response and, for [https],
    the TLS upgrade. *)
Lemma handshake_calls aux connect_url connect_headers ext scheme host
    (timeout : gmap string (option float)) w w3 :
  SyncHTTPProxy.connect_handshake aux connect_url connect_headers ext scheme host
    timeout w = (Returns tt, w3) →
  (∃ status hs body ex store,
     connection_request aux "CONNECT" connect_url (Some connect_headers) None ext
       (objects w) = (Returns (status, hs, body, ex), store) ∧
     200 ≤ status ≤ 299) ∧
  ∃ s, trace w3 =
         trace w ++ [ConnRequest aux "CONNECT" connect_url connect_headers;
                     StreamRead s]
                 ++ (if bool_decide (scheme = "https")
                     then [ConnStartTLS aux host] else []).
Proof.
  unfold SyncHTTPProxy.connect_handshake. rewrite bind_unfold.
  unfold conn_request, call at 1.
  destruct (connection_request _ _ _ _ _ _ _) as [[[[[status hs] body] ex]| | |] store];
    try done.
  rewrite bind_unfold. unfold call at 1. cbn [objects with_objects log].
  destruct (read_stream body store) as [[[]| | |] store']; try done.
  destruct ((status <? 200) || (299 <? status)) eqn:Hst; [done|].
  apply orb_false_iff in Hst as [H1%Z.ltb_ge H2%Z.ltb_ge].
  intros Hrun. split; [by exists status, hs, body, ex, store|]. exists body.
  case_bool_decide.
  - unfold call in Hrun. cbn [objects with_objects log] in Hrun.
    destruct (start_tls _ _ _ _) as [[[]| | |] store'']; simplify_eq. cbn.
    by rewrite <- !app_assoc.
  - unfold mret, M_ret in Hrun. simplify_eq. cbn. by rewrite <- !app_assoc.
Qed.



(** X20. A tunnelled request for an origin without pooled connection
    returns only if the proxy answered the [CONNECT] request with a status
    from 200 to 299. *)
Theorem tunnel_request_returns_only_after_2xx
    (self : SyncHTTPProxy.t) (method : bytes) (url : URL) (headers : option Headers)
    (stream : option nat) (ext : option Ext) (w w1 : World)
    (scheme host : bytes) (port : Z)
    (status_code : Z) (response_headers : Headers) (body : ResponseByteStream.t)
    (response_ext : Ext) :
  url_to_origin url = Returns (scheme, host, port) →
  _get_connection_from_pool (scheme, host, port) w = (None, w1) →
  (SyncHTTPProxy._tunnel_request self method url headers stream ext w).1
    = Returns (status_code, response_headers, body, response_ext) →
  let target := host +:+ ":" +:+ pretty port in
  ∃ status hs s ex store,
    connection_request (next_handle w1) "CONNECT" (SyncHTTPProxy.proxy_url self target)
      (Some (merge_headers (Some [("Host", target); ("Accept", "*/*")])
                           (Some (SyncHTTPProxy.proxy_headers self))))
      None (default ∅ ext)
      (objects (new_connection (SyncHTTPProxy.proxy_origin self) None w1).2)
    = (Returns (status, hs, s, ex), store) ∧
    200 ≤ status ≤ 299.
Proof.
  intros Hurl Hget Hres target.
  destruct (SyncHTTPProxy._tunnel_request self method url headers stream ext w)
    as [r w'] eqn:Hrun. cbn [fst] in Hres. subst r.
  unfold SyncHTTPProxy._tunnel_request in Hrun.
  rewrite bind_unfold in Hrun. unfold lift_outcome at 1 in Hrun. rewrite Hurl in Hrun.
  rewrite bind_unfold in Hrun. unfold lift_result at 1 in Hrun. rewrite Hget in Hrun.
  rewrite bind_unfold in Hrun. rewrite bind_unfold in Hrun.
  change (new_connection (SyncHTTPProxy.proxy_origin self) None w1)
    with (Returns (next_handle w1),
          (new_connection (SyncHTTPProxy.proxy_origin self) None w1).2) in Hrun.
  cbv iota beta in Hrun. rewrite bind_unfold in Hrun. unfold try_except at 1 in Hrun.
  fold target in Hrun.
  destruct (SyncHTTPProxy.connect_handshake _ _ _ _ _ _ _ _) as [[[]|exc| |] w3] eqn:Hhs;
    try done.
  by apply handshake_calls in Hhs as [Hst _].
Qed.

(** ** Closing a response *)


(** ** Rounds of [request] *)

Lemma request_loop_more_fuel k fuel origin (timeout : gmap string (option float))
    method url headers stream ext w r w' :
  request_loop fuel origin timeout method url headers stream ext w = (r, w') →
  r ≠ OutOfFuel →
  request_loop (fuel + k) origin timeout method url headers stream ext w = (r, w').
Proof.
  revert w. induction fuel as [|fuel IH]; intros w Hrun Hr.
  { cbn in Hrun. unfold lift_outcome in Hrun. by simplify_eq. }
  cbn [request_loop Nat.add] in *. rewrite bind_unfold in *.
  destruct (get_or_create origin timeout w) as [[c| | |] w1]; try done.
  destruct (conn_request c method url headers stream ext w1) as [[response|e| |] w2];
    try done.
  destruct e; try done. by apply IH.
Qed.

Lemma request_unfold fuel method url headers stream ext w :
  request fuel method url headers stream ext w =
    if bool_decide (url_scheme url ∉ ["http"; "https"]) then
      (Raises (UnsupportedProtocol
                 ("Unsupported URL protocol " +:+ py_repr (url_scheme url))), w)
    else if bool_decide (url_host url = "") then
      (Raises (LocalProtocolError "Missing hostname in URL."), w)
    else
      match url_to_origin url with
      | Returns origin =>
          match request_loop fuel origin (default ∅ (default ∅ ext !! "timeout"))
                  method url headers stream (default ∅ ext) (_keepalive_sweep w) with
          | (Returns (c, (status_code, hs, s, ex)), w1) =>
              (Returns (status_code, hs, ResponseByteStream.mk s c, ex), w1)
          | (Raises e, w1) => (Raises e, w1)
          | (Blocks, w1) => (Blocks, w1)
          | (OutOfFuel, w1) => (OutOfFuel, w1)
          end
      | Raises e => (Raises e, w)
      | Blocks => (Blocks, w)
      | OutOfFuel => (OutOfFuel, w)
      end.
Proof.
  unfold request. case_bool_decide; [done|]. case_bool_decide; [done|].
  rewrite bind_unfold. unfold lift_outcome at 1.
  destruct (url_to_origin url) as [origin| | |]; try done.
  rewrite bind_unfold. unfold lift at 1. rewrite bind_unfold.
  by destruct (request_loop _ _ _ _ _ _ _ _ _) as [[[c [[[st hs] s] ex]]| | |] w1].
Qed.

Lemma get_or_create_never_out_of_fuel origin (timeout : gmap string (option float)) w :
  (get_or_create origin timeout w).1 ≠ OutOfFuel.
Proof.
  unfold get_or_create. rewrite bind_unfold. unfold lift_result.
  destruct (_get_connection_from_pool origin w) as [[c|] w1]; [done|].
  rewrite bind_unfold. unfold _create_connection.
  change (new_connection origin None w1)
    with (Returns (next_handle w1), (new_connection origin None w1).2).
  cbv iota beta. rewrite bind_unfold, add_to_pool_unfold. cbv zeta.
  destruct (_connection_semaphore _).1 as [|m v]; cbn; [done|].
  destruct (0 <? v); [done|]. by destruct (default None _).
Qed.

(** X22. [request] goes round its loop again only when the connection
    raises [NewConnectionRequired]: a call that ended within some number of
    rounds ends the same way with any larger bound, and when the connections
    never raise [NewConnectionRequired] one round is enough (the collaborators
    of the model not running out of fuel themselves). *)
Theorem request_rounds
    (fuel k : nat) (method : bytes) (url : URL) (headers : option Headers)
    (stream : option nat) (ext : option Ext) (w : World) :
  ((request fuel method url headers stream ext w).1 ≠ OutOfFuel →
     request (fuel + k) method url headers stream ext w
       = request fuel method url headers stream ext w) ∧
  ((∀ c m u h s x store,
      (connection_request c m u h s x store).1 ≠ Raises NewConnectionRequired ∧
      (connection_request c m u h s x store).1 ≠ OutOfFuel) →
   url_to_origin url ≠ OutOfFuel →
   (request 1 method url headers stream ext w).1 ≠ OutOfFuel).
Proof.
  split.
  - rewrite !request_unfold.
    case_bool_decide; [done|]. case_bool_decide; [done|].
    destruct (url_to_origin url) as [origin| | |]; try done.
    destruct (request_loop fuel _ _ _ _ _ _ _ _) as [r w1] eqn:Hloop.
    intros Hr.
    assert (r ≠ OutOfFuel) as Hr'.
    { intros ->. by apply Hr. }
    by rewrite (request_loop_more_fuel k _ _ _ _ _ _ _ _ _ _ _ Hloop Hr').
  - intros Hreq Hurl. rewrite request_unfold.
    case_bool_decide; [done|]. case_bool_decide; [done|].
    destruct (url_to_origin url) as [origin| | |]; try done.
    cbn [request_loop]. rewrite bind_unfold.
    pose proof (get_or_create_never_out_of_fuel origin
                  (default ∅ (default ∅ ext !! "timeout")) (_keepalive_sweep w)) as Hg.
    destruct (get_or_create _ _ _) as [[c| | |] w1]; try done.
    unfold conn_request, call.
    specialize (Hreq c method url headers stream (default ∅ ext) (objects w1)).
    destruct (connection_request _ _ _ _ _ _ _) as [[[[[st hs] bd] ex]|e| |] store];
      cbn in *; try done; [|tauto].
    destruct e; try done. tauto.
Qed.


(** ** A request that fails *)

(** X23. When the connection's [request] raises an exception other than
    [NewConnectionRequired], the pool's loop raises the same exception after
    taking the connection out of the pool and releasing its slot: on a pool
    that satisfies the invariants, with collaborators that keep the origins,
    the connection is in no set afterwards, the release is the last call, and
    the invariants still hold. *)
Theorem failed_request_frees_the_slot
    (fuel : nat) (origin : Origin) (timeout : TimeoutDict) (method : bytes) (url : URL)
    (headers : option Headers) (stream : option nat) (ext : Ext)
    (w w1 w2 : World) (c : handle) (e : Exception) :
  collaborators_keep_origins →
  pool_ok w →
  get_or_create origin timeout w = (Returns c, w1) →
  conn_request c method url headers stream ext w1 = (Raises e, w2) →
  e ≠ NewConnectionRequired →
  let result :=
    request_loop (S fuel) origin timeout method url headers stream ext w in
  result.1 = Raises e ∧
  ¬ pooled result.2 c ∧
  trace result.2 = trace w2 ++ [SemaphoreRelease] ∧
  pool_ok result.2.
Proof.
  intros Hk Hok Hget Hreq Hne result.
  destruct (get_or_create_spec origin timeout w) as [Hok1 Hin1]. cbv zeta in Hok1, Hin1.
  rewrite Hget in Hok1, Hin1. cbn [fst snd] in Hok1, Hin1.
  specialize (Hok1 Hok). specialize (Hin1 c eq_refl).
  destruct (conn_request_frames c method url headers stream ext w1) as (F1 & F2 & _).
  rewrite Hreq in F1, F2. cbn [snd] in F1, F2. specialize (F1 Hk Hok1).
  assert (result = (Raises e, _remove_from_pool c w2)) as ->.
  { subst result. cbn [request_loop]. rewrite bind_unfold, Hget, Hreq. by destruct e. }
  cbn [fst snd].
  assert (c ∈ bucket w2 (Conn.origin (objects w2 c))) as Hin2.
  { assert (c ∈ bucket w2 origin) as Hc by (by rewrite F2).
    destruct F1 as (HI1 & _). by rewrite (HI1 _ _ Hc). }
  split_and!.
  - done.
  - rewrite remove_pooled by apply F1. tauto.
  - by rewrite remove_trace, decide_True.
  - by apply remove_pool_ok.
Qed.

End ProxyInvariants.

(** * The further properties on the sample world *)

Lemma pair_from_fst {A B} (p : A * B) (a : A) : p.1 = a → p = (a, p.2).
Proof. intros <-. by destruct p. Qed.

Lemma sample_all_connections :
  _get_all_connections sample_world = {[1%nat; 2%nat; 3%nat; 4%nat]}.
Proof.
  apply set_eq. intros x. rewrite elem_of_get_all_connections. unfold pooled.
  setoid_rewrite sample_bucket. split.
  - intros [o Ho]. repeat case_decide; set_solver.
  - intros Hx. set_unfold. destruct Hx as [[[->| ->]| ->]| ->].
    + exists origin_a. rewrite decide_True by done. set_solver.
    + exists origin_a. rewrite decide_True by done. set_solver.
    + exists origin_a. rewrite decide_True by done. set_solver.
    + exists origin_b. rewrite decide_False by done. rewrite decide_True by done.
      set_solver.
Qed.

Lemma sample_world_pool_ok : pool_ok sample_world.
Proof.
  split_and!.
  - exact sample_world_filed_by_origin.
  - exact sample_world_no_empty_bucket.
  - reflexivity.
  - unfold slots_accounted. rewrite sample_all_connections. cbn. split; [lia|].
    by vm_compute.
  - intros c Hc%elem_of_get_all_connections. rewrite sample_all_connections in Hc.
    cbn. set_unfold. lia.
Qed.

Lemma sample_collaborators_keep_origins status tls :
  collaborators_keep_origins (collaborators := sample_collaborators (Returns status) tls).
Proof.
  split_and!.
  - intros c m u h s x store c'. cbn. case_bool_decide; cbn; [done|].
    destruct (decide (c = c')) as [->|?];
      [by rewrite fn_lookup_insert|by rewrite fn_lookup_insert_ne].
  - by intros c host t store c'.
  - by intros s store c'.
  - by intros s store c'.
Qed.

Lemma refusing_collaborators_keep_origins :
  collaborators_keep_origins (collaborators := refusing_collaborators).
Proof.
  split_and!.
  - by intros c m u h s x store c'.
  - by intros c host t store c'.
  - by intros s store c'.
  - by intros s store c'.
Qed.

Lemma bookkeeping_keeps_invariants_witness :
  pool_ok (_remove_from_pool 1%nat sample_world) ∧
  pool_ok (_response_closed 1%nat sample_world) ∧
  pool_ok (_keepalive_sweep (iteration := elements_iteration) sample_world) ∧
  pool_ok (_get_connection_from_pool (iteration := elements_iteration)
             origin_a sample_world).2 ∧
  pool_ok (close (iteration := elements_iteration) sample_world).
Proof.
  exact (bookkeeping_keeps_invariants (iteration := elements_iteration)
           sample_world 1%nat origin_a sample_world_pool_ok).
Defined.


Lemma add_to_pool_inserts_witness :
  let w' := (_add_to_pool 0%nat ∅ sample_world).2 in
  bucket w' origin_b = bucket sample_world origin_b ∪ {[0%nat]} ∧
  trace w' = [SemaphoreAcquire None] ∧
  pool_ok w'.
Proof.
  destruct (add_to_pool_inserts 0%nat ∅ sample_world
              (_add_to_pool 0%nat ∅ sample_world).2
              (pair_from_fst _ _ eq_refl)) as (Hb & _ & _ & Htr & Hok).
  split_and!; [exact Hb|exact Htr|].
  apply Hok; [exact sample_world_pool_ok| |cbn; lia].
  intros Hp%elem_of_get_all_connections. rewrite sample_all_connections in Hp.
  set_unfold. lia.
Defined.

Lemma add_to_pool_without_free_slot_witness :
  let full := with_pool (set_internal_semaphore (Some (BackendSemaphore 10 0)))
                        sample_world in
  (_add_to_pool 5%nat {["pool" := Some 1%float]} full).1 = Raises PoolTimeout ∧
  (_add_to_pool 5%nat ∅ full).1 = Blocks ∧
  _connections (pool (_add_to_pool 5%nat ∅ full).2) = _connections (pool full) ∧
  (_add_to_pool 5%nat ∅ sample_world).1 = Returns tt.
Proof.
  cbv zeta.
  set (full := with_pool (set_internal_semaphore (Some (BackendSemaphore 10 0)))
                         sample_world).
  destruct (add_to_pool_without_free_slot 5%nat {["pool" := Some 1%float]} full)
    as [Hfull _].
  destruct (Hfull 10 0 eq_refl (Z.le_refl 0)) as (Hr & _ & _).
  destruct (add_to_pool_without_free_slot 5%nat ∅ full) as [Hfull' _].
  destruct (Hfull' 10 0 eq_refl (Z.le_refl 0)) as (Hr' & Hc' & _).
  destruct (add_to_pool_without_free_slot 5%nat ∅ sample_world) as [_ Hfree].
  split_and!; [exact Hr|exact Hr'|exact Hc'|].
  apply Hfree. right. exists 10, 6. split; [reflexivity|lia].
Defined.

Lemma add_then_remove_restores_witness :
  let w'' := _remove_from_pool 0%nat (_add_to_pool 0%nat ∅ sample_world).2 in
  _connections (pool w'') = _connections (pool sample_world) ∧
  (_connection_semaphore w'').1 = BackendSemaphore 10 6 ∧
  trace w'' = [SemaphoreAcquire None; SemaphoreRelease].
Proof.
  destruct (add_then_remove_restores 0%nat ∅ sample_world
              (_add_to_pool 0%nat ∅ sample_world).2 (pair_from_fst _ _ eq_refl))
    as (Hmap & Hsem & Htr).
  - change (Conn.origin (objects sample_world 0%nat)) with origin_b.
    rewrite sample_bucket. by_compute.
  - change (Conn.origin (objects sample_world 0%nat)) with origin_b.
    cbn. rewrite lookup_insert_ne by done. by rewrite lookup_insert_eq.
  - split_and!; [exact Hmap|exact Hsem|exact Htr].
Defined.

Lemma init_gives_empty_pool_witness :
  pool_ok (mkWorld sample_objects 5%nat
             (mkPool (Some 10) (Some 2) (Some 60%float) true ∅ None 0%float)
             100%float []) ∧
  _max_keepalive_connections
    (mkPool (Some 10) (Some 2) (Some 60%float) true ∅ None 0%float) = Some 2.
Proof.
  destruct (init_gives_empty_pool true (Some 10) (Some 7) (Some 60%float) true (Some 2)
              _ _ sample_objects 5%nat 100%float [] eq_refl) as (Hok & _ & Hk & _).
  - intros n [= <-]. lia.
  - split; [exact Hok|exact Hk].
Defined.

Lemma request_keeps_invariants_witness :
  let w' := (request (iteration := elements_iteration)
               (collaborators := sample_collaborators (Returns 200) (Returns tt))
               3 "GET" ("http", "a.test", None, "/") None None None sample_world).2 in
  pool_ok w' ∧
  ∀ n, _max_connections (pool w') = Some n →
       Z.of_nat (size (_get_all_connections w')) ≤ n.
Proof.
  exact (request_keeps_invariants
           (iteration := elements_iteration)
           (collaborators := sample_collaborators (Returns 200) (Returns tt))
           3 "GET" ("http", "a.test", None, "/") None None None sample_world
           (sample_collaborators_keep_origins 200 (Returns tt)) sample_world_pool_ok).
Defined.

Lemma request_connection_is_pooled_witness :
  5%nat ∈ bucket
    (request (iteration := elements_iteration)
       (collaborators := sample_collaborators (Returns 200) (Returns tt))
       3 "GET" ("http", "a.test", None, "/") None None None sample_world).2
    origin_a.
Proof.
  apply (request_connection_is_pooled
           (iteration := elements_iteration)
           (collaborators := sample_collaborators (Returns 200) (Returns tt))
           3 "GET" ("http", "a.test", None, "/") None None None sample_world _
           200 [] (ResponseByteStream.mk 8 5) ∅ origin_a).
  - apply pair_from_fst. vm_compute. reflexivity.
  - reflexivity.
Defined.

Lemma get_connection_hands_out_once_witness :
  let w' := (_get_connection_from_pool (iteration := elements_iteration)
               origin_a sample_world).2 in
  (1%nat ∈ bucket w' origin_a) ∧
  Conn.state (objects w' 1%nat) = READY ∧
  (_get_connection_from_pool (iteration := elements_iteration) origin_a w').1
    ≠ Some 1%nat.
Proof.
  destruct (get_connection_hands_out_once (iteration := elements_iteration)
              origin_a origin_a sample_world 1%nat) as (Hin & Hst & Honce).
  - vm_compute. reflexivity.
  - split_and!; [exact Hin| |exact (Honce eq_refl)].
    destruct Hst as [[_ H]|[[H _]|[H _]]]; [exact H|discriminate H|discriminate H].
Defined.

Lemma close_twice_is_close_once_witness :
  close (iteration := elements_iteration)
    (close (iteration := elements_iteration) sample_world)
  = close (iteration := elements_iteration) sample_world.
Proof.
  exact (proj2 (close_twice_is_close_once (iteration := elements_iteration) sample_world)
           sample_world_filed_by_origin sample_world_no_empty_bucket).
Defined.

Lemma response_closed_after_close_witness :
  _response_closed 4%nat (close (iteration := elements_iteration) sample_world)
  = close (iteration := elements_iteration) sample_world.
Proof.
  apply (response_closed_after_close (iteration := elements_iteration) sample_world 4%nat).
  - exact sample_world_filed_by_origin.
  - exists origin_b. by_compute.
Defined.

Lemma response_closed_touches_only_its_connection_witness :
  _response_closed 3%nat sample_world = sample_world.
Proof.
  destruct (response_closed_touches_only_its_connection 3%nat sample_world)
    as (_ & _ & Hid).
  apply Hid; discriminate.
Defined.


Lemma proxy_request_connection_is_pooled_witness :
  6%nat ∈ bucket
    (SyncHTTPProxy.request (iteration := elements_iteration)
       (collaborators := sample_collaborators (Returns 200) (Returns tt))
       (sample_proxy DEFAULT) "GET" ("https", "target.test", None, "/")
       None None None sample_world).2
    ("https", "target.test", 443).
Proof.
  destruct (proxy_request_connection_is_pooled
              (iteration := elements_iteration)
              (collaborators := sample_collaborators (Returns 200) (Returns tt))
              (sample_proxy DEFAULT) "GET" ("https", "target.test", None, "/")
              None None None sample_world
              (SyncHTTPProxy.request (iteration := elements_iteration)
                 (collaborators := sample_collaborators (Returns 200) (Returns tt))
                 (sample_proxy DEFAULT) "GET" ("https", "target.test", None, "/")
                 None None None sample_world).2
              200 [] (ResponseByteStream.mk 8 6) ∅) as [_ Htunnel].
  - apply pair_from_fst. vm_compute. reflexivity.
  - apply Htunnel; [|reflexivity]. intros [[_ H]|H]; discriminate H.
Defined.


Lemma forward_request_sends_absolute_url_witness :
  last (trace
    (SyncHTTPProxy._forward_request (iteration := elements_iteration)
       (collaborators := sample_collaborators (Returns 200) (Returns tt))
       (sample_proxy DEFAULT) "GET" ("http", "target.test", Some 8000, "/x")
       (Some [("proxy-authorization", "none"); ("Accept", "*/*")]) None None
       sample_world).2)
  = Some (ConnRequest 5%nat "GET"
            ("http", "proxy.test", Some 8080, "http://target.test:8000/x")
            [("proxy-authorization", "none"); ("Accept", "*/*")]).
Proof.
  apply (forward_request_sends_absolute_url
           (iteration := elements_iteration)
           (collaborators := sample_collaborators (Returns 200) (Returns tt))
           (sample_proxy DEFAULT) "GET" "http" "target.test" (Some 8000) "/x"
           (Some [("proxy-authorization", "none"); ("Accept", "*/*")]) None None
           sample_world _ 200 [] (ResponseByteStream.mk 8 5) ∅).
  apply pair_from_fst. vm_compute. reflexivity.
Defined.


Lemma tunnel_request_returns_only_after_2xx_witness :
  ∃ status hs s ex store,
    connection_request
      (Collaborators := sample_collaborators (Returns 200) (Returns tt))
      5%nat "CONNECT"
      (SyncHTTPProxy.proxy_url (sample_proxy DEFAULT) ("target.test" +:+ ":" +:+ pretty 443))
      (Some (merge_headers
               (Some [("Host", "target.test" +:+ ":" +:+ pretty 443); ("Accept", "*/*")])
               (Some (SyncHTTPProxy.proxy_headers (sample_proxy DEFAULT)))))
      None ∅
      (objects (new_connection (SyncHTTPProxy.proxy_origin (sample_proxy DEFAULT)) None
                  sample_world).2)
    = (Returns (status, hs, s, ex), store) ∧
    200 ≤ status ≤ 299.
Proof.
  apply (tunnel_request_returns_only_after_2xx
           (iteration := elements_iteration)
           (collaborators := sample_collaborators (Returns 200) (Returns tt))
           (sample_proxy DEFAULT) "GET" ("https", "target.test", None, "/")
           None None None sample_world sample_world "https" "target.test" 443
           200 [] (ResponseByteStream.mk 8 6) ∅ eq_refl eq_refl).
  vm_compute. reflexivity.
Defined.

Lemma failed_request_frees_the_slot_witness :
  let w1 := (get_or_create (iteration := elements_iteration) origin_a ∅ sample_world).2 in
  let w2 := (conn_request (collaborators := refusing_collaborators)
               1%nat "GET" ("http", "a.test", None, "/") None None ∅ w1).2 in
  let result :=
    request_loop (iteration := elements_iteration)
      (collaborators := refusing_collaborators)
      1 origin_a ∅ "GET" ("http", "a.test", None, "/") None None ∅ sample_world in
  result.1 = Raises (OtherException "ReadError" "connection reset") ∧
  ¬ pooled result.2 1%nat ∧
  trace result.2 = trace w2 ++ [SemaphoreRelease] ∧
  pool_ok result.2.
Proof.
  intros w1 w2.
  apply (failed_request_frees_the_slot
           (iteration := elements_iteration) (collaborators := refusing_collaborators)
           0 origin_a ∅ "GET" ("http", "a.test", None, "/") None None ∅
           sample_world w1 w2 1%nat (OtherException "ReadError" "connection reset")
           refusing_collaborators_keep_origins sample_world_pool_ok).
  - apply pair_from_fst. vm_compute. reflexivity.
  - apply pair_from_fst. reflexivity.
  - discriminate.
Defined.

Lemma request_rounds_witness :
  request (iteration := elements_iteration)
          (collaborators := sample_collaborators (Returns 200) (Returns tt))
          (1 + 4) "GET" ("http", "a.test", None, "/") None None None sample_world
  = request (iteration := elements_iteration)
            (collaborators := sample_collaborators (Returns 200) (Returns tt))
            1 "GET" ("http", "a.test", None, "/") None None None sample_world.
Proof.
  destruct (request_rounds
              (iteration := elements_iteration)
              (collaborators := sample_collaborators (Returns 200) (Returns tt))
              1 4 "GET" ("http", "a.test", None, "/") None None None sample_world)
    as [Hmore Hone].
  apply Hmore. apply Hone.
  - intros c m u h s x store. cbn. case_bool_decide; split; discriminate.
  - discriminate.
Defined.


(** * The pool's report *)

Lemma str_le_cons x a y b :
  str_le (String x a) (String y b) ↔
  (N_of_ascii x < N_of_ascii y)%N ∨ x = y ∧ str_le a b.
Proof.
  unfold str_le, String.leb. cbn [String.compare]. unfold Ascii.compare.
  destruct (N.compare_spec (N_of_ascii x) (N_of_ascii y)) as [He|Hl|Hg].
  - apply N_of_ascii_inj in He. subst. split; [by right|].
    intros [Hlt|[_ H]]; [lia|done].
  - split; [by left|done].
  - split; [done|]. intros [Hlt|[-> _]]; lia.
Qed.

#[global] Instance str_le_total : Total str_le.
Proof. intros a b. apply String.leb_total. Qed.

#[global] Instance str_le_antisymm : AntiSymm (=) str_le.
Proof. intros a b. apply String.leb_antisym. Qed.

#[global] Instance str_le_trans : Transitive str_le.
Proof.
  intros a. induction a as [|x a IH]; intros [|y b] [|z c]; try done.
  rewrite !str_le_cons. intros [H1|[-> H1]] [H2|[-> H2]].
  - left. lia.
  - by left.
  - by left.
  - right. split; [done|]. by eapply IH.
Qed.

Lemma sorted_spec l : StronglySorted str_le (sorted l) ∧ sorted l ≡ₚ l.
Proof.
  split; [apply StronglySorted_merge_sort; apply _|apply merge_sort_Permutation].
Qed.

Section InfoProperties.
Context {iteration : SetIteration} {dict_iteration : DictIteration}
        {info : InfoCollaborators}.

Lemma stats_lookup (w : World) (l : list ((string * string * Z) * gset nat)) url :
  foldl (λ stats '(origin, connections),
           <[origin_to_url_string origin := summaries w connections]> stats)
        (∅ : gmap string (list string)) l !! url
  = (λ p, summaries w p.2)
      <$> last (filter (λ p, origin_to_url_string p.1 = url) l).
Proof.
  induction l as [|[origin s] l IH] using rev_ind; [done|].
  rewrite foldl_snoc, filter_app, filter_cons, filter_nil. cbn [fst].
  case_decide as Hu.
  - subst url. by rewrite lookup_insert_eq, last_snoc.
  - by rewrite lookup_insert_ne, app_nil_r.
Qed.

Lemma summaries_spec w s :
  StronglySorted str_le (summaries w s) ∧
  summaries w s ≡ₚ (λ c, connection_info (objects w c)) <$> elements s ∧
  summaries w s = sorted ((λ c, connection_info (objects w c)) <$> elements s).
Proof.
  unfold summaries.
  destruct (sorted_spec ((λ c, connection_info (objects w c)) <$> set_iter s))
    as [Hs Hp].
  assert (sorted ((λ c, connection_info (objects w c)) <$> set_iter s)
          ≡ₚ (λ c, connection_info (objects w c)) <$> elements s) as Hp'.
  { rewrite Hp. by rewrite (set_iter_perm s). }
  split_and!; [done..|].
  apply StronglySorted_unique with (R := str_le); [apply _|done|apply sorted_spec|].
  rewrite Hp'. symmetry. apply sorted_spec.
Qed.

(** X24. [get_connection_info] sweeps first and reports on the pool as the
    sweep left it.  Every entry of the report is the rendering of an origin
    of the map, with the sorted summaries of the connections of its set;
    every origin of the map has its rendering among the keys; and when no
    other origin of the map has the same rendering, its entry is the sorted
    list of the summaries of its set, whatever the iteration orders. *)
Theorem get_connection_info_reports_swept_pool (w : World) :
  let stats := (get_connection_info w).1 in
  let w' := (get_connection_info w).2 in
  let summary := λ c : handle, connection_info (objects w' c) in
  w' = _keepalive_sweep w ∧
  (∀ url l, stats !! url = Some l →
     ∃ origin s,
       _connections (pool w') !! origin = Some s ∧
       origin_to_url_string origin = url ∧
       StronglySorted str_le l ∧
       l ≡ₚ summary <$> elements s) ∧
  (∀ origin s, _connections (pool w') !! origin = Some s →
     is_Some (stats !! origin_to_url_string origin)) ∧
  (∀ origin s, _connections (pool w') !! origin = Some s →
     (∀ origin', is_Some (_connections (pool w') !! origin') →
        origin_to_url_string origin' = origin_to_url_string origin →
        origin' = origin) →
     stats !! origin_to_url_string origin = Some (sorted (summary <$> elements s)) ∧
     length (sorted (summary <$> elements s)) = size s).
Proof.
  intros stats w' summary.
  assert (w' = _keepalive_sweep w) as Hw' by done.
  set (m := _connections (pool w')).
  assert (∀ url, stats !! url =
            (λ p, summaries w' p.2)
              <$> last (filter (λ p, origin_to_url_string p.1 = url) (dict_iter m)))
    as Hstats by (intros url; apply stats_lookup).
  assert (∀ origin s, (origin, s) ∈ dict_iter m ↔ m !! origin = Some s) as Hiter.
  { intros origin s. by rewrite (dict_iter_perm m), elem_of_map_to_list. }
  split_and!; [done| | |].
  - intros url l. rewrite Hstats.
    destruct (last _) as [[origin s]|] eqn:Hlast; [|done].
    cbn. intros [= <-]. apply last_filter_elem in Hlast as [Hin Hurl].
    exists origin, s. destruct (summaries_spec w' s) as (Hs & Hp & _).
    split_and!; [by apply Hiter|done..].
  - intros origin s Hs. rewrite Hstats. apply fmap_is_Some, last_is_Some.
    intros Hnil. apply Hiter in Hs.
    eapply (filter_nil_not_elem_of _ _ (origin, s)); [exact Hnil|done|done].
  - intros origin s Hs Hinj. split.
    + rewrite Hstats.
      destruct (last _) as [[origin' s']|] eqn:Hlast.
      * apply last_filter_elem in Hlast as [Hin Hurl]. cbn in Hurl.
        apply Hiter in Hin. assert (origin' = origin) as -> by (apply Hinj; eauto).
        assert (s' = s) as -> by congruence. cbn.
        f_equal. apply summaries_spec.
      * exfalso. apply last_None in Hlast. apply Hiter in Hs.
        eapply (filter_nil_not_elem_of _ _ (origin, s)); [exact Hlast|done|done].
    + destruct (sorted_spec (summary <$> elements s)) as [_ Hp].
      by rewrite Hp, length_fmap.
Qed.

End InfoProperties.

Example get_connection_info_sample :
  let stats := (get_connection_info (iteration := elements_iteration)
                  (dict_iteration := map_to_list_iteration) (info := sample_info)
                  sample_world).1 in
  stats !! "http://a.test:80" = Some ["HTTP/1.1, IDLE"; "HTTP/1.1, PENDING"] ∧
  stats !! "https://b.test:443" = Some ["HTTP/2, ACTIVE"] ∧
  size stats = 2%nat.
Proof. vm_compute. done. Qed.

Lemma get_connection_info_reports_swept_pool_witness :
  let stats := (get_connection_info (iteration := elements_iteration)
                  (dict_iteration := map_to_list_iteration) (info := sample_info)
                  sample_world).1 in
  stats !! "http://a.test:80" = Some ["HTTP/1.1, IDLE"; "HTTP/1.1, PENDING"].
Proof.
  intros stats.
  destruct (get_connection_info_reports_swept_pool
              (iteration := elements_iteration)
              (dict_iteration := map_to_list_iteration) (info := sample_info)
              sample_world) as (_ & _ & _ & Hexact).
  assert (_connections
            (pool (get_connection_info (iteration := elements_iteration)
                     (dict_iteration := map_to_list_iteration) (info := sample_info)
                     sample_world).2)
          = <[origin_a := {[2%nat; 3%nat]}]> (<[origin_b := {[4%nat]}]> ∅)) as Hmap.
  { vm_compute. reflexivity. }
  destruct (Hexact origin_a {[2%nat; 3%nat]}) as [Hstats _].
  - rewrite Hmap. apply lookup_insert_eq.
  - intros origin'. rewrite Hmap. intros [s Hs] Hurl.
    apply lookup_insert_Some in Hs as [[<- _]|[_ Hs]]; [reflexivity|].
    apply lookup_insert_Some in Hs as [[<- _]|[_ Hs]]; [discriminate Hurl|].
    rewrite lookup_empty in Hs. discriminate Hs.
  - etrans; [exact Hstats|]. vm_compute. reflexivity.
Defined.
